(** * TinyGrid formula engine: a shallow embedding and its verified properties

    The development follows the TypeScript sources:
    - the shared types and the address helpers (toCellAddress,
      parseCellAddress, formatCellAddress),
    - the address codec (colToLetter, letterToCol, parseAddress,
      formatAddress, parseRange, getCellsInRange, adjustReference,
      isValidAddress, getNeighbor),
    - the lexer and the recursive-descent parser,
    - the DependencyGraph class and the FormulaEngine class,
    - the reducer, the address helpers and the key handler of the grid
      component.

    JavaScript numbers are IEEE-754 doubles and are modelled by Rocq's
    primitive floats wherever a cell value is computed; loop counters, column
    and row coordinates are integers in the source and are modelled in [Z],
    which is what the doubles compute as long as the numbers stay at or below
    [Number.MAX_SAFE_INTEGER]: a theorem about arbitrary coordinates carries
    that bound.  A text of the source is modelled by a [string], whose
    characters are the code units 0 to 255.  A [Map] or a [Set] of the source
    iterates in insertion order, so both are modelled by lists that keep that
    order. *)

From Stdlib Require Import ZArith List String Ascii Bool Lia Floats.
Import ListNotations.
#[local] Set Warnings "-register-all".
Open Scope string_scope.
Open Scope list_scope.
Open Scope Z_scope.

(** ** Insertion-ordered collections (JavaScript [Set] and [Map]) *)

Module Js.

(** A [Set<string>]: the members in insertion order, without repetition. *)
Abbreviation set := (list string) (only parsing).

Definition set_has (x : string) (s : set) : bool := existsb (String.eqb x) s.

Definition set_add (x : string) (s : set) : set :=
  if set_has x s then s else s ++ [x].

Definition set_delete (x : string) (s : set) : set :=
  filter (fun y => negb (String.eqb x y)) s.

(** A [Map<string, V>]: the entries in insertion order. *)
Definition map (V : Type) := list (string * V).

Fixpoint map_get {V} (k : string) (m : map V) : option V :=
  match m with
  | [] => None
  | (k', v) :: r => if String.eqb k k' then Some v else map_get k r
  end.

Definition map_has {V} (k : string) (m : map V) : bool :=
  match map_get k m with Some _ => true | None => false end.

(** [set] on a present key keeps the entry's position, on a new key
    appends the entry. *)
Fixpoint map_set {V} (k : string) (v : V) (m : map V) : map V :=
  match m with
  | [] => [(k, v)]
  | (k', v') :: r =>
      if String.eqb k k' then (k, v) :: r else (k', v') :: map_set k v r
  end.

Definition map_delete {V} (k : string) (m : map V) : map V :=
  filter (fun p => negb (String.eqb k (fst p))) m.

End Js.

(** ** Failure *)

(** A call either returns, or throws [new Error(message)].  [OutOfFuel] is
    the answer of a fuel-indexed function whose fuel is spent; the source has
    no such case. *)
Inductive outcome (A : Type) : Type :=
| Ok (a : A)
| Throw (message : string)
| OutOfFuel.
Arguments Ok {A} a.
Arguments Throw {A} message.
Arguments OutOfFuel {A}.

Definition bind_outcome {A B} (x : outcome A) (f : A -> outcome B) : outcome B :=
  match x with
  | Ok a => f a
  | Throw m => Throw m
  | OutOfFuel => OutOfFuel
  end.

(** [stable a b]: [b] is the answer [a] unless [a] ran out of fuel. *)
Definition stable {A} (a b : outcome A) : Prop := a <> OutOfFuel -> b = a.

(** ** Characters, numerals and the address grammar *)

Module Text.

(** [Number.MAX_SAFE_INTEGER]: the integers of the source are doubles, and
    up to this one they and their successors are exact. *)
Definition MAX_SAFE_INTEGER : Z := 2 ^ 53 - 1.

Definition charCode (c : ascii) : Z := Z.of_N (N_of_ascii c).

Definition fromCharCode (n : Z) : ascii := ascii_of_N (Z.to_N n).

Definition between (lo hi : Z) (c : ascii) : bool :=
  (lo <=? charCode c) && (charCode c <=? hi).

(** [[A-Z]], [[0-9]] (also [\d]) and [[1-9]]. *)
Definition is_upper : ascii -> bool := between 65 90.
Definition is_digit : ascii -> bool := between 48 57.
Definition is_digit19 : ascii -> bool := between 49 57.
(** [[a-zA-Z]] and [[a-zA-Z0-9]]. *)
Definition is_letter (c : ascii) : bool := is_upper c || between 97 122 c.
Definition is_alnum (c : ascii) : bool := is_letter c || is_digit c.
(** [\s] on the characters of a [string], which are the code units 0 to 255:
    tab, line feed, vertical tab, form feed and carriage return (9 to 13),
    space (32) and the no-break space U+00A0 (160).  The other characters that
    [\s] matches (U+1680, U+2000 to U+200A, U+2028, U+2029, U+202F, U+205F,
    U+3000 and U+FEFF) lie above 255. *)
Definition is_space (c : ascii) : bool :=
  between 9 13 c || (charCode c =? 32) || (charCode c =? 160).

(** The text ["\u00A0"]. *)
Definition no_break_space : string := String (fromCharCode 160) EmptyString.

Definition is_dollar (c : ascii) : bool := charCode c =? 36.

Fixpoint all_chars (p : ascii -> bool) (s : string) : bool :=
  match s with
  | EmptyString => true
  | String c r => p c && all_chars p r
  end.

Fixpoint includes_char (p : ascii -> bool) (s : string) : bool :=
  match s with
  | EmptyString => false
  | String c r => p c || includes_char p r
  end.

(** The longest prefix of characters satisfying [p], and what follows it. *)
Fixpoint span (p : ascii -> bool) (s : string) : string * string :=
  match s with
  | EmptyString => (EmptyString, EmptyString)
  | String c r =>
      if p c then let (a, b) := span p r in (String c a, b)
      else (EmptyString, s)
  end.

(** [\$?] *)
Definition optional_dollar (s : string) : bool * string :=
  match s with
  | String c r => if is_dollar c then (true, r) else (false, s)
  | EmptyString => (false, s)
  end.

(** The anchored pattern of an address: an optional dollar sign, one or more
    capital letters, an optional dollar sign, one character of the class
    [first] and then any number of digits, up to the end of the string.  The
    four groups (both dollar signs, the letters, the digits) are returned.
    Classes that follow one another are disjoint, so the greedy match below is
    the only match. *)
Definition match_address (first : ascii -> bool) (s : string)
  : option (bool * string * bool * string) :=
  let (colAbsolute, s1) := optional_dollar s in
  let (colStr, s2) := span is_upper s1 in
  match colStr with
  | EmptyString => None
  | _ =>
      let (rowAbsolute, s3) := optional_dollar s2 in
      match s3 with
      | String c r =>
          if first c && all_chars is_digit r
          then Some (colAbsolute, colStr, rowAbsolute, s3)
          else None
      | EmptyString => None
      end
  end.

(** The value of a run of decimal digits, as [parseInt(s, 10)] reads it. *)
Definition digits_value (s : string) : Z :=
  fold_left (fun n c => n * 10 + (charCode c - 48)) (list_ascii_of_string s) 0.

(** [parseInt(s)] on the strings it is given here, which carry no white
    space, no sign and no [0x] prefix: the leading decimal digits are read,
    and the answer is [NaN] ([None]) when there is none. *)
Definition parseInt (s : string) : option Z :=
  match fst (span is_digit s) with
  | EmptyString => None
  | ds => Some (digits_value ds)
  end.

(** The decimal numeral of a non-negative integer; every round of the loop
    divides by ten, so the binary logarithm is fuel enough (see
    [numeral_loop_spec]). *)
Fixpoint numeral_loop (fuel : nat) (n : Z) (acc : string) : string :=
  let acc' := String (fromCharCode (48 + n mod 10)) acc in
  match fuel with
  | O => acc'
  | S fuel' => if n <? 10 then acc' else numeral_loop fuel' (n / 10) acc'
  end.

Definition numeral (n : Z) : string :=
  numeral_loop (Z.to_nat (Z.log2 n)) n EmptyString.

(** [n.toString()] and [`${n}`] for an integer [n]. *)
Definition toString (n : Z) : string :=
  if n <? 0 then String "-" (numeral (- n)) else numeral n.

(** The loop shared by [colToLetter] and [formatCellAddress]:
    [while (colNum > 0) { colNum -= 1; result = letter + result; colNum =
    Math.floor(colNum / 26) }]. *)
Fixpoint letters_loop (fuel : nat) (colNum : Z) (result : string) : string :=
  match fuel with
  | O => result
  | S fuel' =>
      if 0 <? colNum then
        let colNum := colNum - 1 in
        letters_loop fuel' (colNum / 26)
          (String (fromCharCode (65 + colNum mod 26)) result)
      else result
  end.

(** [colNum] is at least halved by every round, so this fuel is never
    spent (see [letters_loop_spec]). *)
Definition letters_fuel (colNum : Z) : nat := S (Z.to_nat (Z.log2 colNum)).

(** The loop shared by [letterToCol] and [parseCellAddress]. *)
Definition letters_value (letters : string) : Z :=
  fold_left (fun col c => col * 26 + (charCode c - 65 + 1))
    (list_ascii_of_string letters) 0.

(** [fold_left] over the characters of a string, as a recursion on it. *)
Fixpoint accumulate (base off : Z) (acc : Z) (s : string) : Z :=
  match s with
  | EmptyString => acc
  | String c r => accumulate base off (acc * base + (charCode c - off)) r
  end.

End Text.

(** ** Shared types and address helpers *)

Module Types.
Import Text.

(** [CellAddress] is a branded string. *)
Abbreviation CellAddress := string (only parsing).

Definition toCellAddress (addr : string) : outcome CellAddress :=
  match match_address is_digit19 addr with
  | Some _ => Ok addr
  | None => Throw ("Invalid cell address format: " ++ addr)%string
  end.

Definition parseCellAddress (addr : CellAddress) : outcome (Z * Z) :=
  match match_address is_digit19 addr with
  | Some (_, colStr, _, rowStr) =>
      let col := letters_value colStr - 1 in
      let row := digits_value rowStr - 1 in
      Ok (col, row)
  | None => Throw ("Invalid cell address: " ++ addr)%string
  end.

Definition formatCellAddress (col row : Z) : outcome CellAddress :=
  if (col <? 0) || (row <? 0) then
    Throw ("Invalid cell coordinates: col=" ++ toString col ++ ", row="
           ++ toString row)%string
  else
    let colStr := letters_loop (letters_fuel (col + 1)) (col + 1) "" in
    let rowStr := toString (row + 1) in
    toCellAddress (colStr ++ rowStr)%string.

Inductive ErrorCode := CYCLE | REF | PARSE | DIV0.

(** The values a literal cell may hold. *)
Inductive LiteralValue :=
| LNumber (n : float)
| LString (s : string)
| LBoolean (b : bool).

Inductive FormulaAst :=
| NumberLiteral (value : float)
| StringLiteral (value : string)
| BooleanLiteral (value : bool)
| CellRef (address : CellAddress) (absoluteCol absoluteRow : bool)
| RangeRef (start finish : CellAddress)
| FunctionCall (name : string) (args : list FormulaAst)
| BinaryOp (op : string) (left right : FormulaAst)
| UnaryOp (op : string) (operand : FormulaAst).

Inductive Cell :=
| LiteralCell (value : LiteralValue)
| FormulaCell (src : string) (ast : FormulaAst)
| ErrorCell (message : string) (code : ErrorCode).

(** The [updatedAt] time stamp is left out. *)
Record Sheet := mkSheet
  { id : string;
    name : string;
    rows : Z;
    cols : Z;
    cells : Js.map Cell }.

(** [CellValue], together with the arrays that [evaluateRange] lets
    through under [as any]. *)
Inductive CellValue :=
| VNumber (n : float)
| VString (s : string)
| VBoolean (b : bool)
| VNull
| VArray (values : list CellValue).

Definition of_literal (v : LiteralValue) : CellValue :=
  match v with
  | LNumber n => VNumber n
  | LString s => VString s
  | LBoolean b => VBoolean b
  end.

Record EvalError := mkError { code : ErrorCode; message : string }.

Record EvalResult := mkResult { value : CellValue; error : option EvalError }.

End Types.

(** ** The address codec *)

Module Codec.
Import Text Types.

Definition colToLetter (col : Z) : string :=
  letters_loop (letters_fuel (col + 1)) (col + 1) "".

Definition letterToCol (letters : string) : Z := letters_value letters - 1.

Record Address := mkAddress
  { col : Z; row : Z; absoluteCol : bool; absoluteRow : bool }.

Definition parseAddress (addr : string) : outcome Address :=
  match match_address is_digit19 addr with
  | Some (colAbsolute, colStr, rowAbsolute, rowStr) =>
      Ok (mkAddress (letterToCol colStr) (digits_value rowStr - 1)
            colAbsolute rowAbsolute)
  | None => Throw ("Invalid cell address: " ++ addr)%string
  end.

(** Columns and rows are exact integers here.  The source computes them in
    doubles, which agree with the integers as long as the numbers and their
    successors stay at or below [MAX_SAFE_INTEGER]; the theorems about this
    function carry that bound.  [Double.formatAddress] below keeps the row a
    double. *)
Definition formatAddress (col row : Z) (absoluteCol absoluteRow : bool)
  : outcome CellAddress :=
  let colStr := ((if absoluteCol then "$" else "") ++ colToLetter col)%string in
  let rowStr := ((if absoluteRow then "$" else "") ++ toString (row + 1))%string in
  toCellAddress (colStr ++ rowStr)%string.

(** [formatAddress] with its row as the double that it is in the source:
    [row + 1] is the rounded sum of doubles, and the host writes it
    ([numberToString] is the conversion that [+] applies to a number next to
    a string).  The column stays an exact integer. *)
Module Double.
Section Host.
Variable numberToString : float -> string.

Definition rowStr (row : float) (absoluteRow : bool) : string :=
  ((if absoluteRow then "$" else "") ++ numberToString (row + 1)%float)%string.

Definition formatAddress (col : Z) (row : float) (absoluteCol absoluteRow : bool)
  : outcome CellAddress :=
  let colStr := ((if absoluteCol then "$" else "") ++ colToLetter col)%string in
  toCellAddress (colStr ++ rowStr row absoluteRow)%string.

End Host.
End Double.

(** The integers [lo], [lo + 1], ..., [hi] that a counting loop runs
    through. *)
Definition interval (lo hi : Z) : list Z :=
  map (fun i => lo + Z.of_nat i) (seq 0 (Z.to_nat (hi - lo + 1))).

(** [for (...) { cells.push(f(...)) }] where [f] may throw. *)
Fixpoint collect {A B} (f : A -> outcome B) (l : list A) : outcome (list B) :=
  match l with
  | [] => Ok []
  | a :: r =>
      bind_outcome (f a) (fun b =>
      bind_outcome (collect f r) (fun bs => Ok (b :: bs)))
  end.

Definition getCellsInRange (startAddr endAddr : CellAddress)
  : outcome (list CellAddress) :=
  bind_outcome (parseAddress startAddr) (fun startParsed =>
  bind_outcome (parseAddress endAddr) (fun endParsed =>
  let minCol := Z.min (col startParsed) (col endParsed) in
  let maxCol := Z.max (col startParsed) (col endParsed) in
  let minRow := Z.min (row startParsed) (row endParsed) in
  let maxRow := Z.max (row startParsed) (row endParsed) in
  collect (fun cr => formatAddress (fst cr) (snd cr) false false)
    (flat_map (fun c => map (fun r => (c, r)) (interval minRow maxRow))
       (interval minCol maxCol)))).

(** [s.split(':')]: the pieces between the colons, of which there is always
    at least one. *)
Fixpoint split_colon (s : string) : list string :=
  match s with
  | EmptyString => [EmptyString]
  | String c r =>
      if charCode c =? 58 then EmptyString :: split_colon r
      else match split_colon r with
           | piece :: pieces => String c piece :: pieces
           | [] => [String c EmptyString]
           end
  end.

Definition parseRange (range : string) : outcome (CellAddress * CellAddress) :=
  match split_colon range with
  | [first; second] =>
      bind_outcome (toCellAddress first) (fun start =>
      bind_outcome (toCellAddress second) (fun finish =>
      Ok (start, finish)))
  | _ => Throw ("Invalid range format: " ++ range)%string
  end.

(** [{ row?: number; col?: number }]: a field left out is [undefined]. *)
Record Position := mkPosition { at_row : option Z; at_col : option Z }.

Record Absolute := mkAbsolute { abs_col : bool; abs_row : bool }.

(** One axis of [adjustReference]: the insertion is looked at first, and the
    deletion sees the coordinate that the insertion left. *)
Definition adjust (inserted deleted : option Z) (absolute : bool) (n : Z) : Z :=
  let n :=
    match inserted with
    | Some i => if negb absolute && (i <=? n) then n + 1 else n
    | None => n
    end in
  match deleted with
  | Some d => if negb absolute && (d <? n) then n - 1 else n
  | None => n
  end.

Definition adjustReference (addr : CellAddress) (insertedAt deletedAt : Position)
    (isAbsolute : Absolute) : outcome CellAddress :=
  bind_outcome (parseAddress addr) (fun parsed =>
  let row := adjust (at_row insertedAt) (at_row deletedAt)
               (abs_row isAbsolute) (row parsed) in
  let col := adjust (at_col insertedAt) (at_col deletedAt)
               (abs_col isAbsolute) (col parsed) in
  formatAddress col row (absoluteCol parsed) (absoluteRow parsed)).

(** The bounds of a sheet are whole numbers. *)
Definition isValidAddress (addr : CellAddress) (maxRows maxCols : Z) : bool :=
  match parseAddress addr with
  | Ok parsed =>
      (0 <=? col parsed) && (col parsed <? maxCols)
      && (0 <=? row parsed) && (row parsed <? maxRows)
  | _ => false
  end.

(** ['up' | 'down' | 'left' | 'right'] *)
Inductive Direction := Up | Down | Left | Right.

(** The [switch] of [getNeighbor]: one step from a column and a row. *)
Definition move (direction : Direction) (col row : Z) : Z * Z :=
  match direction with
  | Up => (col, row - 1)
  | Down => (col, row + 1)
  | Left => (col - 1, row)
  | Right => (col + 1, row)
  end.

(** [null] is [None]. *)
Definition getNeighbor (addr : CellAddress) (direction : Direction)
    (maxRows maxCols : Z) : outcome (option CellAddress) :=
  bind_outcome (parseAddress addr) (fun parsed =>
  let (col, row) := move direction (col parsed) (row parsed) in
  if (col <? 0) || (maxCols <=? col) || (row <? 0) || (maxRows <=? row)
  then Ok None
  else bind_outcome (formatAddress col row false false) (fun a => Ok (Some a))).

(** The way back, for the statement of the round trip of [getNeighbor]. *)
Definition opposite (direction : Direction) : Direction :=
  match direction with
  | Up => Down
  | Down => Up
  | Left => Right
  | Right => Left
  end.

(** The address that [formatAddress] writes for non-negative coordinates. *)
Definition written (col row : Z) (ac ar : bool) : string :=
  (((if ac then "$" else "") ++ colToLetter col)
   ++ ((if ar then "$" else "") ++ toString (row + 1)))%string.

Definition not_colon (c : ascii) : bool := negb (charCode c =? 58).

(** [pieces.join(':')], the inverse of [split]. *)
Fixpoint join_colon (pieces : list string) : string :=
  match pieces with
  | [] => EmptyString
  | [piece] => piece
  | piece :: rest => (piece ++ String ":" (join_colon rest))%string
  end.

End Codec.

(** ** The lexer *)

Module Lexer.
Import Text.

Inductive TokenType :=
| NUMBER | STRING | CELL_REF | RANGE | FUNCTION | OPERATOR
| LPAREN | RPAREN | COMMA | COLON | EOF.

Definition TokenType_eqb (a b : TokenType) : bool :=
  match a, b with
  | NUMBER, NUMBER | STRING, STRING | CELL_REF, CELL_REF | RANGE, RANGE
  | FUNCTION, FUNCTION | OPERATOR, OPERATOR | LPAREN, LPAREN
  | RPAREN, RPAREN | COMMA, COMMA | COLON, COLON | EOF, EOF => true
  | _, _ => false
  end.

Definition TokenType_name (a : TokenType) : string :=
  match a with
  | NUMBER => "NUMBER" | STRING => "STRING" | CELL_REF => "CELL_REF"
  | RANGE => "RANGE" | FUNCTION => "FUNCTION" | OPERATOR => "OPERATOR"
  | LPAREN => "LPAREN" | RPAREN => "RPAREN" | COMMA => "COMMA"
  | COLON => "COLON" | EOF => "EOF"
  end.

Record Token := mkToken { type : TokenType; value : string; tpos : nat }.

(** The lexer: its input and its cursor. *)
Record t := mk { input : string; pos : nat }.

(** [input.slice(from, to)] *)
Definition slice (from to : nat) (s : string) : string :=
  substring from (to - from) s.

(** The input from the cursor on. *)
Definition ahead (l : t) : string :=
  slice (pos l) (String.length (input l)) (input l).

(** [peek(offset)]: [None] stands for the empty string returned at the end
    of the input. *)
Definition peek (offset : nat) (l : t) : option ascii :=
  String.get (pos l + offset) (input l).

Definition skipWhitespace (l : t) : t :=
  mk (input l) (pos l + String.length (fst (span is_space (ahead l)))).

(** How far the loop of [readNumber] moves the cursor. *)
Fixpoint number_length (hasDecimal : bool) (s : string) : nat :=
  match s with
  | EmptyString => 0
  | String c r =>
      if is_digit c then S (number_length hasDecimal r)
      else if (charCode c =? 46) && negb hasDecimal
           then S (number_length true r)
           else 0
  end.

Definition readNumber (l : t) : Token * t :=
  let start := pos l in
  let stop := (start + number_length false (ahead l))%nat in
  (mkToken NUMBER (slice start stop (input l)) start, mk (input l) stop).

(** How far the loop of [readString] moves the cursor from the character
    after the opening quote: a backslash skips two positions, the loop stops
    in front of a double quote or past the end. *)
Fixpoint string_length (s : string) : nat :=
  match s with
  | EmptyString => 0
  | String c r =>
      if charCode c =? 34 then 0
      else if charCode c =? 92 then
             match r with
             | EmptyString => 2
             | String _ r' => S (S (string_length r'))
             end
           else S (string_length r)
  end.

Definition readString (l : t) : outcome (Token * t) :=
  let start := pos l in
  let body := mk (input l) (S start) in
  let stop := (S start + string_length (ahead body))%nat in
  if (String.length (input l) <=? stop)%nat then
    Throw "Unterminated string literal"
  else
    Ok (mkToken STRING (slice (S start) stop (input l)) start,
        mk (input l) (S stop)).

Definition isCellReference (value : string) : bool :=
  match match_address is_digit value with
  | Some _ => true
  | None => false
  end.

Definition readIdentifier (l : t) : Token * t :=
  let start := pos l in
  let body := mk (input l) (S start) in
  let stop :=
    (S start
     + String.length
         (fst (span (fun c => is_alnum c || is_dollar c) (ahead body))))%nat in
  let value := slice start stop (input l) in
  (mkToken (if isCellReference value then CELL_REF else FUNCTION) value start,
   mk (input l) stop).

Definition is_digit_opt (c : option ascii) : bool :=
  match c with Some c => is_digit c | None => false end.

Definition is_char (n : Z) (c : option ascii) : bool :=
  match c with Some c => charCode c =? n | None => false end.

Definition nextToken (l0 : t) : outcome (Token * t) :=
  let l := skipWhitespace l0 in
  match String.get (pos l) (input l) with
  | None => Ok (mkToken EOF "" (pos l), l)
  | Some char =>
      let startPos := pos l in
      let one (ty : TokenType) :=
        Ok (mkToken ty (String char "") startPos, mk (input l) (S startPos)) in
      let two (v : string) :=
        Ok (mkToken OPERATOR v startPos, mk (input l) (S (S startPos))) in
      if is_digit char || ((charCode char =? 46) && is_digit_opt (peek 1 l))
      then Ok (readNumber l)
      else if charCode char =? 34 then readString l
      else if is_letter char then Ok (readIdentifier l)
      else if charCode char =? 40 then one LPAREN
      else if charCode char =? 41 then one RPAREN
      else if charCode char =? 44 then one COMMA
      else if charCode char =? 58 then one COLON
      else if (charCode char =? 43) || (charCode char =? 45)
              || (charCode char =? 42) || (charCode char =? 47)
              || (charCode char =? 94) || (charCode char =? 61)
      then one OPERATOR
      else if charCode char =? 60 then
             if is_char 61 (peek 1 l) then two "<="
             else if is_char 62 (peek 1 l) then two "<>"
             else one OPERATOR
      else if charCode char =? 62 then
             if is_char 61 (peek 1 l) then two ">="
             else one OPERATOR
      else Throw ("Unexpected character: " ++ String char ""
                  ++ " at position " ++ toString (Z.of_nat (pos l)))%string
  end.

End Lexer.

(** ** The parser *)

Module Parser.
Import Text Types Lexer.

(** [parseFloat] on a [NUMBER] token, that is on digits with at most one
    decimal point: the double nearest to the decimal value, ties to even. *)
Definition parseFloat (s : string) : float :=
  let (whole, rest) := span is_digit s in
  let fraction :=
    match rest with
    | String _ r => fst (span is_digit r)
    | EmptyString => EmptyString
    end in
  let n := digits_value (whole ++ fraction)%string in
  let d := 10 ^ Z.of_nat (String.length fraction) in
  if n =? 0 then 0%float
  else
    SF2Prim
      (SFdiv prec emax
         (S754_finite false (Z.to_pos n) 0)
         (S754_finite false (Z.to_pos d) 0)).

(** The parser: its lexer and the token under the cursor. *)
Record t := mk { lexer : Lexer.t; current : Token }.

(** [new Parser(input)] *)
Definition create (input : string) : outcome t :=
  bind_outcome (nextToken (Lexer.mk input 0)) (fun r =>
  Ok (mk (snd r) (fst r))).

Definition advance (p : t) : outcome t :=
  bind_outcome (nextToken (lexer p)) (fun r => Ok (mk (snd r) (fst r))).

Definition expect (ty : TokenType) (p : t) : outcome t :=
  if TokenType_eqb (type (current p)) ty then advance p
  else Throw ("Expected " ++ TokenType_name ty ++ " but got "
              ++ TokenType_name (type (current p)))%string.

(** The operator precedence table. *)
Definition PRECEDENCE (op : string) : option Z :=
  if String.eqb op "=" then Some 1
  else if String.eqb op "<>" then Some 1
  else if String.eqb op "<" then Some 2
  else if String.eqb op "<=" then Some 2
  else if String.eqb op ">" then Some 2
  else if String.eqb op ">=" then Some 2
  else if String.eqb op "+" then Some 3
  else if String.eqb op "-" then Some 3
  else if String.eqb op "*" then Some 4
  else if String.eqb op "/" then Some 4
  else if String.eqb op "^" then Some 5
  else None.

(** [cellRef.includes('$')] *)
Definition includes_dollar (s : string) : bool := includes_char is_dollar s.

(** The recursive descent.  Every call and every round of a loop takes one
    unit of fuel; [expression_loop] is the [while] loop of [parseExpression]
    and [arguments_loop] the one of [parseFunction]. *)
Fixpoint parseExpression (fuel : nat) (minPrecedence : Z) (p : t)
  : outcome (FormulaAst * t) :=
  match fuel with
  | O => OutOfFuel
  | S fuel =>
      bind_outcome (parsePrimary fuel p) (fun r =>
      expression_loop fuel minPrecedence (fst r) (snd r))
  end
with expression_loop (fuel : nat) (minPrecedence : Z) (left : FormulaAst)
       (p : t) : outcome (FormulaAst * t) :=
  match fuel with
  | O => OutOfFuel
  | S fuel =>
      if TokenType_eqb (type (current p)) OPERATOR then
        let op := value (current p) in
        match PRECEDENCE op with
        | None => Ok (left, p)
        | Some precedence =>
            if (precedence =? 0) || (precedence <? minPrecedence)
            then Ok (left, p)
            else
              bind_outcome (advance p) (fun p =>
              bind_outcome (parseExpression fuel (precedence + 1) p) (fun r =>
              expression_loop fuel minPrecedence
                (BinaryOp op left (fst r)) (snd r)))
        end
      else Ok (left, p)
  end
with parsePrimary (fuel : nat) (p : t) : outcome (FormulaAst * t) :=
  match fuel with
  | O => OutOfFuel
  | S fuel =>
      match type (current p) with
      | NUMBER =>
          let numValue := parseFloat (value (current p)) in
          bind_outcome (advance p) (fun p => Ok (NumberLiteral numValue, p))
      | STRING =>
          let strValue := value (current p) in
          bind_outcome (advance p) (fun p => Ok (StringLiteral strValue, p))
      | CELL_REF =>
          let cellRef := value (current p) in
          bind_outcome (advance p) (fun p =>
          if TokenType_eqb (type (current p)) COLON then
            bind_outcome (advance p) (fun p =>
            if negb (TokenType_eqb (type (current p)) CELL_REF) then
              Throw "Expected cell reference after colon"
            else
              let endRef := value (current p) in
              bind_outcome (advance p) (fun p =>
              bind_outcome (toCellAddress cellRef) (fun start =>
              bind_outcome (toCellAddress endRef) (fun finish =>
              Ok (RangeRef start finish, p)))))
          else
            bind_outcome (toCellAddress cellRef) (fun address =>
            Ok (CellRef address (includes_dollar cellRef)
                  (includes_dollar cellRef), p)))
      | FUNCTION =>
          let funcName := value (current p) in
          bind_outcome (advance p) (fun p => parseFunction fuel funcName p)
      | LPAREN =>
          bind_outcome (advance p) (fun p =>
          bind_outcome (parseExpression fuel 0 p) (fun r =>
          bind_outcome (expect RPAREN (snd r)) (fun p => Ok (fst r, p))))
      | OPERATOR =>
          let op := value (current p) in
          if String.eqb op "-" || String.eqb op "+" then
            bind_outcome (advance p) (fun p =>
            bind_outcome (parsePrimary fuel p) (fun r =>
            Ok (UnaryOp op (fst r), snd r)))
          else Throw ("Unexpected operator: " ++ op)%string
      | _ => Throw ("Unexpected token: " ++ value (current p))%string
      end
  end
with parseFunction (fuel : nat) (name : string) (p : t)
  : outcome (FormulaAst * t) :=
  match fuel with
  | O => OutOfFuel
  | S fuel =>
      bind_outcome (expect LPAREN p) (fun p =>
      bind_outcome
        (if negb (TokenType_eqb (type (current p)) RPAREN) then
           bind_outcome (parseExpression fuel 0 p) (fun r =>
           arguments_loop fuel [fst r] (snd r))
         else Ok ([], p)) (fun r =>
      bind_outcome (expect RPAREN (snd r)) (fun p =>
      Ok (FunctionCall name (fst r), p))))
  end
with arguments_loop (fuel : nat) (args : list FormulaAst) (p : t)
  : outcome (list FormulaAst * t) :=
  match fuel with
  | O => OutOfFuel
  | S fuel =>
      if TokenType_eqb (type (current p)) COMMA then
        bind_outcome (advance p) (fun p =>
        bind_outcome (parseExpression fuel 0 p) (fun r =>
        arguments_loop fuel (args ++ [fst r]) (snd r)))
      else Ok (args, p)
  end.

Definition parse (fuel : nat) (p : t) : outcome FormulaAst :=
  bind_outcome (parseExpression fuel 0 p) (fun r =>
  if negb (TokenType_eqb (type (current (snd r))) EOF) then
    Throw ("Unexpected token: " ++ value (current (snd r)))%string
  else Ok (fst r)).

(** [input.startsWith('=') ? input.slice(1) : input] *)
Definition strip_equals (input : string) : string :=
  match input with
  | String c r => if charCode c =? 61 then r else input
  | EmptyString => input
  end.

Definition parseFormula (fuel : nat) (input : string) : outcome FormulaAst :=
  bind_outcome (create (strip_equals input)) (fun parser => parse fuel parser).

(** [flags_agree ast]: on every cell reference of the tree both absolute
    flags say whether the address holds a dollar sign. *)
Fixpoint flags_agree (ast : FormulaAst) : Prop :=
  match ast with
  | CellRef address absoluteCol absoluteRow =>
      absoluteCol = includes_dollar address
      /\ absoluteRow = includes_dollar address
  | FunctionCall _ args =>
      (fix each (args : list FormulaAst) : Prop :=
         match args with
         | [] => True
         | arg :: args => flags_agree arg /\ each args
         end) args
  | BinaryOp _ lhs rhs => flags_agree lhs /\ flags_agree rhs
  | UnaryOp _ operand => flags_agree operand
  | _ => True
  end.

(** The token under the cursor was read from the input in front of the
    lexer's cursor. *)
Definition valid (p : Parser.t) : Prop :=
  (pos (lexer p) <= String.length (input (lexer p)))%nat
  /\ if TokenType_eqb (type (current p)) EOF
     then tpos (current p) = String.length (input (lexer p))
     else (tpos (current p) < pos (lexer p))%nat.

(** What is left of the input from the token under the cursor on. *)
Definition left_over (p : Parser.t) : nat :=
  String.length (input (lexer p)) - tpos (current p).

Definition later (strict : bool) (p p' : Parser.t) : Prop :=
  valid p' /\ input (lexer p') = input (lexer p)
  /\ if strict then (left_over p' < left_over p)%nat
     else (left_over p' <= left_over p)%nat.

(** [well_formed ast]: the tree holds no boolean literal, the addresses of
    its references and ranges are addresses that [toCellAddress] accepts, its
    binary operators are those of the precedence table and its unary
    operators are the two signs. *)
Fixpoint well_formed (ast : FormulaAst) : Prop :=
  match ast with
  | NumberLiteral _ | StringLiteral _ => True
  | BooleanLiteral _ => False
  | CellRef address _ _ => toCellAddress address = Ok address
  | RangeRef start finish =>
      toCellAddress start = Ok start /\ toCellAddress finish = Ok finish
  | FunctionCall _ args =>
      (fix each (args : list FormulaAst) : Prop :=
         match args with
         | [] => True
         | arg :: args => well_formed arg /\ each args
         end) args
  | BinaryOp op lhs rhs =>
      PRECEDENCE op <> None /\ well_formed lhs /\ well_formed rhs
  | UnaryOp op operand => (op = "-" \/ op = "+") /\ well_formed operand
  end.

End Parser.

(** ** The dependency graph *)

Module DependencyGraph.

Record t := mk
  { dependencies : Js.map Js.set;
    dependents : Js.map Js.set }.

Definition empty : t := mk [] [].

(** [m.get(k)!.add(x)]: the set stored under [k] is updated in place. *)
Definition add_to (k x : string) (m : Js.map Js.set) : Js.map Js.set :=
  match Js.map_get k m with
  | Some s => Js.map_set k (Js.set_add x s) m
  | None => m
  end.

(** [const s = m.get(k); if (s) s.delete(x)]. *)
Definition delete_from (k x : string) (m : Js.map Js.set) : Js.map Js.set :=
  match Js.map_get k m with
  | Some s => Js.map_set k (Js.set_delete x s) m
  | None => m
  end.

Definition ensure (k : string) (m : Js.map Js.set) : Js.map Js.set :=
  if Js.map_has k m then m else Js.map_set k [] m.

Definition addDependency (from to : string) (g : t) : t :=
  let deps := ensure from (dependencies g) in
  let dpts := ensure to (dependents g) in
  mk (add_to from to deps) (add_to to from dpts).

Definition removeDependencies (cell : string) (g : t) : t :=
  (* Remove all dependencies from this cell *)
  let g1 :=
    match Js.map_get cell (dependencies g) with
    | Some deps =>
        mk (Js.map_delete cell (dependencies g))
           (fold_left (fun m dep => delete_from dep cell m) deps (dependents g))
    | None => g
    end in
  (* Remove this cell from dependencies of its dependents *)
  match Js.map_get cell (dependents g1) with
  | Some dpts =>
      mk (fold_left (fun m dependent => delete_from dependent cell m) dpts
            (dependencies g1))
         (Js.map_delete cell (dependents g1))
  | None => g1
  end.

Definition getDependencies (cell : string) (g : t) : Js.set :=
  match Js.map_get cell (dependencies g) with Some s => s | None => [] end.

Definition getDependents (cell : string) (g : t) : Js.set :=
  match Js.map_get cell (dependents g) with Some s => s | None => [] end.

(** [for (const dep of deps) if (!visited.has(dep)) stack.push(dep)]; the
    stack is kept with its top at the head of the list. *)
Definition push_unvisited (visited : Js.set) (deps : Js.set)
  (stack : list string) : list string :=
  fold_left (fun st dep => if Js.set_has dep visited then st else dep :: st)
    deps stack.

(** The [while] loop of [hasCycle]. *)
Fixpoint hasCycle_loop (fuel : nat) (g : t) (from : string)
  (visited : Js.set) (stack : list string) : option bool :=
  match stack with
  | [] => Some false
  | current :: stack =>
      match fuel with
      | O => None
      | S fuel =>
          if String.eqb current from then Some true
          else if Js.set_has current visited then
                 hasCycle_loop fuel g from visited stack
          else
            let visited := Js.set_add current visited in
            let stack :=
              match Js.map_get current (dependencies g) with
              | Some deps => push_unvisited visited deps stack
              | None => stack
              end in
            hasCycle_loop fuel g from visited stack
      end
  end.

(** The number of stored dependency edges. *)
Definition edge_count (g : t) : nat :=
  fold_right (fun e n => (List.length (snd e) + n)%nat) 0%nat (dependencies g).

(** A round of the loop either pops an address that was visited, or visits
    one and pushes at most its dependencies: one more round than there are
    edges is never needed (see [hasCycle_returns]). *)
Definition hasCycle (from to : string) (g : t) : option bool :=
  hasCycle_loop (S (edge_count g)) g from [] [to].

(** [if (inDegree.has(dep)) inDegree.set(dep, inDegree.get(dep) + delta)] *)
Definition bump (delta : Z) (inDegree : Js.map Z) (dep : string) : Js.map Z :=
  match Js.map_get dep inDegree with
  | Some d => Js.map_set dep (d + delta) inDegree
  | None => inDegree
  end.

(** One round of the inner loop of the processing phase: the in-degree of
    [dep] is decremented and [dep] is queued when it reaches zero. *)
Definition release (st : Js.map Z * list string) (dep : string)
  : Js.map Z * list string :=
  let (inDegree, queue) := st in
  match Js.map_get dep inDegree with
  | Some d =>
      let newDegree := d - 1 in
      (Js.map_set dep newDegree inDegree,
       if newDegree =? 0 then queue ++ [dep] else queue)
  | None => st
  end.

(** The [while] loop of [getEvaluationOrder]; the queue has its front at the
    head of the list. *)
Fixpoint order_loop (fuel : nat) (g : t) (inDegree : Js.map Z)
  (queue result : list string) : option (list string) :=
  match queue with
  | [] => Some result
  | current :: queue =>
      match fuel with
      | O => None
      | S fuel =>
          let result := result ++ [current] in
          let (inDegree, queue) :=
            match Js.map_get current (dependencies g) with
            | Some deps => fold_left release deps (inDegree, queue)
            | None => (inDegree, queue)
            end in
          order_loop fuel g inDegree queue result
      end
  end.

(** The in-degrees before the queue is seeded. *)
Definition initial_degrees (cells : list string) (g : t) : Js.map Z :=
  let inDegree := fold_left (fun m cell => Js.map_set cell 0 m) cells [] in
  fold_left
    (fun m cell =>
       match Js.map_get cell (dependencies g) with
       | Some deps => fold_left (bump 1) deps m
       | None => m
       end)
    cells inDegree.

(** An address is queued at most once, so as many rounds as there are
    addresses are enough (see [getEvaluationOrder_returns]). *)
Definition getEvaluationOrder (cells : list string) (g : t)
  : option (list string) :=
  let inDegree := initial_degrees cells g in
  let queue := map fst (filter (fun e => snd e =? 0) inDegree) in
  order_loop (List.length inDegree) g inDegree queue [].

(** Membership of [x] in the set stored under [k]. *)
Definition member (m : Js.map Js.set) (k x : string) : bool :=
  match Js.map_get k m with
  | Some s => Js.set_has x s
  | None => false
  end.

(** [depends_on g a b]: [b] is in [dependencies[a]]. *)
Definition depends_on (g : t) (a b : string) : bool :=
  match Js.map_get a (dependencies g) with
  | Some s => Js.set_has b s
  | None => false
  end.

(** [dependent_of g b a]: [a] is in [dependents[b]]. *)
Definition dependent_of (g : t) (b a : string) : bool :=
  match Js.map_get b (dependents g) with
  | Some s => Js.set_has a s
  | None => false
  end.

Definition consistent (g : t) : Prop :=
  forall a b, depends_on g a b = dependent_of g b a.

(** [reaches g a b]: [b] is reached from [a] along dependency edges, in
    any number of steps, none included. *)
Inductive reaches (g : t) : string -> string -> Prop :=
| reaches_here (a : string) : reaches g a a
| reaches_step (a b c : string) :
    depends_on g a b = true -> reaches g b c -> reaches g a c.

(** The edges that leave an address not yet visited. *)
Definition unvisited_edges (g : t) (visited : Js.set) : nat :=
  fold_right
    (fun e n => ((if Js.set_has (fst e) visited then 0 else List.length (snd e)) + n)%nat)
    0%nat (dependencies g).

(** The graph with the single edge from A1 to B1. *)
Definition A1_reads_B1 : t := addDependency "A1" "B1" empty.

(** The addresses whose in-degree is positive: those that may still be
    queued. *)
Definition pending (inDegree : Js.map Z) : nat :=
  List.length (filter (fun e => 0 <? snd e) inDegree).

(** How many times [b] occurs in [l]. *)
Definition occurrences (b : string) (l : list string) : Z :=
  Z.of_nat (count_occ string_dec l b).

(** How many times the cells of [readers] read [b], all told. *)
Definition reads (g : t) (b : string) (readers : list string) : Z :=
  fold_right (fun a n => occurrences b (getDependencies a g) + n) 0 readers.

(** What the loop of [getEvaluationOrder] keeps true of its in-degrees
    [m], its queue [q] and its result [res]: no address is queued or emitted
    twice, a queued or emitted address has no in-degree left, and the
    addresses with an in-degree are cells of the set. *)
Definition settled (cells : list string) (m : Js.map Z) (q res : list string)
  : Prop :=
  NoDup (res ++ q)
  /\ (forall b, In b (res ++ q) -> exists d, Js.map_get b m = Some d /\ d <= 0)
  /\ (forall b d, Js.map_get b m = Some d -> In b cells).

(** [readers_first g cells order]: in [order], every address comes after all
    the cells of the set that read it. *)
Definition readers_first (g : t) (cells order : list string) : Prop :=
  forall pre b post a,
    order = pre ++ b :: post ->
    In a cells -> depends_on g a b = true -> In a pre.

(** One half of [removeDependencies]: the entry of [cell] is dropped from
    the map [src] and [cell] is deleted from the sets that [tgt] stores under
    the members of that entry. *)
Definition unlink (cell : string) (src tgt : Js.map Js.set) : Js.map Js.set * Js.map Js.set :=
  match Js.map_get cell src with
  | Some ks =>
      (Js.map_delete cell src, fold_left (fun m k => delete_from k cell m) ks tgt)
  | None => (src, tgt)
  end.

(** The calls a client can make on a graph. *)
Inductive call :=
| AddDependency (from to : string)
| RemoveDependencies (cell : string).

Definition perform (g : t) (c : call) : t :=
  match c with
  | AddDependency from to => addDependency from to g
  | RemoveDependencies cell => removeDependencies cell g
  end.

Definition run (cs : list call) : t := fold_left perform cs empty.

(** [acyclic g]: no address is reached from one of its own dependencies. *)
Definition acyclic (g : t) : Prop :=
  forall a b, depends_on g a b = true -> ~ reaches g b a.

(** [reads_through g cells a b]: [b] is reached from [a] in one step or more
    along dependency edges that leave cells of [cells]. *)
Inductive reads_through (g : t) (cells : list string)
  : string -> string -> Prop :=
| through_one (a b : string) :
    In a cells -> depends_on g a b = true -> reads_through g cells a b
| through_more (a b c : string) :
    In a cells -> depends_on g a b = true -> reads_through g cells b c ->
    reads_through g cells a c.

End DependencyGraph.

(** ** The formula engine *)

Module FormulaEngine.
Import Text Types.

(** *** The evaluation context

    Of the fields of [EvalContext], [sheet] is read only and [trace] is never
    written; [visited] is one mutable set shared by the whole evaluation of a
    cell.  A computation therefore takes the set and hands it back, whether it
    returns or throws. *)
Definition M (A : Type) : Type := Js.set -> outcome A * Js.set.

Definition ret {A} (a : A) : M A := fun visited => (Ok a, visited).

Definition throw {A} (message : string) : M A :=
  fun visited => (Throw message, visited).

Definition out_of_fuel {A} : M A := fun visited => (OutOfFuel, visited).

Definition bind {A B} (m : M A) (f : A -> M B) : M B :=
  fun visited =>
    match m visited with
    | (Ok a, visited) => f a visited
    | (Throw message, visited) => (Throw message, visited)
    | (OutOfFuel, visited) => (OutOfFuel, visited)
    end.

Notation "'let*' x ':=' m 'in' k" := (bind m (fun x => k))
  (at level 10, x pattern, m at level 100, k at level 200).

(** A computation that hands the visited set back as it received it. *)
Definition preserves {A} (m : M A) : Prop :=
  forall visited, snd (m visited) = visited.

(** A pure helper that may throw. *)
Definition lift {A} (x : outcome A) : M A := fun visited => (x, visited).

(** [for (const a of l) { out.push(f(a)) }] *)
Fixpoint for_each {A B} (f : A -> M B) (l : list A) : M (list B) :=
  match l with
  | [] => ret []
  | a :: r =>
      let* b := f a in
      let* bs := for_each f r in
      ret (b :: bs)
  end.

(** [for (const a of l) { acc = step(acc, a) }] *)
Fixpoint for_fold {A S} (step : S -> A -> M S) (l : list A) (acc : S) : M S :=
  match l with
  | [] => ret acc
  | a :: r => let* acc := step acc a in for_fold step r acc
  end.

(** *** Numbers *)

Definition of_length {A} (l : list A) : float :=
  PrimFloat.of_uint63 (Uint63.of_Z (Z.of_nat (List.length l))).

(** [Boolean(v)] *)
Definition truthy (v : CellValue) : bool :=
  match v with
  | VNumber n => negb (PrimFloat.eqb n 0 || PrimFloat.is_nan n)
  | VString s => negb (String.eqb s "")
  | VBoolean b => b
  | VNull => false
  | VArray _ => true
  end.

(** [a === b]; two arrays are two objects and never equal. *)
Definition strict_equal (a b : CellValue) : bool :=
  match a, b with
  | VNumber x, VNumber y => PrimFloat.eqb x y
  | VString x, VString y => String.eqb x y
  | VBoolean x, VBoolean y => Bool.eqb x y
  | VNull, VNull => true
  | _, _ => false
  end.

Definition upper_char (c : ascii) : ascii :=
  if between 97 122 c then fromCharCode (charCode c - 32) else c.

(** [name.toUpperCase()] on one-byte characters. *)
Fixpoint toUpperCase (s : string) : string :=
  match s with
  | EmptyString => EmptyString
  | String c r => String (upper_char c) (toUpperCase r)
  end.

(** [message.startsWith('CIRC:')] and [message.substring(5)] *)
Definition is_circular (message : string) : bool := prefix "CIRC:" message.

Definition substring_from (n : nat) (s : string) : string :=
  substring n (String.length s - n) s.

Section Host.

(** The two host functions the evaluator calls: [Number] on a string and
    [Math.pow]. *)
Variable Number : string -> float.
Variable pow : float -> float -> float.

Definition toNumber (value : CellValue) : float :=
  match value with
  | VNumber n => n
  | VString s => let num := Number s in if PrimFloat.is_nan num then 0%float else num
  | VBoolean b => if b then 1%float else 0%float
  | _ => 0%float
  end.

(** [value.filter(v => typeof v === 'number')] *)
Fixpoint numbers_of (values : list CellValue) : list float :=
  match values with
  | [] => []
  | VNumber n :: r => n :: numbers_of r
  | _ :: r => numbers_of r
  end.

Definition numeric_values (value : CellValue) : list float :=
  match value with
  | VArray values => numbers_of values
  | VNumber n => [n]
  | VString s => if negb (PrimFloat.is_nan (Number s)) then [Number s] else []
  | _ => []
  end.

Definition all_values (value : CellValue) : list CellValue :=
  match value with
  | VArray values => values
  | _ => [value]
  end.

(** [val !== null && val !== ''] *)
Definition counted (val : CellValue) : bool :=
  match val with
  | VNull => false
  | VString s => negb (String.eqb s "")
  | _ => true
  end.

(** [values.reduce((acc, val) => acc + val, 0)] *)
Definition total (values : list float) : float :=
  fold_left PrimFloat.add values 0%float.

Section Evaluation.

Variable sheet : Sheet.

(** The recursive call of [evaluateAst]. *)
Variable evaluateAst : FormulaAst -> M CellValue.

Definition evaluateCellRef (address : CellAddress) : M CellValue :=
  fun visited =>
    (* Check for cycles *)
    if Js.set_has address visited then
      (Throw ("CIRC:Circular reference detected: " ++ address)%string, visited)
    else
      match Js.map_get address (cells sheet) with
      | None => (Ok (VString ""), visited)
      | Some (LiteralCell v) => (Ok (of_literal v), visited)
      | Some (ErrorCell message _) => (Throw message, visited)
      | Some (FormulaCell _ ast) =>
          (* the address is added, and deleted again on both exits of [try] *)
          let (r, visited) := evaluateAst ast (Js.set_add address visited) in
          (r, Js.set_delete address visited)
      end.

Definition evaluateRange (start finish : CellAddress) : M (list CellValue) :=
  let* startParsed := lift (parseCellAddress start) in
  let* endParsed := lift (parseCellAddress finish) in
  for_each
    (fun rc : Z * Z =>
       let (row, col) := rc in
       let* cellAddr := lift (formatCellAddress col row) in
       evaluateCellRef cellAddr)
    (flat_map
       (fun row =>
          map (fun col => (row, col))
            (Codec.interval (fst startParsed) (fst endParsed)))
       (Codec.interval (snd startParsed) (snd endParsed))).

Definition getNumericValues (ast : FormulaAst) : M (list float) :=
  let* value := evaluateAst ast in ret (numeric_values value).

Definition getAllValues (ast : FormulaAst) : M (list CellValue) :=
  let* value := evaluateAst ast in ret (all_values value).

Definition evaluateSum (args : list FormulaAst) : M CellValue :=
  let* sum :=
    for_fold
      (fun sum arg =>
         let* values := getNumericValues arg in
         ret (PrimFloat.add sum (total values)))
      args 0%float in
  ret (VNumber sum).

Definition evaluateAverage (args : list FormulaAst) : M CellValue :=
  let* sc :=
    for_fold
      (fun (sc : float * float) arg =>
         let* values := getNumericValues arg in
         ret (PrimFloat.add (fst sc) (total values),
              PrimFloat.add (snd sc) (of_length values)))
      args (0%float, 0%float) in
  let (sum, count) := sc in
  ret (VNumber (if PrimFloat.ltb 0 count then PrimFloat.div sum count
                else 0%float)).

Definition evaluateMin (args : list FormulaAst) : M CellValue :=
  let* min :=
    for_fold
      (fun min arg =>
         let* values := getNumericValues arg in
         ret (fold_left
                (fun min val => if PrimFloat.ltb val min then val else min)
                values min))
      args infinity in
  ret (VNumber (if PrimFloat.eqb min infinity then 0%float else min)).

Definition evaluateMax (args : list FormulaAst) : M CellValue :=
  let* max :=
    for_fold
      (fun max arg =>
         let* values := getNumericValues arg in
         ret (fold_left
                (fun max val => if PrimFloat.ltb max val then val else max)
                values max))
      args neg_infinity in
  ret (VNumber (if PrimFloat.eqb max neg_infinity then 0%float else max)).

Definition evaluateCount (args : list FormulaAst) : M CellValue :=
  let* count :=
    for_fold
      (fun count arg =>
         let* values := getAllValues arg in
         ret (PrimFloat.add count (of_length (filter counted values))))
      args 0%float in
  ret (VNumber count).

Definition evaluateIf (args : list FormulaAst) : M CellValue :=
  match args with
  | [condition; thenArg] | [condition; thenArg; _] =>
      let* condition := evaluateAst condition in
      let isTruthy :=
        truthy condition
        && negb (strict_equal condition (VNumber 0))
        && negb (strict_equal condition (VString "")) in
      if isTruthy then evaluateAst thenArg
      else
        match args with
        | [_; _; elseArg] => evaluateAst elseArg
        | _ => ret (VBoolean false)
        end
  | _ => throw "IF function requires 2 or 3 arguments"
  end.

Definition evaluateFunction (name : string) (args : list FormulaAst)
  : M CellValue :=
  let upperName := toUpperCase name in
  if String.eqb upperName "SUM" then evaluateSum args
  else if String.eqb upperName "AVERAGE" || String.eqb upperName "AVG"
       then evaluateAverage args
  else if String.eqb upperName "MIN" then evaluateMin args
  else if String.eqb upperName "MAX" then evaluateMax args
  else if String.eqb upperName "COUNT" then evaluateCount args
  else if String.eqb upperName "IF" then evaluateIf args
  else throw ("Unknown function: " ++ name)%string.

Definition evaluateBinaryOp (op : string) (left right : FormulaAst)
  : M CellValue :=
  let* leftVal := evaluateAst left in
  let* rightVal := evaluateAst right in
  let leftNum := toNumber leftVal in
  let rightNum := toNumber rightVal in
  (* Arithmetic operations *)
  if String.eqb op "+" then ret (VNumber (PrimFloat.add leftNum rightNum))
  else if String.eqb op "-" then ret (VNumber (PrimFloat.sub leftNum rightNum))
  else if String.eqb op "*" then ret (VNumber (PrimFloat.mul leftNum rightNum))
  else if String.eqb op "/" then
         if PrimFloat.eqb rightNum 0 then throw "Division by zero"
         else ret (VNumber (PrimFloat.div leftNum rightNum))
  else if String.eqb op "^" then ret (VNumber (pow leftNum rightNum))
  (* Comparison operations *)
  else if String.eqb op "=" then ret (VBoolean (strict_equal leftVal rightVal))
  else if String.eqb op "<>" then
         ret (VBoolean (negb (strict_equal leftVal rightVal)))
  else if String.eqb op "<" then ret (VBoolean (PrimFloat.ltb leftNum rightNum))
  else if String.eqb op "<=" then ret (VBoolean (PrimFloat.leb leftNum rightNum))
  else if String.eqb op ">" then ret (VBoolean (PrimFloat.ltb rightNum leftNum))
  else if String.eqb op ">=" then ret (VBoolean (PrimFloat.leb rightNum leftNum))
  else throw ("Unknown binary operator: " ++ op)%string.

Definition evaluateUnaryOp (op : string) (operand : FormulaAst) : M CellValue :=
  let* operand := evaluateAst operand in
  let number := match operand with VNumber n => Some n | _ => None end in
  if String.eqb op "-" then
    ret (VNumber (match number with Some n => PrimFloat.opp n | None => 0%float end))
  else if String.eqb op "+" then
    ret (VNumber (match number with Some n => n | None => 0%float end))
  else throw ("Unknown unary operator: " ++ op)%string.

End Evaluation.

(** Every call of [evaluateAst] takes one unit of fuel. *)
Fixpoint evaluateAst (fuel : nat) (sheet : Sheet) (ast : FormulaAst)
  : M CellValue :=
  match fuel with
  | O => out_of_fuel
  | S fuel =>
      let self := evaluateAst fuel sheet in
      match ast with
      | NumberLiteral value => ret (VNumber value)
      | StringLiteral value => ret (VString value)
      | BooleanLiteral value => ret (VBoolean value)
      | CellRef address _ _ => evaluateCellRef sheet self address
      | RangeRef start finish =>
          let* values := evaluateRange sheet self start finish in
          ret (VArray values)
      | FunctionCall name args => evaluateFunction self name args
      | BinaryOp op lhs rhs => evaluateBinaryOp self op lhs rhs
      | UnaryOp op operand => evaluateUnaryOp self op operand
      end
  end.

Definition createError (code : ErrorCode) (message : string) : EvalError :=
  mkError code message.

(** [None] when the fuel is spent. *)
Definition evaluateCell (fuel : nat) (sheet : Sheet) (address : CellAddress)
  : option EvalResult :=
  match Js.map_get address (cells sheet) with
  | None => Some (mkResult (VString "") None)
  | Some (LiteralCell v) => Some (mkResult (of_literal v) None)
  | Some (ErrorCell message code) =>
      Some (mkResult VNull (Some (mkError code message)))
  | Some (FormulaCell _ ast) =>
      match fst (evaluateAst fuel sheet ast [address]) with
      | Ok value => Some (mkResult value None)
      | Throw errorMessage =>
          (* Check if it's a circular reference error *)
          if is_circular errorMessage then
            Some (mkResult VNull
                    (Some (createError CYCLE (substring_from 5 errorMessage))))
          else
            Some (mkResult VNull (Some (createError PARSE errorMessage)))
      | OutOfFuel => None
      end
  end.

End Host.

(** *** Where evaluation comes to a cell that is being evaluated *)

Section Reach.

Variable Number : string -> float.
Variable pow : float -> float -> float.
Variable sheet : Sheet.

(** [gives visited ast value]: evaluated from the visited set [visited], the
    tree [ast] returns [value]. *)
Definition gives (visited : Js.set) (ast : FormulaAst) (value : CellValue)
  : Prop :=
  exists fuel, fst (evaluateAst Number pow fuel sheet ast visited) = Ok value.

(** [isTruthy] in [evaluateIf]. *)
Definition taken (condition : CellValue) : bool :=
  truthy condition
  && negb (strict_equal condition (VNumber 0))
  && negb (strict_equal condition (VString "")).

(** The cells of a range in the order in which [evaluateRange] runs through
    them, row by row, each as its row and its column. *)
Definition range_cells (startParsed endParsed : Z * Z) : list (Z * Z) :=
  flat_map
    (fun row =>
       map (fun col => (row, col))
         (Codec.interval (fst startParsed) (fst endParsed)))
    (Codec.interval (snd startParsed) (snd endParsed)).

(** [leads visited ast b]: the evaluation of [ast] from the visited set
    [visited] comes to a reference to [b], an address of the visited set,
    and everything it evaluates before that reference returns a value.
    Evaluation goes in the order of the source: a reference to a formula
    cell goes into the formula of that cell with the cell added to the
    visited set; a range goes through its cells row by row; a binary
    operator evaluates its left operand and then its right one; an
    aggregate evaluates its arguments from first to last; an IF of two or
    three arguments evaluates its condition and then the branch that the
    condition selects, and never the other. *)
Inductive leads : Js.set -> FormulaAst -> CellAddress -> Prop :=
| leads_ref (visited : Js.set) (b : CellAddress) (c r : bool) :
    Js.set_has b visited = true -> leads visited (CellRef b c r) b
| leads_through (visited : Js.set) (a : CellAddress) (c r : bool)
    (src : string) (ast : FormulaAst) (b : CellAddress) :
    Js.set_has a visited = false ->
    Js.map_get a (cells sheet) = Some (FormulaCell src ast) ->
    leads (Js.set_add a visited) ast b -> leads visited (CellRef a c r) b
| leads_range (visited : Js.set) (start finish : CellAddress)
    (startParsed endParsed : Z * Z) (before after : list (Z * Z))
    (row col : Z) (cellAddr b : CellAddress) :
    parseCellAddress start = Ok startParsed ->
    parseCellAddress finish = Ok endParsed ->
    range_cells startParsed endParsed = before ++ (row, col) :: after ->
    (forall r c, In (r, c) before ->
       exists address value,
         formatCellAddress c r = Ok address
         /\ gives visited (CellRef address false false) value) ->
    formatCellAddress col row = Ok cellAddr ->
    leads visited (CellRef cellAddr false false) b ->
    leads visited (RangeRef start finish) b
| leads_unary (visited : Js.set) (op : string) (operand : FormulaAst)
    (b : CellAddress) :
    leads visited operand b -> leads visited (UnaryOp op operand) b
| leads_left (visited : Js.set) (op : string) (lhs rhs : FormulaAst)
    (b : CellAddress) :
    leads visited lhs b -> leads visited (BinaryOp op lhs rhs) b
| leads_right (visited : Js.set) (op : string) (lhs rhs : FormulaAst)
    (value : CellValue) (b : CellAddress) :
    gives visited lhs value ->
    leads visited rhs b -> leads visited (BinaryOp op lhs rhs) b
| leads_argument (visited : Js.set) (name : string)
    (before : list FormulaAst) (arg : FormulaAst) (after : list FormulaAst)
    (b : CellAddress) :
    In (toUpperCase name) ["SUM"; "AVERAGE"; "AVG"; "MIN"; "MAX"; "COUNT"] ->
    (forall earlier, In earlier before ->
       exists value, gives visited earlier value) ->
    leads visited arg b ->
    leads visited (FunctionCall name (before ++ arg :: after)) b
| leads_condition (visited : Js.set) (name : string)
    (condition thenArg : FormulaAst) (rest : list FormulaAst)
    (b : CellAddress) :
    toUpperCase name = "IF" -> (List.length rest <= 1)%nat ->
    leads visited condition b ->
    leads visited (FunctionCall name (condition :: thenArg :: rest)) b
| leads_then (visited : Js.set) (name : string)
    (condition thenArg : FormulaAst) (rest : list FormulaAst)
    (value : CellValue) (b : CellAddress) :
    toUpperCase name = "IF" -> (List.length rest <= 1)%nat ->
    gives visited condition value -> taken value = true ->
    leads visited thenArg b ->
    leads visited (FunctionCall name (condition :: thenArg :: rest)) b
| leads_else (visited : Js.set) (name : string)
    (condition thenArg elseArg : FormulaAst)
    (value : CellValue) (b : CellAddress) :
    toUpperCase name = "IF" ->
    gives visited condition value -> taken value = false ->
    leads visited elseArg b ->
    leads visited (FunctionCall name [condition; thenArg; elseArg]) b.

End Reach.

(** The result that reports a circular reference met at [address]. *)
Definition cycle_error (address : CellAddress) : EvalResult :=
  mkResult VNull
    (Some (mkError CYCLE ("Circular reference detected: " ++ address)%string)).

(** *** Dependency extraction and recalculation *)

(** [s.charCodeAt(0) - 65], [NaN] on the empty string. *)
Definition column_code (s : string) : option Z :=
  match s with
  | String c _ => Some (charCode c - 65)
  | EmptyString => None
  end.

(** [parseInt(s.slice(1)) - 1] *)
Definition row_code (s : string) : option Z :=
  match parseInt (substring_from 1 s) with
  | Some n => Some (n - 1)
  | None => None
  end.

(** The addresses the two loops over a range run through, column by column;
    a loop whose bound is [NaN] has no round. *)
Definition range_addresses (start finish : CellAddress) : list CellAddress :=
  match column_code start, row_code start, column_code finish, row_code finish with
  | Some startCol, Some startRow, Some endCol, Some endRow =>
      flat_map
        (fun col =>
           map (fun row =>
                  String (fromCharCode (65 + col)) (toString (row + 1)))
             (Codec.interval startRow endRow))
        (Codec.interval startCol endCol)
  | _, _, _, _ => []
  end.

Fixpoint extractDependencies (ast : FormulaAst) (fromCell : CellAddress)
  (g : DependencyGraph.t) : DependencyGraph.t :=
  match ast with
  | CellRef address _ _ => DependencyGraph.addDependency fromCell address g
  | RangeRef start finish =>
      fold_left (fun g cellAddr => DependencyGraph.addDependency fromCell cellAddr g)
        (range_addresses start finish) g
  | BinaryOp _ lhs rhs =>
      extractDependencies rhs fromCell (extractDependencies lhs fromCell g)
  | UnaryOp _ operand => extractDependencies operand fromCell g
  | FunctionCall _ args =>
      (fix each (args : list FormulaAst) (g : DependencyGraph.t) :=
         match args with
         | [] => g
         | arg :: args => each args (extractDependencies arg fromCell g)
         end) args g
  | _ => g
  end.

(** The addresses that [extractDependencies] passes to [addDependency], in
    the order of the calls. *)
Fixpoint extracted (ast : FormulaAst) : list CellAddress :=
  match ast with
  | CellRef address _ _ => [address]
  | RangeRef start finish => range_addresses start finish
  | BinaryOp _ lhs rhs => extracted lhs ++ extracted rhs
  | UnaryOp _ operand => extracted operand
  | FunctionCall _ args =>
      (fix each (args : list FormulaAst) : list CellAddress :=
         match args with
         | [] => []
         | arg :: args => extracted arg ++ each args
         end) args
  | _ => []
  end.

(** The addresses a tree refers to, whatever [extractDependencies] does with
    them: the address that each reference holds, and for each range the cells
    of the rectangle between its corners, which is what the codec's
    [getCellsInRange] lists (for corners in any column, with or without
    dollar signs, in either order). *)
Fixpoint references (ast : FormulaAst) : list CellAddress :=
  match ast with
  | CellRef address _ _ => [address]
  | RangeRef start finish =>
      match Codec.getCellsInRange start finish with
      | Ok cells => cells
      | _ => []
      end
  | BinaryOp _ lhs rhs => references lhs ++ references rhs
  | UnaryOp _ operand => references operand
  | FunctionCall _ args =>
      (fix each (args : list FormulaAst) : list CellAddress :=
         match args with
         | [] => []
         | arg :: args => references arg ++ each args
         end) args
  | _ => []
  end.

(** A range is plain when both corners are addresses without a dollar sign
    in the columns A to Z, the first corner is not after the second on either
    axis, and the rows are below [MAX_SAFE_INTEGER]. *)
Definition plain_range (start finish : CellAddress) : bool :=
  match Codec.parseAddress start, Codec.parseAddress finish with
  | Ok a, Ok b =>
      negb (Codec.absoluteCol a) && negb (Codec.absoluteRow a)
      && negb (Codec.absoluteCol b) && negb (Codec.absoluteRow b)
      && (Codec.col a <=? Codec.col b) && (Codec.col b <=? 25)
      && (Codec.row a <=? Codec.row b) && (Codec.row b <? MAX_SAFE_INTEGER)
  | _, _ => false
  end.

(** Every range of the tree is plain. *)
Fixpoint plain_ranges (ast : FormulaAst) : bool :=
  match ast with
  | RangeRef start finish => plain_range start finish
  | BinaryOp _ lhs rhs => plain_ranges lhs && plain_ranges rhs
  | UnaryOp _ operand => plain_ranges operand
  | FunctionCall _ args =>
      (fix each (args : list FormulaAst) : bool :=
         match args with
         | [] => true
         | arg :: args => plain_ranges arg && each args
         end) args
  | _ => true
  end.

(** After the old edges of [address] are dropped and while its new ones are
    added, [dependents[address]] is absent, or it holds [address] alone and
    [address] is then one of its own dependencies. *)
Definition only_itself (address : string) (g : DependencyGraph.t) : Prop :=
  Js.map_get address (DependencyGraph.dependents g) = None
  \/ (Js.map_get address (DependencyGraph.dependents g) = Some [address]
      /\ DependencyGraph.depends_on g address address = true).

Section Engine.

Variable Number : string -> float.
Variable pow : float -> float -> float.

(** The formula cells of the sheet, in the order of [Object.entries]. *)
Definition formula_cells (sheet : Sheet) : list (CellAddress * FormulaAst) :=
  flat_map
    (fun e : string * Cell =>
       match snd e with
       | FormulaCell _ ast => [(fst e, ast)]
       | _ => []
       end)
    (cells sheet).

(** [results.set(address, this.evaluateCell(sheet, address))] for every
    address of the order. *)
Fixpoint evaluate_all (fuel : nat) (sheet : Sheet) (order : list CellAddress)
  (results : Js.map EvalResult) : option (Js.map EvalResult) :=
  match order with
  | [] => Some results
  | address :: order =>
      match evaluateCell Number pow fuel sheet address with
      | Some result =>
          evaluate_all fuel sheet order (Js.map_set address result results)
      | None => None
      end
  end.

(** [refers sheet a b]: [a] is a formula cell of the sheet and its tree
    refers to [b].  [refers_through] follows one such step or more. *)
Definition refers (sheet : Sheet) (a b : CellAddress) : Prop :=
  exists ast, In (a, ast) (formula_cells sheet) /\ In b (references ast).

Inductive refers_through (sheet : Sheet) : CellAddress -> CellAddress -> Prop :=
| refers_once (a b : CellAddress) :
    refers sheet a b -> refers_through sheet a b
| refers_more (a b c : CellAddress) :
    refers sheet a b -> refers_through sheet b c -> refers_through sheet a c.

(** [evaluateSheet] returns the results; the graph it leaves in the engine is
    returned with them. *)
Definition evaluateSheet (fuel : nat) (sheet : Sheet)
  : option (Js.map EvalResult * DependencyGraph.t) :=
  (* 1. Build dependency graph *)
  let depGraph :=
    fold_left (fun g e => extractDependencies (snd e) (fst e) g)
      (formula_cells sheet) DependencyGraph.empty in
  let formulaCells := map fst (formula_cells sheet) in
  (* 2. Get topological order *)
  match DependencyGraph.getEvaluationOrder formulaCells depGraph with
  | Some evaluationOrder =>
      (* 3. Evaluate in order *)
      match evaluate_all fuel sheet evaluationOrder [] with
      | Some results => Some (results, depGraph)
      | None => None
      end
  | None => None
  end.

(** What a call of [updateCell] does: the sheet it returns, the graph it
    leaves in the engine, and the addresses it calls [evaluateCell] on, in
    order, each with the result of that call (which the source drops). *)
Record Update := mkUpdate
  { newSheet : Sheet;
    newGraph : DependencyGraph.t;
    recalculated : list (CellAddress * EvalResult) }.

Fixpoint recalculate (fuel : nat) (sheet : Sheet) (order : list CellAddress)
  : option (list (CellAddress * EvalResult)) :=
  match order with
  | [] => Some []
  | address :: order =>
      match evaluateCell Number pow fuel sheet address,
            recalculate fuel sheet order with
      | Some result, Some rest => Some ((address, result) :: rest)
      | _, _ => None
      end
  end.

Definition updateCell (fuel : nat) (depGraph : DependencyGraph.t)
  (sheet : Sheet) (address : CellAddress) (cell : Cell) : option Update :=
  (* 1. Update cell in sheet *)
  let newSheet :=
    mkSheet (id sheet) (name sheet) (rows sheet) (cols sheet)
      (Js.map_set address cell (cells sheet)) in
  (* 2. Update dependency graph *)
  let depGraph := DependencyGraph.removeDependencies address depGraph in
  let depGraph :=
    match cell with
    | FormulaCell _ ast => extractDependencies ast address depGraph
    | _ => depGraph
    end in
  (* 3. Find affected cells (dependents) *)
  let toRecalculate := DependencyGraph.getDependents address depGraph in
  (* 4. Recalculate in dependency order *)
  match toRecalculate with
  | [] => Some (mkUpdate newSheet depGraph [])
  | _ =>
      match DependencyGraph.getEvaluationOrder toRecalculate depGraph with
      | Some evaluationOrder =>
          match recalculate fuel newSheet evaluationOrder with
          | Some done => Some (mkUpdate newSheet depGraph done)
          | None => None
          end
      | None => None
      end
  end.

End Engine.

(** *** Fuel *)

(** [returns m visited]: the computation does not run out of fuel from
    [visited]. *)
Definition returns {A} (m : M A) (visited : Js.set) : Prop :=
  fst (m visited) <> OutOfFuel.

(** [refines m m']: [m'] answers as [m] wherever [m] does not run out of
    fuel. *)
Definition refines {A} (m m' : M A) : Prop :=
  forall visited, returns m visited -> m' visited = m visited.

(** The height of a tree: the calls of [evaluateAst] nested in one
    another when it is evaluated, references not followed. *)
Fixpoint depth (ast : FormulaAst) : nat :=
  match ast with
  | FunctionCall _ args =>
      S ((fix deepest (args : list FormulaAst) : nat :=
            match args with
            | [] => 0
            | arg :: args => Nat.max (depth arg) (deepest args)
            end) args)
  | BinaryOp _ lhs rhs => S (Nat.max (depth lhs) (depth rhs))
  | UnaryOp _ operand => S (depth operand)
  | _ => 1
  end%nat.

(** The height of the highest formula of the sheet. *)
Definition deepest (sheet : Sheet) : nat :=
  fold_right (fun e n => Nat.max (depth (snd e)) n) 0%nat (formula_cells sheet).

(** The formula cells whose address is not in the visited set. *)
Definition unvisited (sheet : Sheet) (visited : Js.set) : nat :=
  List.length
    (filter (fun e => negb (Js.set_has (fst e) visited)) (formula_cells sheet)).

(** Fuel enough to evaluate any cell of the sheet: every formula cell is
    entered at most once on the way down, see [evaluateCell_terminates]. *)
Definition enough (sheet : Sheet) : nat :=
  (S (deepest sheet) * S (List.length (formula_cells sheet)))%nat.

End FormulaEngine.

(** ** The grid component: its reducer, its address helpers and its keys *)

Module Grid.
Import Text Types.

Record GridState := mkState
  { selectedCell : option CellAddress;
    isEditing : bool;
    editingValue : string }.

(** A [value] left out of [START_EDIT] is [None]. *)
Inductive GridAction :=
| SELECT_CELL (address : CellAddress)
| START_EDIT (address : CellAddress) (value : option string)
| UPDATE_EDIT_VALUE (value : string)
| COMMIT_EDIT
| CANCEL_EDIT
| NAVIGATE (direction : string).

Definition gridReducer (state : GridState) (action : GridAction) : GridState :=
  match action with
  | SELECT_CELL address => mkState (Some address) false ""
  | START_EDIT address value =>
      mkState (Some address) true
        (match value with Some v => v | None => "" end)
  | UPDATE_EDIT_VALUE value =>
      mkState (selectedCell state) (isEditing state) value
  | COMMIT_EDIT => mkState (selectedCell state) false ""
  | CANCEL_EDIT => mkState (selectedCell state) false ""
  | NAVIGATE _ => state
  end.

(** The state that [useReducer] starts from. *)
Definition initial : GridState := mkState (Some "A1") false "".

(** The component's own [parseAddress]: capitals followed by digits and
    nothing else, and column 0, row 0 for any other string. *)
Definition parseAddress (addr : CellAddress) : Z * Z :=
  let (colStr, rowStr) := span is_upper addr in
  match colStr, rowStr with
  | String _ _, String _ _ =>
      if all_chars is_digit rowStr
      then (letters_value colStr - 1, digits_value rowStr - 1)
      else (0, 0)
  | _, _ => (0, 0)
  end.

(** [while (c >= 0) { colStr = letter + colStr; c = Math.floor(c / 26) - 1 }] *)
Fixpoint column_loop (fuel : nat) (c : Z) (colStr : string) : string :=
  match fuel with
  | O => colStr
  | S fuel' =>
      if 0 <=? c then
        column_loop fuel' (c / 26 - 1)
          (String (fromCharCode (65 + c mod 26)) colStr)
      else colStr
  end.

(** The component's own [formatAddress]; the fuel is that of
    [letters_loop], one round of which is one round of this loop. *)
Definition formatAddress (col row : Z) : outcome CellAddress :=
  let colStr := column_loop (letters_fuel (col + 1)) col "" in
  toCellAddress (colStr ++ toString (row + 1))%string.

Section Keys.

(** [String(value)] on the value of a literal cell. *)
Variable String_of : LiteralValue -> string.

Variable sheet : Sheet.

(** What [handleStartEdit] dispatches. *)
Definition handleStartEdit (address : CellAddress) : GridAction :=
  let value :=
    match Js.map_get address (cells sheet) with
    | Some (FormulaCell src _) => src
    | Some (LiteralCell value) => String_of value
    | _ => ""
    end in
  START_EDIT address (Some value).

(** [dispatch({ type: 'SELECT_CELL', address: formatAddress(col, row) })] *)
Definition select (col row : Z) : outcome (list GridAction) :=
  bind_outcome (formatAddress col row) (fun newAddr => Ok [SELECT_CELL newAddr]).

(** [handleKeyDown]: the actions dispatched for a key, in order.  A
    selection that is [null] or the empty string is no selection; the call
    of [preventDefault] is left out. *)
Definition handleKeyDown (state : GridState) (key : string) (shiftKey : bool)
  : outcome (list GridAction) :=
  match selectedCell state with
  | None => Ok []
  | Some selected =>
      if String.eqb selected "" then Ok [] else
      let (col, row) := parseAddress selected in
      if isEditing state then Ok []
      else if String.eqb key "ArrowUp" then
        if 0 <? row then select col (row - 1) else Ok []
      else if String.eqb key "ArrowDown" then
        if row <? rows sheet - 1 then select col (row + 1) else Ok []
      else if String.eqb key "ArrowLeft" then
        if 0 <? col then select (col - 1) row else Ok []
      else if String.eqb key "ArrowRight" then
        if col <? cols sheet - 1 then select (col + 1) row else Ok []
      else if String.eqb key "Tab" then
        if shiftKey then
          if 0 <? col then select (col - 1) row else Ok []
        else
          if col <? cols sheet - 1 then select (col + 1) row else Ok []
      else if String.eqb key "Enter" then
        if row <? rows sheet - 1 then select col (row + 1) else Ok []
      else if String.eqb key "Home" then select 0 row
      else if String.eqb key "End" then select (cols sheet - 1) row
      else if String.eqb key "F2" then Ok [handleStartEdit selected]
      else if String.eqb key "Escape" then Ok [SELECT_CELL selected]
      else Ok []
  end.

(** One key pressed: the reducer takes the actions dispatched, in order. *)
Definition press (state : GridState) (key : string * bool) : outcome GridState :=
  bind_outcome (handleKeyDown state (fst key) (snd key)) (fun actions =>
  Ok (fold_left gridReducer actions state)).

Fixpoint presses (state : GridState) (keys : list (string * bool))
  : outcome GridState :=
  match keys with
  | [] => Ok state
  | key :: rest => bind_outcome (press state key) (fun s => presses s rest)
  end.

(** A state whose selection is a plain address inside the sheet. *)
Definition inside (state : GridState) : Prop :=
  exists c r,
    selectedCell state = Some (Codec.written c r false false)
    /\ 0 <= c < cols sheet /\ 0 <= r < rows sheet.

End Keys.

(** The key that stands for a direction of [getNeighbor]. *)
Definition arrow (direction : Codec.Direction) : string :=
  match direction with
  | Codec.Up => "ArrowUp"
  | Codec.Down => "ArrowDown"
  | Codec.Left => "ArrowLeft"
  | Codec.Right => "ArrowRight"
  end.

End Grid.

(** ** Concrete sheets used by the examples *)

Module Examples.
Import Types Codec DependencyGraph FormulaEngine.

Definition sheet_of (cs : Js.map Cell) : Sheet := mkSheet "sheet" "Sheet" 20 10 cs.

Definition number (n : float) : Cell := LiteralCell (LNumber n).

(** The double quote, for formula texts that hold a string literal. *)
Definition dq : string := String (Text.fromCharCode 34) "".

Definition one_over_zero : FormulaAst :=
  BinaryOp "/" (NumberLiteral 1) (NumberLiteral 0).

Definition if_one_over_zero : FormulaAst :=
  FunctionCall "IF" [one_over_zero; StringLiteral "x"; StringLiteral "y"].

Definition if_one_over_zero_src : string :=
  ("=IF(1/0," ++ dq ++ "x" ++ dq ++ "," ++ dq ++ "y" ++ dq ++ ")")%string.

Definition sum_A1_A2 : FormulaAst := FunctionCall "SUM" [RangeRef "A1" "A2"].

(** A1 = 1, A2 = 2, A3 = SUM(A1:A2), and an unrelated formula in B1. *)
Definition ledger : Sheet :=
  sheet_of [("A1", number 1); ("A2", number 2);
            ("A3", FormulaCell "=SUM(A1:A2)" sum_A1_A2);
            ("B1", FormulaCell "=1+1" (BinaryOp "+" (NumberLiteral 1) (NumberLiteral 1)))].

(** A3 reads A2, A2 reads A1. *)
Definition chain : DependencyGraph.t :=
  addDependency "A2" "A1" (addDependency "A3" "A2" empty).

(** Four numbers in A1:B2. *)
Definition square : Sheet :=
  sheet_of [("A1", number 1); ("A2", number 2); ("B1", number 3); ("B2", number 4)].

(** The examples call neither [Number] nor [Math.pow]; these stand for the
    two host functions where a closed statement needs them. *)
Definition no_Number : string -> float := fun _ => nan.
Definition no_pow : float -> float -> float := fun _ _ => nan.

Definition ref (address : CellAddress) : FormulaAst := CellRef address false false.

(** A1 = A1. *)
Definition self_reference : Sheet := sheet_of [("A1", FormulaCell "=A1" (ref "A1"))].

(** A1 = B1, B1 = C1, C1 = A1. *)
Definition triangle : Sheet :=
  sheet_of [("A1", FormulaCell "=B1" (ref "B1"));
            ("B1", FormulaCell "=C1" (ref "C1"));
            ("C1", FormulaCell "=A1" (ref "A1"))].

(** A1 = B1 + C1 where B1 and C1 both read D1 = 5. *)
Definition diamond : Sheet :=
  sheet_of [("A1", FormulaCell "=B1+C1" (BinaryOp "+" (ref "B1") (ref "C1")));
            ("B1", FormulaCell "=D1" (ref "D1"));
            ("C1", FormulaCell "=D1" (ref "D1"));
            ("D1", number 5)].

(** A1 = IF(1, 2, A1): the reference of A1 to itself is in the branch that
    is not taken. *)
Definition if_self : FormulaAst :=
  FunctionCall "IF" [NumberLiteral 1; NumberLiteral 2; ref "A1"].

Definition guarded_self_reference : Sheet :=
  sheet_of [("A1", FormulaCell "=IF(1,2,A1)" if_self)].

(** A1 = 1 + A1: the reference is the right operand. *)
Definition one_plus_self : Sheet :=
  sheet_of [("A1", FormulaCell "=1+A1"
                     (BinaryOp "+" (NumberLiteral 1) (ref "A1")))].

(** A1 = SUM(1, A1): the reference is the second argument. *)
Definition sum_with_self : Sheet :=
  sheet_of [("A1", FormulaCell "=SUM(1,A1)"
                     (FunctionCall "SUM" [NumberLiteral 1; ref "A1"]))].

(** A3 = SUM(A1:A3): the cell is the last one of the range. *)
Definition sum_over_self : Sheet :=
  sheet_of [("A3", FormulaCell "=SUM(A1:A3)"
                     (FunctionCall "SUM" [RangeRef "A1" "A3"]))].

(** A1 = IF(0, 1, A1): the reference is in the branch that is taken. *)
Definition else_self : Sheet :=
  sheet_of [("A1", FormulaCell "=IF(0,1,A1)"
                     (FunctionCall "IF"
                        [NumberLiteral 0; NumberLiteral 1; ref "A1"]))].

(** A1 = 1/0 + A1: the division throws before the reference is evaluated. *)
Definition division_first : Sheet :=
  sheet_of [("A1", FormulaCell "=1/0+A1" (BinaryOp "+" one_over_zero (ref "A1")))].

(** A1 = 1 + B1, B1 = SUM(2, C1:C2), C1 = 3, C2 = IF(0, 1, A1). *)
Definition round_about : Sheet :=
  sheet_of [("A1", FormulaCell "=1+B1" (BinaryOp "+" (NumberLiteral 1) (ref "B1")));
            ("B1", FormulaCell "=SUM(2,C1:C2)"
                     (FunctionCall "SUM" [NumberLiteral 2; RangeRef "C1" "C2"]));
            ("C1", number 3);
            ("C2", FormulaCell "=IF(0,1,A1)"
                     (FunctionCall "IF"
                        [NumberLiteral 0; NumberLiteral 1; ref "A1"]))].

(** The graph that [evaluateSheet] builds for [ledger]. *)
Definition ledger_graph : DependencyGraph.t :=
  DependencyGraph.mk [("A3", ["A1"; "A2"])] [("A1", ["A3"]); ("A2", ["A3"])].

(** [ledger] after A1 is set to 10. *)
Definition ledger_edited : Sheet :=
  sheet_of [("A1", number 10); ("A2", number 2);
            ("A3", FormulaCell "=SUM(A1:A2)" sum_A1_A2);
            ("B1", FormulaCell "=1+1" (BinaryOp "+" (NumberLiteral 1) (NumberLiteral 1)))].

(** A sheet without cells. *)
Definition blank : Sheet := sheet_of [].

(** A1 = 1, A2 = 2, A3 = SUM(A1:A2), and B1 = B2 + 1 with B2 = B1. *)
Definition books : Sheet :=
  sheet_of [("A1", number 1); ("A2", number 2);
            ("A3", FormulaCell "=SUM(A1:A2)" sum_A1_A2);
            ("B1", FormulaCell "=B2+1" (BinaryOp "+" (ref "B2") (NumberLiteral 1)));
            ("B2", FormulaCell "=B1" (ref "B1"))].

(** A3 = SUM(A1:A2) where A1 and A2 hold nothing. *)
Definition sum_of_nothing : Sheet :=
  sheet_of [("A3", FormulaCell "=SUM(A1:A2)" sum_A1_A2)].

End Examples.

(** ** Theorems *)

Module JsFacts.
Import Js.

Lemma set_has_In x s : set_has x s = true <-> In x s.
Proof.
  unfold set_has. rewrite existsb_exists. split.
  - intros [y [Hy E]]. apply String.eqb_eq in E. now subst.
  - intros H. exists x. split; [assumption | apply String.eqb_refl].
Qed.

Lemma set_has_add x y s :
  set_has x (set_add y s) = (String.eqb x y || set_has x s)%bool.
Proof.
  unfold set_add. destruct (set_has y s) eqn:E.
  - destruct (String.eqb_spec x y) as [->|]; [now rewrite E | reflexivity].
  - unfold set_has. rewrite existsb_app. simpl.
    rewrite orb_false_r. apply orb_comm.
Qed.

Lemma set_has_delete x y s :
  set_has x (set_delete y s) = (negb (String.eqb y x) && set_has x s)%bool.
Proof.
  unfold set_delete, set_has. induction s as [|z s IH]; simpl.
  - now rewrite andb_false_r.
  - destruct (String.eqb_spec y z) as [->|Hyz]; simpl.
    + rewrite IH. destruct (String.eqb_spec x z) as [->|Hxz]; simpl.
      * rewrite String.eqb_refl. reflexivity.
      * reflexivity.
    + rewrite IH. destruct (String.eqb_spec x z) as [->|Hxz]; simpl.
      * destruct (String.eqb_spec y z); [contradiction | reflexivity].
      * reflexivity.
Qed.

Lemma map_get_set {V} k k' (v : V) m :
  map_get k (map_set k' v m) =
  if String.eqb k k' then Some v else map_get k m.
Proof.
  induction m as [|[k0 v0] m IH]; simpl.
  - reflexivity.
  - destruct (String.eqb_spec k' k0) as [->|Hk]; simpl.
    + destruct (String.eqb k k0); reflexivity.
    + rewrite IH. destruct (String.eqb_spec k k0) as [->|Hk0].
      * destruct (String.eqb_spec k0 k'); [now subst | reflexivity].
      * reflexivity.
Qed.

Lemma map_get_delete {V} k k' (m : map V) :
  map_get k (map_delete k' m) =
  if String.eqb k' k then None else map_get k m.
Proof.
  unfold map_delete. induction m as [|[k0 v0] m IH]; simpl.
  - now destruct (String.eqb k' k).
  - destruct (String.eqb_spec k' k0) as [->|Hk]; simpl.
    + rewrite IH. destruct (String.eqb_spec k0 k) as [->|Hk0].
      * reflexivity.
      * destruct (String.eqb_spec k k0); [now subst | reflexivity].
    + rewrite IH. destruct (String.eqb_spec k k0) as [->|Hk0].
      * destruct (String.eqb_spec k' k0); [contradiction | reflexivity].
      * reflexivity.
Qed.

End JsFacts.

(** *** The two adjacency maps stay inverse to one another *)

Module GraphFacts.
Import Js JsFacts DependencyGraph.

Lemma member_ensure m k0 k x : member (ensure k0 m) k x = member m k x.
Proof.
  unfold member, ensure, map_has.
  destruct (map_get k0 m) eqn:E; [reflexivity|].
  rewrite map_get_set. destruct (String.eqb_spec k k0) as [->|]; [|reflexivity].
  now rewrite E.
Qed.

Lemma map_get_ensure m k : map_get k (ensure k m) <> None.
Proof.
  unfold ensure, map_has. destruct (map_get k m) eqn:E.
  - now rewrite E.
  - rewrite map_get_set, String.eqb_refl. discriminate.
Qed.

Lemma member_add_to m k0 x0 k x :
  map_get k0 m <> None ->
  member (add_to k0 x0 m) k x =
  ((String.eqb k k0 && String.eqb x x0) || member m k x)%bool.
Proof.
  unfold member, add_to. intros H.
  destruct (map_get k0 m) as [s|] eqn:E; [|contradiction].
  rewrite map_get_set. destruct (String.eqb_spec k k0) as [->|]; simpl.
  - now rewrite E, set_has_add.
  - reflexivity.
Qed.

Lemma member_delete_from m k0 x0 k x :
  member (delete_from k0 x0 m) k x =
  (negb (String.eqb k k0 && String.eqb x0 x) && member m k x)%bool.
Proof.
  unfold member, delete_from.
  destruct (map_get k0 m) as [s|] eqn:E.
  - rewrite map_get_set. destruct (String.eqb_spec k k0) as [->|]; simpl.
    + now rewrite E, set_has_delete.
    + reflexivity.
  - destruct (String.eqb_spec k k0) as [->|]; simpl; [|reflexivity].
    rewrite E. now rewrite andb_false_r.
Qed.

Lemma member_delete_each ks x0 m k x :
  member (fold_left (fun m k0 => delete_from k0 x0 m) ks m) k x =
  (negb (set_has k ks && String.eqb x0 x) && member m k x)%bool.
Proof.
  revert m. induction ks as [|k0 ks IH]; intros m; simpl.
  - reflexivity.
  - rewrite IH, member_delete_from.
    destruct (String.eqb k k0), (set_has k ks), (String.eqb x0 x),
      (member m k x); reflexivity.
Qed.

Lemma member_map_delete m k0 k x :
  member (map_delete k0 m) k x = (negb (String.eqb k0 k) && member m k x)%bool.
Proof.
  unfold member. rewrite map_get_delete. now destruct (String.eqb k0 k).
Qed.

Lemma depends_on_member g a b : depends_on g a b = member (dependencies g) a b.
Proof. reflexivity. Qed.

Lemma dependent_of_member g b a : dependent_of g b a = member (dependents g) b a.
Proof. reflexivity. Qed.

Lemma getDependencies_has g a b :
  set_has b (getDependencies a g) = depends_on g a b.
Proof.
  unfold getDependencies, depends_on. now destruct (map_get a (dependencies g)).
Qed.

Lemma getDependents_has g a b :
  set_has a (getDependents b g) = dependent_of g b a.
Proof.
  unfold getDependents, dependent_of. now destruct (map_get b (dependents g)).
Qed.

Lemma depends_on_add from to g a b :
  depends_on (addDependency from to g) a b =
  ((String.eqb a from && String.eqb b to) || depends_on g a b)%bool.
Proof.
  rewrite !depends_on_member. unfold addDependency; simpl.
  rewrite member_add_to by apply map_get_ensure.
  now rewrite member_ensure.
Qed.

Lemma dependent_of_add from to g b a :
  dependent_of (addDependency from to g) b a =
  ((String.eqb a from && String.eqb b to) || dependent_of g b a)%bool.
Proof.
  rewrite !dependent_of_member. unfold addDependency; simpl.
  rewrite member_add_to by apply map_get_ensure.
  rewrite member_ensure. now rewrite (andb_comm (String.eqb b to)).
Qed.

Lemma addDependency_consistent from to g :
  consistent g -> consistent (addDependency from to g).
Proof.
  intros H a b. now rewrite depends_on_add, dependent_of_add, H.
Qed.

Lemma removeDependencies_unlink cell g :
  removeDependencies cell g =
  let (deps1, dpts1) := unlink cell (dependencies g) (dependents g) in
  let (dpts2, deps2) := unlink cell dpts1 deps1 in
  mk deps2 dpts2.
Proof.
  unfold removeDependencies, unlink.
  destruct (map_get cell (dependencies g)) as [ds|]; simpl.
  - destruct (map_get cell (fold_left _ ds (dependents g))); reflexivity.
  - destruct (map_get cell (dependents g)); [reflexivity | now destruct g].
Qed.

Lemma unlink_inverse cell src tgt :
  (forall a b, member src a b = member tgt b a) ->
  forall a b,
    member (fst (unlink cell src tgt)) a b =
    member (snd (unlink cell src tgt)) b a
    /\ member (fst (unlink cell src tgt)) a b =
       (negb (String.eqb cell a) && member src a b)%bool.
Proof.
  intros H a b. unfold unlink.
  destruct (map_get cell src) as [ks|] eqn:E; simpl.
  - rewrite member_map_delete, member_delete_each. split; [|reflexivity].
    rewrite <- H. destruct (String.eqb_spec cell a) as [<-|]; simpl.
    + unfold member. rewrite E.
      destruct (set_has b ks); reflexivity.
    + now rewrite andb_false_r.
  - split; [apply H|].
    destruct (String.eqb_spec cell a) as [<-|]; [|reflexivity].
    unfold member. now rewrite E.
Qed.

Lemma removeDependencies_consistent cell g :
  consistent g -> consistent (removeDependencies cell g).
Proof.
  intros H. rewrite removeDependencies_unlink.
  pose proof (unlink_inverse cell (dependencies g) (dependents g) H) as H1.
  destruct (unlink cell (dependencies g) (dependents g)) as [deps1 dpts1].
  simpl in H1.
  assert (H2 : forall a b, member dpts1 a b = member deps1 b a)
    by (intros a b; symmetry; apply H1).
  pose proof (unlink_inverse cell dpts1 deps1 H2) as H3.
  destruct (unlink cell dpts1 deps1) as [dpts2 deps2]. simpl in H3.
  intros a b. rewrite depends_on_member, dependent_of_member. simpl.
  symmetry. apply H3.
Qed.

Lemma run_consistent_from cs g : consistent g -> consistent (fold_left perform cs g).
Proof.
  revert g. induction cs as [|c cs IH]; intros g H; simpl; [assumption|].
  apply IH. destruct c; simpl.
  - now apply addDependency_consistent.
  - now apply removeDependencies_consistent.
Qed.

(** C6. After any sequence of [addDependency] and [removeDependencies] calls
    on the empty graph, [b] is in [dependencies[a]] exactly when [a] is in
    [dependents[b]]. *)
Theorem graph_maps_inverse (cs : list call) (a b : string) :
  depends_on (run cs) a b = true <-> dependent_of (run cs) b a = true.
Proof.
  assert (H : consistent (run cs)).
  { apply run_consistent_from. intros x y. reflexivity. }
  now rewrite (H a b).
Qed.

(** *** [hasCycle] decides reachability *)

Lemma reaches_snoc g a b c :
  reaches g a b -> depends_on g b c = true -> reaches g a c.
Proof.
  induction 1 as [a|a b' c' E _ IH]; intros H.
  - eapply reaches_step; [exact H | apply reaches_here].
  - eapply reaches_step; [exact E | now apply IH].
Qed.

Lemma In_push_unvisited visited deps : forall stack x,
  In x (push_unvisited visited deps stack) <->
  In x stack \/ (In x deps /\ set_has x visited = false).
Proof.
  unfold push_unvisited. induction deps as [|d deps IH]; intros stack x; simpl.
  - tauto.
  - rewrite IH. destruct (set_has d visited) eqn:E; simpl.
    + split; [tauto|]. intros [H|[[<-|H] Hx]]; try tauto. congruence.
    + split; [intros [[<-|H]|H]; tauto|]. intros [H|[[<-|H] Hx]]; tauto.
Qed.

Lemma length_push_unvisited visited deps : forall stack,
  (List.length (push_unvisited visited deps stack)
   <= List.length deps + List.length stack)%nat.
Proof.
  unfold push_unvisited. induction deps as [|d deps IH]; intros stack; simpl.
  - lia.
  - etransitivity; [apply IH|]. destruct (set_has d visited); simpl; lia.
Qed.

Lemma depends_on_In g a b :
  depends_on g a b = true <->
  exists deps, map_get a (dependencies g) = Some deps /\ In b deps.
Proof.
  unfold depends_on. destruct (map_get a (dependencies g)) as [deps|].
  - rewrite set_has_In. split; [eauto|]. now intros (d & [= <-] & H).
  - split; [discriminate|]. now intros (d & [=] & _).
Qed.

Lemma set_has_false x s : set_has x s = false <-> ~ In x s.
Proof.
  rewrite <- set_has_In. destruct (set_has x s); split; congruence.
Qed.

Lemma In_set_add x y s : In x (set_add y s) <-> x = y \/ In x s.
Proof.
  rewrite <- !set_has_In, set_has_add, orb_true_iff, String.eqb_eq. tauto.
Qed.

(** When the loop answers [true], the address looked for is reached. *)
Lemma hasCycle_loop_true g from to fuel : forall visited stack,
  (forall x, In x stack -> reaches g to x) ->
  hasCycle_loop fuel g from visited stack = Some true ->
  reaches g to from.
Proof.
  induction fuel as [|fuel IH]; intros visited [|current stack] Hst;
    simpl; try discriminate.
  destruct (String.eqb_spec current from) as [->|Hne].
  - intros _. apply Hst. now left.
  - destruct (set_has current visited) eqn:Ev.
    + apply IH. intros x Hx. apply Hst. now right.
    + apply IH. intros x Hx.
      destruct (map_get current (dependencies g)) as [deps|] eqn:Ed.
      * apply In_push_unvisited in Hx as [Hx|[Hx _]].
        -- apply Hst. now right.
        -- apply reaches_snoc with current; [apply Hst; now left|].
           apply depends_on_In. eauto.
      * apply Hst. now right.
Qed.

(** When the loop answers [false], the visited addresses have grown into a
    set that is closed under the edges and does not hold the address looked
    for. *)
Lemma hasCycle_loop_false g from fuel : forall visited stack,
  (forall v, In v visited -> v <> from) ->
  (forall v d, In v visited -> depends_on g v d = true ->
               In d visited \/ In d stack) ->
  hasCycle_loop fuel g from visited stack = Some false ->
  exists closed : Js.set,
    (forall v, In v closed -> v <> from)
    /\ (forall v d, In v closed -> depends_on g v d = true -> In d closed)
    /\ (forall x, In x visited \/ In x stack -> In x closed).
Proof.
  induction fuel as [|fuel IH]; intros visited [|current stack] H1 H2;
    simpl; try discriminate.
  - intros _. exists visited. repeat split; try assumption.
    + intros v d Hv Hd. destruct (H2 v d Hv Hd) as [|[]]; assumption.
    + intros x [|[]]; assumption.
  - intros _. exists visited. repeat split; try assumption.
    + intros v d Hv Hd. destruct (H2 v d Hv Hd) as [|[]]; assumption.
    + intros x [|[]]; assumption.
  - destruct (String.eqb_spec current from) as [->|Hne]; [discriminate|].
    destruct (set_has current visited) eqn:Ev.
    + intros H. destruct (IH visited stack H1) as (closed & C1 & C2 & C3);
        [|exact H|].
      * intros v d Hv Hd. destruct (H2 v d Hv Hd) as [|[<-|]]; auto.
        left. now apply set_has_In.
      * exists closed. repeat split; try assumption.
        intros x [Hx|[<-|Hx]]; apply C3; auto. left. now apply set_has_In.
    + intros H.
      set (stack' := match map_get current (dependencies g) with
                     | Some deps => push_unvisited (set_add current visited) deps stack
                     | None => stack
                     end) in *.
      assert (Hsub : forall x, In x stack -> In x stack').
      { intros x Hx. unfold stack'.
        destruct (map_get current (dependencies g)); [|assumption].
        apply In_push_unvisited. now left. }
      destruct (IH (set_add current visited) stack') as (closed & C1 & C2 & C3);
        [| |exact H|].
      * intros v Hv. apply In_set_add in Hv as [->|Hv]; auto.
      * intros v d Hv Hd. apply In_set_add in Hv as [->|Hv].
        -- apply depends_on_In in Hd as (deps & Ed & Hd).
           unfold stack'. rewrite Ed.
           destruct (set_has d (set_add current visited)) eqn:E.
           ++ left. now apply set_has_In.
           ++ right. apply In_push_unvisited. right. now split.
        -- destruct (H2 v d Hv Hd) as [Hd'|[<-|Hd']].
           ++ left. apply In_set_add. now right.
           ++ left. apply In_set_add. now left.
           ++ right. now apply Hsub.
      * exists closed. repeat split; try assumption.
        intros x [Hx|[<-|Hx]]; apply C3.
        -- left. apply In_set_add. now right.
        -- left. apply In_set_add. now left.
        -- right. now apply Hsub.
Qed.

Lemma closed_reaches g (closed : Js.set) a b :
  (forall v d, In v closed -> depends_on g v d = true -> In d closed) ->
  reaches g a b -> In a closed -> In b closed.
Proof.
  intros Hc. induction 1 as [a|a b c E _ IH]; intros Ha; [assumption|].
  apply IH. now apply (Hc a).
Qed.

Lemma unvisited_edges_add_le g x visited :
  (unvisited_edges g (set_add x visited) <= unvisited_edges g visited)%nat.
Proof.
  unfold unvisited_edges. induction (dependencies g) as [|[k ds] m IH]; simpl.
  - lia.
  - rewrite set_has_add. destruct (String.eqb k x), (set_has k visited); simpl; lia.
Qed.

Lemma unvisited_edges_visit g current deps visited :
  map_get current (dependencies g) = Some deps ->
  set_has current visited = false ->
  (unvisited_edges g (set_add current visited) + List.length deps
   <= unvisited_edges g visited)%nat.
Proof.
  unfold unvisited_edges. induction (dependencies g) as [|[k ds] m IH]; simpl.
  - discriminate.
  - intros E Hv. rewrite set_has_add.
    destruct (String.eqb_spec current k) as [->|Hne].
    + injection E as ->. rewrite String.eqb_refl, Hv. simpl.
      pose proof (unvisited_edges_add_le (mk m []) k visited) as Hle.
      unfold unvisited_edges in Hle. simpl in Hle. lia.
    + specialize (IH E Hv).
      destruct (String.eqb_spec k current) as [->|_]; [contradiction|].
      simpl. destruct (set_has k visited); lia.
Qed.

(** The loop answers as soon as its fuel covers the stack and the edges
    that leave unvisited addresses. *)
Lemma hasCycle_loop_returns g from fuel : forall visited stack,
  (List.length stack + unvisited_edges g visited <= fuel)%nat ->
  exists b, hasCycle_loop fuel g from visited stack = Some b.
Proof.
  induction fuel as [|fuel IH]; intros visited [|current stack] Hf; simpl;
    try (now exists false); simpl in Hf; try lia.
  destruct (String.eqb current from); [now exists true|].
  destruct (set_has current visited) eqn:Ev.
  - apply IH. lia.
  - apply IH.
    destruct (map_get current (dependencies g)) as [deps|] eqn:Ed.
    + pose proof (unvisited_edges_visit g current deps visited Ed Ev).
      pose proof (length_push_unvisited (set_add current visited) deps stack).
      lia.
    + pose proof (unvisited_edges_add_le g current visited). lia.
Qed.

Lemma unvisited_edges_nil g : unvisited_edges g [] = edge_count g.
Proof. reflexivity. Qed.

Lemma hasCycle_returns g from to : exists b, hasCycle from to g = Some b.
Proof.
  apply hasCycle_loop_returns. rewrite unvisited_edges_nil. simpl. lia.
Qed.

(** C7. [hasCycle from to] always answers; it answers [true] exactly when
    [from] is reached from [to] along the dependency edges (in no step when
    the two are equal), and [false] exactly when it is not.  It reads the
    graph and returns no graph: the maps after the call are the maps before
    it.  With the single edge from A1 to B1, [hasCycle B1 A1] is [true]. *)
Theorem hasCycle_decides_reachability (g : t) (from to : string) :
  (hasCycle from to g = Some true <-> reaches g to from)
  /\ (hasCycle from to g = Some false <-> ~ reaches g to from)
  /\ hasCycle "B1" "A1" A1_reads_B1 = Some true
  /\ hasCycle "A1" "B1" A1_reads_B1 = Some false.
Proof.
  assert (Htrue : hasCycle from to g = Some true -> reaches g to from).
  { apply hasCycle_loop_true. intros x [<-|[]]. apply reaches_here. }
  assert (Hfalse : hasCycle from to g = Some false -> ~ reaches g to from).
  { intros H Hr.
    destruct (hasCycle_loop_false g from (S (edge_count g)) [] [to])
      as (closed & C1 & C2 & C3);
      [intros v [] | intros v d [] | exact H |].
    apply (C1 from); [|reflexivity].
    apply (closed_reaches g closed to from C2 Hr). apply C3. right. now left. }
  destruct (hasCycle_returns g from to) as [b E].
  split; [|split; [|split; reflexivity]].
  - split; [exact Htrue|]. intros Hr.
    destruct b; [exact E|]. exfalso. exact (Hfalse E Hr).
  - split; [exact Hfalse|]. intros Hn.
    destruct b; [|exact E]. exfalso. apply Hn, Htrue, E.
Qed.

(** *** [getEvaluationOrder] returns *)

Lemma pending_set dep d v m :
  map_get dep m = Some d ->
  (pending (map_set dep v m) + (if (0 <? d)%Z then 1 else 0)
   = pending m + (if (0 <? v)%Z then 1 else 0))%nat.
Proof.
  unfold pending. induction m as [|[k x] m IH]; simpl; [discriminate|].
  destruct (String.eqb_spec dep k) as [->|Hne].
  - intros [= ->]. simpl. destruct (0 <? d), (0 <? v); simpl; lia.
  - intros H. specialize (IH H). simpl. destruct (0 <? x); simpl; lia.
Qed.

Lemma release_potential m q dep :
  (List.length (snd (release (m, q) dep)) + pending (fst (release (m, q) dep))
   <= List.length q + pending m)%nat.
Proof.
  unfold release. destruct (map_get dep m) as [d|] eqn:E; simpl; [|lia].
  pose proof (pending_set dep d (d - 1) m E) as H.
  destruct (Z.eqb_spec (d - 1) 0) as [H0|H0].
  - rewrite length_app. simpl.
    destruct (Z.ltb_spec 0 d), (Z.ltb_spec 0 (d - 1)); lia.
  - destruct (Z.ltb_spec 0 d), (Z.ltb_spec 0 (d - 1)); lia.
Qed.

Lemma release_all_potential deps : forall m q,
  (List.length (snd (fold_left release deps (m, q)))
   + pending (fst (fold_left release deps (m, q)))
   <= List.length q + pending m)%nat.
Proof.
  induction deps as [|dep deps IH]; intros m q; cbn [fold_left fst snd]; [lia|].
  pose proof (release_potential m q dep) as H.
  destruct (release (m, q) dep) as [m' q']. simpl in H.
  specialize (IH m' q'). lia.
Qed.

Lemma order_loop_returns g fuel : forall m q result,
  (List.length q + pending m <= fuel)%nat ->
  exists order, order_loop fuel g m q result = Some order.
Proof.
  induction fuel as [|fuel IH]; intros m [|current q] result Hf; simpl;
    try (now exists result); simpl in Hf; try lia.
  destruct (map_get current (dependencies g)) as [deps|].
  - pose proof (release_all_potential deps m q) as H.
    destruct (fold_left release deps (m, q)) as [m' q']. simpl in H.
    apply IH. lia.
  - apply IH. lia.
Qed.

Lemma zero_or_pending (m : map Z) :
  (List.length (filter (fun e => (snd e =? 0)%Z) m) + pending m
   <= List.length m)%nat.
Proof.
  unfold pending. induction m as [|[k d] m IH]; simpl; [lia|].
  destruct (Z.eqb_spec d 0), (Z.ltb_spec 0 d); simpl; lia.
Qed.

(** The fuel of [getEvaluationOrder] is never spent. *)
Lemma getEvaluationOrder_returns cells g :
  exists order, getEvaluationOrder cells g = Some order.
Proof.
  unfold getEvaluationOrder. apply order_loop_returns.
  rewrite length_map. apply zero_or_pending.
Qed.

End GraphFacts.

Module EngineFacts.
Import Types Codec DependencyGraph FormulaEngine Examples.

(** *** The visited set is restored *)

Section Restored.

Variable Number : string -> float.
Variable pow : float -> float -> float.

Lemma preserves_ret {A} (a : A) : preserves (ret a).
Proof. intros v. reflexivity. Qed.

Lemma preserves_throw {A} message : preserves (@throw A message).
Proof. intros v. reflexivity. Qed.

Lemma preserves_lift {A} (x : outcome A) : preserves (lift x).
Proof. intros v. reflexivity. Qed.

Lemma preserves_bind {A B} (m : M A) (f : A -> M B) :
  preserves m -> (forall a, preserves (f a)) -> preserves (bind m f).
Proof.
  intros Hm Hf v. unfold bind. specialize (Hm v).
  destruct (m v) as [[a| |] v']; simpl in *; subst; auto. apply Hf.
Qed.

Lemma preserves_for_each {A B} (f : A -> M B) l :
  (forall a, preserves (f a)) -> preserves (for_each f l).
Proof.
  intros Hf. induction l as [|a l IH]; simpl.
  - apply preserves_ret.
  - apply preserves_bind; [apply Hf|]. intros b.
    apply preserves_bind; [apply IH|]. intros bs. apply preserves_ret.
Qed.

Lemma preserves_for_fold {A S} (step : S -> A -> M S) l :
  (forall acc a, preserves (step acc a)) ->
  forall acc, preserves (for_fold step l acc).
Proof.
  intros Hs. induction l as [|a l IH]; intros acc; simpl.
  - apply preserves_ret.
  - apply preserves_bind; [apply Hs | apply IH].
Qed.

Lemma set_delete_add x s :
  Js.set_has x s = false -> Js.set_delete x (Js.set_add x s) = s.
Proof.
  intros H. unfold Js.set_add. rewrite H. unfold Js.set_delete.
  rewrite filter_app. simpl. rewrite String.eqb_refl. simpl.
  rewrite app_nil_r. unfold Js.set_has in H.
  induction s as [|y s IH]; simpl in *; [reflexivity|].
  apply orb_false_elim in H as [Hy Hs]. rewrite Hy. simpl. now rewrite IH.
Qed.

Section Step.

Variable sheet : Sheet.
Variable self : FormulaAst -> M CellValue.
Hypothesis self_preserves : forall ast, preserves (self ast).

Lemma evaluateCellRef_preserves address :
  preserves (evaluateCellRef sheet self address).
Proof.
  intros v. unfold evaluateCellRef.
  destruct (Js.set_has address v) eqn:E; [reflexivity|].
  destruct (Js.map_get address (cells sheet)) as [[lit|src ast|msg c]|];
    try reflexivity.
  pose proof (self_preserves ast (Js.set_add address v)) as H.
  destruct (self ast (Js.set_add address v)) as [r v']. simpl in *. subst.
  now apply set_delete_add.
Qed.

Lemma evaluateRange_preserves start finish :
  preserves (evaluateRange sheet self start finish).
Proof.
  unfold evaluateRange.
  apply preserves_bind; [apply preserves_lift|]. intros sp.
  apply preserves_bind; [apply preserves_lift|]. intros ep.
  apply preserves_for_each. intros [row col].
  apply preserves_bind; [apply preserves_lift|]. intros a.
  apply evaluateCellRef_preserves.
Qed.

Lemma getNumericValues_preserves ast :
  preserves (getNumericValues Number self ast).
Proof.
  apply preserves_bind; [apply self_preserves|]. intros v. apply preserves_ret.
Qed.

Lemma getAllValues_preserves ast : preserves (getAllValues self ast).
Proof.
  apply preserves_bind; [apply self_preserves|]. intros v. apply preserves_ret.
Qed.

(** Discharges a goal [preserves m] for a computation built from the monad
    operations, the loops and the recursive call. *)
Ltac preserving :=
  repeat first
    [ apply preserves_ret | apply preserves_throw | apply preserves_lift
    | apply self_preserves | apply getNumericValues_preserves
    | apply getAllValues_preserves
    | apply preserves_for_fold; intros
    | apply preserves_bind; intros
    | match goal with
      | |- preserves (let (_, _) := ?p in _) => destruct p
      | |- preserves (if ?b then _ else _) => destruct b
      | |- preserves (match ?l with [] => _ | _ :: _ => _ end) => destruct l
      end ].

Lemma evaluateFunction_preserves name args :
  preserves (evaluateFunction Number self name args).
Proof.
  unfold evaluateFunction, evaluateSum, evaluateAverage, evaluateMin,
    evaluateMax, evaluateCount, evaluateIf.
  preserving.
Qed.

Lemma evaluateBinaryOp_preserves op lhs rhs :
  preserves (evaluateBinaryOp Number pow self op lhs rhs).
Proof. unfold evaluateBinaryOp. preserving. Qed.

Lemma evaluateUnaryOp_preserves op operand :
  preserves (evaluateUnaryOp self op operand).
Proof. unfold evaluateUnaryOp. preserving. Qed.

End Step.

(** Whatever it returns or throws, [evaluateAst] leaves the visited set as
    it found it. *)
Lemma evaluateAst_preserves fuel sheet :
  forall ast, preserves (evaluateAst Number pow fuel sheet ast).
Proof.
  induction fuel as [|fuel IH]; intros ast; [intros v; reflexivity|].
  destruct ast; cbn [evaluateAst].
  - apply preserves_ret.
  - apply preserves_ret.
  - apply preserves_ret.
  - now apply evaluateCellRef_preserves.
  - apply preserves_bind; [now apply evaluateRange_preserves|].
    intros vs. apply preserves_ret.
  - now apply evaluateFunction_preserves.
  - now apply evaluateBinaryOp_preserves.
  - now apply evaluateUnaryOp_preserves.
Qed.

End Restored.

(** *** Aggregates over no number *)

Section Empty.

Variable Number : string -> float.
Variable pow : float -> float -> float.

(** A loop over the arguments whose every argument contributes no number
    leaves its accumulator alone. *)
Lemma for_fold_idle {S} (self : FormulaAst -> M CellValue)
  (f : S -> list float -> S) args acc visited :
  (forall ast, preserves (self ast)) ->
  (forall arg, In arg args ->
     fst (getNumericValues Number self arg visited) = Ok []) ->
  f acc [] = acc ->
  for_fold
    (fun acc arg =>
       let* values := getNumericValues Number self arg in ret (f acc values))
    args acc visited
  = (Ok acc, visited).
Proof.
  intros Hself Hargs Hf. induction args as [|arg args IH]; [reflexivity|].
  cbn [for_fold]. unfold bind at 1.
  pose proof (Hargs arg (or_introl eq_refl)) as H1.
  pose proof (getNumericValues_preserves Number self Hself arg visited) as H2.
  unfold bind at 1.
  destruct (getNumericValues Number self arg visited) as [r v].
  simpl in H1, H2. subst. unfold ret at 1. rewrite Hf.
  apply IH. intros a Ha. apply Hargs. now right.
Qed.

(** C8. When no argument of a SUM, AVERAGE (or AVG), MIN or MAX call
    contributes a number, the call returns the number 0; SUM(A1:A2) over two
    cells that hold nothing is evaluated to 0. *)
Theorem aggregates_of_nothing_are_zero
  (fuel : nat) (sheet : Sheet) (visited : Js.set) (name : string)
  (args : list FormulaAst) :
  In (toUpperCase name) ["SUM"; "AVERAGE"; "AVG"; "MIN"; "MAX"] ->
  (forall arg, In arg args ->
     fst (getNumericValues Number (evaluateAst Number pow fuel sheet) arg visited)
     = Ok []) ->
  evaluateAst Number pow (S fuel) sheet (FunctionCall name args) visited
  = (Ok (VNumber 0), visited)
  /\ forall n, evaluateCell Number pow (3 + n) sum_of_nothing "A3"
               = Some (mkResult (VNumber 0) None).
Proof.
  intros Hname Hargs. split; [|reflexivity].
  pose proof (evaluateAst_preserves Number pow fuel sheet) as Hself.
  cbn [evaluateAst]. unfold evaluateFunction.
  simpl in Hname.
  destruct Hname as [E|[E|[E|[E|[E|[]]]]]]; rewrite <- E; cbn [String.eqb Ascii.eqb Bool.eqb orb];
    cbv beta iota.
  - unfold evaluateSum, bind at 1.
    rewrite (for_fold_idle _ (fun sum values => PrimFloat.add sum (total values)))
      by (try assumption; reflexivity).
    reflexivity.
  - unfold evaluateAverage, bind at 1.
    rewrite (for_fold_idle _
               (fun (sc : float * float) values =>
                  (PrimFloat.add (fst sc) (total values),
                   PrimFloat.add (snd sc) (of_length values))))
      by (try assumption; reflexivity).
    reflexivity.
  - unfold evaluateAverage, bind at 1.
    rewrite (for_fold_idle _
               (fun (sc : float * float) values =>
                  (PrimFloat.add (fst sc) (total values),
                   PrimFloat.add (snd sc) (of_length values))))
      by (try assumption; reflexivity).
    reflexivity.
  - unfold evaluateMin, bind at 1.
    rewrite (for_fold_idle _
               (fun min values =>
                  fold_left
                    (fun min val => if PrimFloat.ltb val min then val else min)
                    values min))
      by (try assumption; reflexivity).
    reflexivity.
  - unfold evaluateMax, bind at 1.
    rewrite (for_fold_idle _
               (fun max values =>
                  fold_left
                    (fun max val => if PrimFloat.ltb max val then val else max)
                    values max))
      by (try assumption; reflexivity).
    reflexivity.
Qed.

End Empty.

(** An instance of [aggregates_of_nothing_are_zero]: MIN over the range
    A1:A2 of a sheet without cells. *)
Lemma aggregates_of_nothing_are_zero_witness :
  In (toUpperCase "min") ["SUM"; "AVERAGE"; "AVG"; "MIN"; "MAX"]
  /\ (forall arg, In arg [RangeRef "A1" "A2"] ->
        fst (getNumericValues (fun _ => nan)
               (evaluateAst (fun _ => nan) (fun _ _ => nan) 2 blank) arg ["C1"])
        = Ok [])
  /\ evaluateAst (fun _ => nan) (fun _ _ => nan) 3 blank
       (FunctionCall "min" [RangeRef "A1" "A2"]) ["C1"]
     = (Ok (VNumber 0), ["C1"]).
Proof.
  assert (H1 : In (toUpperCase "min") ["SUM"; "AVERAGE"; "AVG"; "MIN"; "MAX"])
    by (simpl; tauto).
  assert (H2 : forall arg, In arg [RangeRef "A1" "A2"] ->
        fst (getNumericValues (fun _ => nan)
               (evaluateAst (fun _ => nan) (fun _ _ => nan) 2 blank) arg ["C1"])
        = Ok [])
    by (intros arg [<-|[]]; reflexivity).
  split; [exact H1|]. split; [exact H2|].
  exact (proj1 (aggregates_of_nothing_are_zero (fun _ => nan) (fun _ _ => nan)
                  2 blank ["C1"] "min" [RangeRef "A1" "A2"] H1 H2)).
Defined.

(** *** The cycle guard *)

Section Cycles.

Variable Number : string -> float.
Variable pow : float -> float -> float.

Lemma substring_all s : substring 0 (String.length s) s = s.
Proof. induction s as [|c s IH]; simpl; [reflexivity | now rewrite IH]. Qed.

(** [evaluateCell] reports the circular signal as CYCLE, without its tag. *)
Lemma evaluateCell_circular fuel sheet address src ast x :
  Js.map_get address (cells sheet) = Some (FormulaCell src ast) ->
  fst (evaluateAst Number pow fuel sheet ast [address])
  = Throw ("CIRC:Circular reference detected: " ++ x)%string ->
  evaluateCell Number pow fuel sheet address = Some (cycle_error x).
Proof.
  intros Hc He. unfold evaluateCell. rewrite Hc.
  destruct (evaluateAst Number pow fuel sheet ast [address]) as [res v].
  simpl in He. subst res.
  unfold cycle_error, createError, substring_from. cbn.
  repeat f_equal. rewrite ?Nat.sub_0_r. apply substring_all.
Qed.

(** A reference to an address of the visited set throws the signal. *)
Lemma visited_reference_throws fuel sheet visited address c r :
  Js.set_has address visited = true ->
  evaluateAst Number pow (S fuel) sheet (CellRef address c r) visited
  = (Throw ("CIRC:Circular reference detected: " ++ address)%string, visited).
Proof.
  intros H. cbn [evaluateAst]. unfold evaluateCellRef. now rewrite H.
Qed.

(** A computation that throws makes the computation it is bound in throw
    the same. *)
Lemma bind_throws {A B} (m : M A) (f : A -> M B) visited message :
  fst (m visited) = Throw message ->
  fst (bind m f visited) = Throw message.
Proof.
  unfold bind. destruct (m visited) as [[a| |] v]; simpl; congruence.
Qed.

Lemma for_fold_throws {A S} (step : S -> A -> M S) a l acc visited message :
  fst (step acc a visited) = Throw message ->
  fst (for_fold step (a :: l) acc visited) = Throw message.
Proof. intros H. cbn [for_fold]. now apply bind_throws. Qed.

End Cycles.


(** *** What [updateCell] evaluates again *)

Section Recalculation.

Variable Number : string -> float.
Variable pow : float -> float -> float.

(** Induction on a formula tree, with the hypothesis for every argument of
    a call. *)
Lemma FormulaAst_induction (P : FormulaAst -> Prop) :
  (forall value, P (NumberLiteral value)) ->
  (forall value, P (StringLiteral value)) ->
  (forall value, P (BooleanLiteral value)) ->
  (forall address c r, P (CellRef address c r)) ->
  (forall start finish, P (RangeRef start finish)) ->
  (forall name args, Forall P args -> P (FunctionCall name args)) ->
  (forall op lhs rhs, P lhs -> P rhs -> P (BinaryOp op lhs rhs)) ->
  (forall op operand, P operand -> P (UnaryOp op operand)) ->
  forall ast, P ast.
Proof.
  intros Hn Hs Hb Hr Hg Hc Hbin Hu. fix IH 1. intros [v|v|v|a c r|s f|n args|o l r|o e].
  - apply Hn.
  - apply Hs.
  - apply Hb.
  - apply Hr.
  - apply Hg.
  - apply Hc. induction args as [|arg args IHargs]; constructor;
      [apply IH | exact IHargs].
  - apply Hbin; apply IH.
  - apply Hu; apply IH.
Qed.

Lemma removeDependencies_forgets cell g :
  Js.map_get cell (dependents (removeDependencies cell g)) = None.
Proof.
  unfold removeDependencies.
  set (g1 := match Js.map_get cell (dependencies g) with
             | Some deps => _
             | None => g
             end).
  destruct (Js.map_get cell (dependents g1)) eqn:E; [|exact E].
  simpl. rewrite JsFacts.map_get_delete. now rewrite String.eqb_refl.
Qed.

Lemma addDependency_only_itself address to g :
  only_itself address g -> only_itself address (addDependency address to g).
Proof.
  intros H. unfold only_itself.
  rewrite GraphFacts.depends_on_add.
  unfold addDependency; simpl. unfold add_to.
  destruct (Js.map_get to (ensure to (dependents g))) as [s|] eqn:Es;
    [|now destruct (GraphFacts.map_get_ensure (dependents g) to)].
  rewrite JsFacts.map_get_set.
  destruct (String.eqb_spec address to) as [<-|Hne].
  - right. rewrite String.eqb_refl. split; [|reflexivity].
    unfold ensure, Js.map_has in Es.
    destruct H as [H|[H _]]; rewrite H in Es; cbv iota in Es.
    + rewrite JsFacts.map_get_set, String.eqb_refl in Es. now injection Es as <-.
    + rewrite H in Es. injection Es as <-. unfold Js.set_add. simpl.
      now rewrite String.eqb_refl.
  - assert (E : Js.map_get address (ensure to (dependents g))
                = Js.map_get address (dependents g)).
    { unfold ensure. destruct (Js.map_has to (dependents g)); [reflexivity|].
      rewrite JsFacts.map_get_set.
      destruct (String.eqb_spec address to); [contradiction | reflexivity]. }
    rewrite E. destruct H as [H|[H1 H2]]; [now left | right].
    split; [assumption|]. rewrite H2. apply orb_true_r.
Qed.

Lemma extractDependencies_only_itself address : forall ast g,
  only_itself address g -> only_itself address (extractDependencies ast address g).
Proof.
  induction ast as [v|v|v|a c r|s f|n args IH|o l r IHl IHr|o e IHe]
    using FormulaAst_induction; intros g H; simpl; try assumption.
  - now apply addDependency_only_itself.
  - revert g H. induction (range_addresses s f) as [|x xs IHxs]; intros g H;
      simpl; [assumption|].
    apply IHxs. now apply addDependency_only_itself.
  - revert g H. induction IH as [|arg args Harg _ IHargs]; intros g H;
      [assumption|].
    apply IHargs. now apply Harg.
  - apply IHr. now apply IHl.
  - now apply IHe.
Qed.

Lemma bump_self address deps : forall n,
  exists k,
    fold_left (bump 1) deps [(address, n)] = [(address, n + k)]
    /\ 0 <= k /\ (In address deps -> 1 <= k).
Proof.
  induction deps as [|d deps IH]; intros n; simpl.
  - exists 0. rewrite Z.add_0_r. repeat split; [lia | intros []].
  - unfold bump at 2. simpl.
    destruct (String.eqb_spec d address) as [->|Hne].
    + destruct (IH (n + 1)) as (k & E & Hk & _).
      exists (1 + k). rewrite E. repeat split; [f_equal; f_equal; lia|lia|lia].
    + destruct (IH n) as (k & E & Hk & Hin).
      exists k. rewrite E. repeat split; [assumption|].
      intros [->|Hd]; [contradiction | auto].
Qed.

(** An address that is its own dependency is never put in the queue. *)
Lemma getEvaluationOrder_itself address g :
  depends_on g address address = true ->
  getEvaluationOrder [address] g = Some [].
Proof.
  intros H. apply GraphFacts.depends_on_In in H as (deps & Ed & Hin).
  unfold getEvaluationOrder, initial_degrees. simpl. rewrite Ed.
  destruct (bump_self address deps 0) as (k & E & Hk & Hk1).
  rewrite E. specialize (Hk1 Hin). simpl.
  destruct (Z.eqb_spec k 0); [lia | reflexivity].
Qed.

(** C2 (the code departs from it). [updateCell] evaluates no cell again,
    whatever the graph, the sheet and the edit: [removeDependencies] drops
    [dependents[address]] before it is read, so the addresses to recalculate
    are none, or [address] alone when the new formula reads its own cell, and
    that one is never queued.  With A1 = 1, A2 = 2, A3 = SUM(A1:A2), where A3
    is a dependent of A1 in the graph that [evaluateSheet] builds, setting A1
    to 10 evaluates nothing and drops the edge from A3 to A1; A3 is 12 when
    it is evaluated anew on the sheet returned. *)
Theorem updateCell_recalculates_nothing
  (fuel : nat) (g : DependencyGraph.t) (sheet : Sheet)
  (address : CellAddress) (cell : Cell) :
  (exists u,
     updateCell Number pow fuel g sheet address cell = Some u
     /\ recalculated u = [])
  /\ (forall n, option_map snd (evaluateSheet Number pow (3 + n) ledger)
                = Some ledger_graph)
  /\ getDependents "A1" ledger_graph = ["A3"]
  /\ updateCell Number pow fuel ledger_graph ledger "A1" (number 10)
     = Some (mkUpdate ledger_edited
               (DependencyGraph.mk [("A3", ["A2"])] [("A2", ["A3"])]) [])
  /\ (forall n, evaluateCell Number pow (3 + n) ledger "A3"
                = Some (mkResult (VNumber 3) None))
  /\ (forall n, evaluateCell Number pow (3 + n) ledger_edited "A3"
                = Some (mkResult (VNumber 12) None)).
Proof.
  split; [|repeat split; reflexivity].
  unfold updateCell.
  set (g1 := removeDependencies address g).
  set (g2 := match cell with
             | FormulaCell _ ast => extractDependencies ast address g1
             | _ => g1
             end).
  assert (H1 : only_itself address g1)
    by (left; apply removeDependencies_forgets).
  assert (H2 : only_itself address g2).
  { unfold g2. destruct cell; try assumption.
    now apply extractDependencies_only_itself. }
  unfold getDependents. destruct H2 as [->|[-> H2]].
  - eexists. split; reflexivity.
  - rewrite (getEvaluationOrder_itself address g2 H2). simpl.
    eexists. split; reflexivity.
Qed.

End Recalculation.

(** *** Division by zero and reversed ranges, in general *)

Section Departures.

Variable Number : string -> float.
Variable pow : float -> float -> float.

(** Whatever the operands, a division whose divisor coerces to zero throws
    "Division by zero" ... *)
Lemma division_by_zero_throws fuel sheet lhs rhs visited leftVal rightVal :
  fst (evaluateAst Number pow fuel sheet lhs visited) = Ok leftVal ->
  fst (evaluateAst Number pow fuel sheet rhs visited) = Ok rightVal ->
  PrimFloat.eqb (toNumber Number rightVal) 0 = true ->
  evaluateAst Number pow (S fuel) sheet (BinaryOp "/" lhs rhs) visited
  = (Throw "Division by zero", visited).
Proof.
  intros Hl Hr Hz. cbn [evaluateAst]. unfold evaluateBinaryOp, bind.
  pose proof (evaluateAst_preserves Number pow fuel sheet lhs visited) as Pl.
  pose proof (evaluateAst_preserves Number pow fuel sheet rhs visited) as Pr.
  destruct (evaluateAst Number pow fuel sheet lhs visited) as [rl vl].
  simpl in Hl, Pl. subst rl vl.
  destruct (evaluateAst Number pow fuel sheet rhs visited) as [rr vr].
  simpl in Hr, Pr. subst rr vr.
  cbn. now rewrite Hz.
Qed.

(** ... which a formula cell made of that division reports under PARSE. *)
Lemma division_by_zero_cell fuel sheet address src lhs rhs leftVal rightVal :
  Js.map_get address (cells sheet) = Some (FormulaCell src (BinaryOp "/" lhs rhs)) ->
  fst (evaluateAst Number pow fuel sheet lhs [address]) = Ok leftVal ->
  fst (evaluateAst Number pow fuel sheet rhs [address]) = Ok rightVal ->
  PrimFloat.eqb (toNumber Number rightVal) 0 = true ->
  evaluateCell Number pow (S fuel) sheet address
  = Some (mkResult VNull (Some (mkError PARSE "Division by zero"))).
Proof.
  intros Hc Hl Hr Hz. unfold evaluateCell. rewrite Hc.
  now rewrite (division_by_zero_throws fuel sheet lhs rhs [address]
                 leftVal rightVal Hl Hr Hz).
Qed.

Lemma interval_empty lo hi : hi < lo -> Codec.interval lo hi = [].
Proof.
  intros H. unfold Codec.interval.
  replace (Z.to_nat (hi - lo + 1)) with 0%nat by lia. reflexivity.
Qed.

(** A range whose second corner is above or to the left of the first one
    has no value. *)
Lemma evaluateRange_reversed sheet self start finish c1 r1 c2 r2 visited :
  parseCellAddress start = Ok (c1, r1) ->
  parseCellAddress finish = Ok (c2, r2) ->
  c2 < c1 \/ r2 < r1 ->
  evaluateRange sheet self start finish visited = (Ok [], visited).
Proof.
  intros Hs Hf H. unfold evaluateRange, bind, lift. rewrite Hs, Hf. simpl.
  destruct H as [H|H].
  - rewrite (interval_empty c1 c2 H).
    induction (Codec.interval r1 r2) as [|r rs IH]; simpl; [reflexivity | exact IH].
  - now rewrite (interval_empty r1 r2 H).
Qed.

End Departures.

(** C1 (the code departs from it). [=1/0] and [=IF(1/0,"x","y")] parse to
    the expected trees, and a formula cell holding either is evaluated to an
    error whose code is PARSE, with the message "Division by zero"; so is
    every formula cell made of a division whose operands are evaluated and
    whose divisor coerces to zero.  The throw of [evaluateBinaryOp] carries no
    code and [evaluateCell] files every failure that is not a circular
    reference under PARSE; no path produces DIV0. *)
Theorem division_by_zero_is_filed_as_PARSE
  (Number : string -> float) (pow : float -> float -> float) :
  Parser.parseFormula 4 "=1/0" = Ok one_over_zero
  /\ Parser.parseFormula 9 if_one_over_zero_src = Ok if_one_over_zero
  /\ (forall n,
        evaluateCell Number pow (2 + n)
          (sheet_of [("A1", FormulaCell "=1/0" one_over_zero)]) "A1"
        = Some (mkResult VNull (Some (mkError PARSE "Division by zero"))))
  /\ (forall n,
        evaluateCell Number pow (3 + n)
          (sheet_of [("A1", FormulaCell if_one_over_zero_src if_one_over_zero)])
          "A1"
        = Some (mkResult VNull (Some (mkError PARSE "Division by zero"))))
  /\ (forall fuel sheet address src lhs rhs leftVal rightVal,
        Js.map_get address (cells sheet)
        = Some (FormulaCell src (BinaryOp "/" lhs rhs)) ->
        fst (evaluateAst Number pow fuel sheet lhs [address]) = Ok leftVal ->
        fst (evaluateAst Number pow fuel sheet rhs [address]) = Ok rightVal ->
        PrimFloat.eqb (toNumber Number rightVal) 0 = true ->
        evaluateCell Number pow (S fuel) sheet address
        = Some (mkResult VNull (Some (mkError PARSE "Division by zero")))).
Proof.
  split; [reflexivity|]. split; [reflexivity|].
  split; [reflexivity|]. split; [reflexivity|].
  intros fuel sheet address src lhs rhs leftVal rightVal.
  apply division_by_zero_cell.
Qed.

(** C9 (the code departs from it). [evaluateRange] counts from the row and
    the column of the first corner up to those of the second one, without
    taking minima and maxima, so a range whose second corner is above or to
    the left of the first one has no value: over four numbers in A1:B2 the
    range A1:B2 has four values and the range B2:A1 has none, and [SUM(B2:A1)]
    is 0 where [SUM(A1:B2)] is 10; [getCellsInRange] does normalise the
    corners. *)
Theorem reversed_range_is_empty
  (Number : string -> float) (pow : float -> float -> float) :
  (forall n,
     fst (evaluateAst Number pow (2 + n) square (RangeRef "A1" "B2") ["C1"])
     = Ok (VArray [VNumber 1; VNumber 3; VNumber 2; VNumber 4]))
  /\ (forall n,
        fst (evaluateAst Number pow (2 + n) square (RangeRef "B2" "A1") ["C1"])
        = Ok (VArray []))
  /\ (forall n,
        fst (evaluateAst Number pow (3 + n) square
               (FunctionCall "SUM" [RangeRef "A1" "B2"]) ["C1"])
        = Ok (VNumber 10))
  /\ (forall n,
        fst (evaluateAst Number pow (3 + n) square
               (FunctionCall "SUM" [RangeRef "B2" "A1"]) ["C1"])
        = Ok (VNumber 0))
  /\ getCellsInRange "B2" "A1" = Ok ["A1"; "A2"; "B1"; "B2"]
  /\ getCellsInRange "A1" "B2" = Ok ["A1"; "A2"; "B1"; "B2"]
  /\ (forall fuel sheet start finish c1 r1 c2 r2 visited,
        parseCellAddress start = Ok (c1, r1) ->
        parseCellAddress finish = Ok (c2, r2) ->
        c2 < c1 \/ r2 < r1 ->
        evaluateAst Number pow (S fuel) sheet (RangeRef start finish) visited
        = (Ok (VArray []), visited)).
Proof.
  repeat (split; [reflexivity|]).
  intros fuel sheet start finish c1 r1 c2 r2 visited Hs Hf H.
  cbn [evaluateAst]. unfold bind.
  now rewrite (evaluateRange_reversed sheet _ start finish c1 r1 c2 r2 visited
                 Hs Hf H).
Qed.

End EngineFacts.

(** *** The address codec round trip *)

Module CodecFacts.
Import Text Types Codec.

Lemma charCode_fromCharCode n : 0 <= n < 256 -> charCode (fromCharCode n) = n.
Proof.
  intros H. unfold charCode, fromCharCode.
  rewrite N_ascii_embedding by lia. lia.
Qed.

Lemma letters_value_accumulate s : letters_value s = accumulate 26 64 0 s.
Proof.
  unfold letters_value. generalize 0. induction s as [|c s IH]; intros a; simpl.
  - reflexivity.
  - rewrite IH. f_equal. lia.
Qed.

Lemma digits_value_accumulate s : digits_value s = accumulate 10 48 0 s.
Proof.
  unfold digits_value. generalize 0. induction s as [|c s IH]; intros a; simpl.
  - reflexivity.
  - now rewrite IH.
Qed.

Lemma accumulate_app base off a s c :
  accumulate base off a (s ++ String c "")
  = accumulate base off a s * base + (charCode c - off).
Proof.
  revert a. induction s as [|d s IH]; intros a; simpl; [reflexivity | apply IH].
Qed.

Lemma append_snoc (s : string) c r : (s ++ String c r = (s ++ String c "") ++ r)%string.
Proof.
  induction s as [|d s IH]; simpl; [reflexivity | now rewrite IH].
Qed.

Lemma all_chars_app p s r :
  all_chars p (s ++ r) = all_chars p s && all_chars p r.
Proof.
  induction s as [|c s IH]; simpl; [reflexivity|].
  now rewrite IH, andb_assoc.
Qed.

Lemma pow2_succ (f : nat) : 2 ^ Z.of_nat (S f) = 2 * 2 ^ Z.of_nat f.
Proof. rewrite Nat2Z.inj_succ, Z.pow_succ_r by lia. reflexivity. Qed.

Lemma below_log2 n : 0 < n -> n < 2 ^ Z.of_nat (S (Z.to_nat (Z.log2 n))).
Proof.
  intros H. pose proof (Z.log2_spec n H) as [_ Hn].
  pose proof (Z.log2_nonneg n).
  rewrite Nat2Z.inj_succ, Z2Nat.id by assumption. exact Hn.
Qed.

(** What [letters_loop] puts in front of the accumulator is a string of
    capitals whose value is the number it started from. *)
Lemma letters_loop_spec fuel : forall colNum acc,
  0 <= colNum < 2 ^ Z.of_nat fuel ->
  exists ds,
    letters_loop fuel colNum acc = (ds ++ acc)%string
    /\ all_chars is_upper ds = true
    /\ accumulate 26 64 0 ds = colNum
    /\ (0 < colNum -> ds <> EmptyString).
Proof.
  induction fuel as [|fuel IH]; intros colNum acc H.
  - simpl in H. exists EmptyString. repeat split; simpl; lia.
  - rewrite pow2_succ in H.
    change (letters_loop (S fuel) colNum acc)
      with (if 0 <? colNum
            then letters_loop fuel ((colNum - 1) / 26)
                   (String (fromCharCode (65 + (colNum - 1) mod 26)) acc)
            else acc).
    destruct (Z.ltb_spec 0 colNum) as [Hpos|Hle].
    + pose proof (Z.div_mod (colNum - 1) 26 ltac:(lia)) as Hdm.
      pose proof (Z.mod_pos_bound (colNum - 1) 26 ltac:(lia)) as Hm.
      assert (Hq : 0 <= (colNum - 1) / 26 < 2 ^ Z.of_nat fuel).
      { split; [apply Z.div_pos; lia|].
        apply Z.div_lt_upper_bound; lia. }
      destruct (IH ((colNum - 1) / 26)
                  (String (fromCharCode (65 + (colNum - 1) mod 26)) acc) Hq)
        as (ds & E & Hup & Hval & _).
      exists (ds ++ String (fromCharCode (65 + (colNum - 1) mod 26)) "")%string.
      repeat split.
      * rewrite E. apply append_snoc.
      * rewrite all_chars_app, Hup. cbn [all_chars andb].
        unfold is_upper, between.
        rewrite charCode_fromCharCode by lia.
        rewrite andb_true_r. apply andb_true_intro. split; apply Z.leb_le; lia.
      * rewrite accumulate_app, Hval, charCode_fromCharCode by lia. lia.
      * intros _. destruct ds; discriminate.
    + exists EmptyString. repeat split; simpl; lia.
Qed.

Lemma colToLetter_spec col :
  0 <= col ->
  exists ds,
    colToLetter col = ds /\ all_chars is_upper ds = true
    /\ accumulate 26 64 0 ds = col + 1 /\ ds <> EmptyString.
Proof.
  intros H. unfold colToLetter.
  destruct (letters_loop_spec (letters_fuel (col + 1)) (col + 1) "") as
    (ds & E & Hup & Hval & Hne).
  { split; [lia | apply below_log2; lia]. }
  exists ds. rewrite E. repeat split; try assumption.
  - clear. induction ds as [|c ds IH]; simpl; [reflexivity | now rewrite IH].
  - apply Hne. lia.
Qed.

Lemma letterToCol_colToLetter col : 0 <= col -> letterToCol (colToLetter col) = col.
Proof.
  intros H. destruct (colToLetter_spec col H) as (ds & -> & _ & Hval & _).
  unfold letterToCol. rewrite letters_value_accumulate, Hval. lia.
Qed.

(** Decides a goal about character classes from the bounds on the code. *)
Ltac by_code :=
  unfold is_digit19, is_digit, is_upper, is_dollar, between in *;
  repeat match goal with
    | H : (_ && _)%bool = true |- _ => apply andb_prop in H; destruct H
    | H : (_ <=? _) = true |- _ => apply Z.leb_le in H
    | H : (_ =? _) = true |- _ => apply Z.eqb_eq in H
    end;
  repeat match goal with
    | |- context [?a <=? ?b] => destruct (Z.leb_spec a b)
    | |- context [?a =? ?b] => destruct (Z.eqb_spec a b)
    end;
  simpl; solve [reflexivity | lia].

Lemma digit19_not_upper c : is_digit19 c = true -> is_upper c = false.
Proof. intros H. by_code. Qed.

Lemma digit19_not_dollar c : is_digit19 c = true -> is_dollar c = false.
Proof. intros H. by_code. Qed.

Lemma digit19_digit c : is_digit19 c = true -> is_digit c = true.
Proof. intros H. by_code. Qed.

Lemma upper_not_dollar c : is_upper c = true -> is_dollar c = false.
Proof. intros H. by_code. Qed.

Lemma dollar_not_upper c : is_dollar c = true -> is_upper c = false.
Proof. intros H. by_code. Qed.

(** The numeral of [n] is a digit other than zero (when [n] is positive)
    followed by digits, and its value is [n]. *)
Lemma numeral_loop_spec fuel : forall n acc,
  0 <= n < 2 * 2 ^ Z.of_nat fuel ->
  exists c r,
    numeral_loop fuel n acc = String c (r ++ acc)
    /\ is_digit c = true /\ all_chars is_digit r = true
    /\ accumulate 10 48 0 (String c r) = n
    /\ (0 < n -> is_digit19 c = true).
Proof.
  assert (Hone : forall n acc, 0 <= n < 10 ->
    exists c r,
      String (fromCharCode (48 + n mod 10)) acc = String c (r ++ acc)
      /\ is_digit c = true /\ all_chars is_digit r = true
      /\ accumulate 10 48 0 (String c r) = n
      /\ (0 < n -> is_digit19 c = true)).
  { intros n acc Hn. exists (fromCharCode (48 + n mod 10)), EmptyString.
    rewrite Z.mod_small by lia.
    cbn [append all_chars accumulate]. unfold is_digit, is_digit19, between.
    rewrite charCode_fromCharCode by lia.
    repeat split; try lia;
      intros; apply andb_true_intro; split; apply Z.leb_le; lia. }
  induction fuel as [|fuel IH]; intros n acc H.
  - cbn [numeral_loop]. apply Hone. simpl in H. lia.
  - rewrite pow2_succ in H.
    change (numeral_loop (S fuel) n acc)
      with (if n <? 10 then String (fromCharCode (48 + n mod 10)) acc
            else numeral_loop fuel (n / 10)
                   (String (fromCharCode (48 + n mod 10)) acc)).
    destruct (Z.ltb_spec n 10) as [Hlt|Hge]; [apply Hone; lia|].
    pose proof (Z.mod_pos_bound n 10 ltac:(lia)) as Hm.
    pose proof (Z.div_mod n 10 ltac:(lia)) as Hdm.
    assert (Hq : 0 <= n / 10 < 2 * 2 ^ Z.of_nat fuel).
    { split; [apply Z.div_pos; lia|]. apply Z.div_lt_upper_bound; lia. }
    destruct (IH (n / 10) (String (fromCharCode (48 + n mod 10)) acc) Hq)
      as (c & r & E & Hc & Hr & Hval & Hfirst).
    exists c, (r ++ String (fromCharCode (48 + n mod 10)) "")%string.
    repeat split.
    + rewrite E. f_equal. apply append_snoc.
    + exact Hc.
    + rewrite all_chars_app, Hr. cbn [all_chars andb].
      unfold is_digit, between. rewrite charCode_fromCharCode by lia.
      rewrite andb_true_r. apply andb_true_intro. split; apply Z.leb_le; lia.
    + change (String c (r ++ String (fromCharCode (48 + n mod 10)) ""))
        with (String c r ++ String (fromCharCode (48 + n mod 10)) "")%string.
      rewrite accumulate_app, Hval, charCode_fromCharCode by lia. lia.
    + intros _. apply Hfirst. lia.
Qed.

Lemma toString_spec n :
  0 <= n ->
  exists c r,
    toString n = String c r
    /\ is_digit c = true /\ all_chars is_digit r = true
    /\ digits_value (String c r) = n
    /\ (0 < n -> is_digit19 c = true).
Proof.
  intros H. unfold toString, numeral.
  destruct (Z.ltb_spec n 0) as [|_]; [lia|].
  destruct (numeral_loop_spec (Z.to_nat (Z.log2 n)) n "") as
    (c & r & E & Hc & Hr & Hval & Hfirst).
  { split; [assumption|].
    destruct (Z.eq_dec n 0) as [->|Hn]; [simpl; lia|].
    rewrite <- pow2_succ. apply below_log2. lia. }
  exists c, r. rewrite E, digits_value_accumulate.
  assert (Hnil : forall s : string, (s ++ "")%string = s).
  { induction s as [|d s IH]; simpl; [reflexivity | now rewrite IH]. }
  rewrite Hnil. auto.
Qed.

Lemma span_upper_app ds c r :
  all_chars is_upper ds = true -> is_upper c = false ->
  span is_upper (ds ++ String c r) = (ds, String c r).
Proof.
  intros Hds Hc. induction ds as [|d ds IH]; simpl in *.
  - now rewrite Hc.
  - apply andb_prop in Hds as [Hd Hds]. now rewrite Hd, IH.
Qed.

(** The pattern of an address accepts what [formatAddress] builds and gives
    back its parts. *)
Lemma match_address_built first (ac ar : bool) ds c r :
  all_chars is_upper ds = true -> ds <> EmptyString ->
  is_digit19 c = true -> first c = true -> all_chars is_digit r = true ->
  match_address first
    (((if ac then "$" else "") ++ ds)
     ++ ((if ar then "$" else "") ++ String c r))%string
  = Some (ac, ds, ar, String c r).
Proof.
  intros Hds Hne Hc Hfirst Hr.
  pose proof (digit19_not_upper c Hc) as Hcu.
  pose proof (digit19_not_dollar c Hc) as Hcd.
  destruct ds as [|d ds]; [contradiction|].
  simpl in Hds. apply andb_prop in Hds as [Hd Hds].
  pose proof (upper_not_dollar d Hd) as Hdd.
  assert (Hspan : forall rest,
    match rest with String x _ => is_upper x = false | EmptyString => True end ->
    span is_upper (String d ds ++ rest) = (String d ds, rest)).
  { intros [|x rest] Hx.
    - simpl. rewrite Hd. clear - Hds.
      induction ds as [|e ds IH]; simpl in *; [reflexivity|].
      apply andb_prop in Hds as [He Hds]. rewrite He.
      specialize (IH Hds). destruct (span is_upper (ds ++ "")) as [a b].
      now inversion IH.
    - apply (span_upper_app (String d ds)); [simpl; now rewrite Hd|exact Hx]. }
  unfold match_address.
  destruct ac, ar; cbn [append optional_dollar];
    try (change (is_dollar "$") with true; cbv iota);
    rewrite ?Hdd.
  all: change (String d (ds ++ ?x)) with (String d ds ++ x)%string.
  all: rewrite Hspan by (first [ exact Hcu | reflexivity ]).
  all: cbn [optional_dollar]; try (change (is_dollar "$") with true; cbv iota);
    rewrite ?Hcd, Hfirst, Hr; reflexivity.
Qed.

Lemma string_snoc (s : string) :
  s = EmptyString \/ exists s' c, s = (s' ++ String c "")%string.
Proof.
  induction s as [|d s IH]; [now left | right].
  destruct IH as [->|(s' & c & ->)].
  - now exists EmptyString, d.
  - now exists (String d s'), c.
Qed.

Lemma upper_code c : is_upper c = true -> 1 <= charCode c - 64 <= 26.
Proof. intros H. by_code. Qed.

Lemma accumulate_upper_ge s : forall a,
  0 <= a -> all_chars is_upper s = true -> a <= accumulate 26 64 a s.
Proof.
  induction s as [|c s IH]; intros a Ha H; simpl in *; [lia|].
  apply andb_prop in H as [Hc Hs]. apply upper_code in Hc.
  specialize (IH (a * 26 + (charCode c - 64)) ltac:(lia) Hs). lia.
Qed.

(** [letters_loop] rebuilds a string of capitals from its value. *)
Lemma letters_loop_inverse fuel : forall s acc,
  all_chars is_upper s = true ->
  accumulate 26 64 0 s < 2 ^ Z.of_nat fuel ->
  letters_loop fuel (accumulate 26 64 0 s) acc = (s ++ acc)%string.
Proof.
  induction fuel as [|fuel IH]; intros s acc Hs Hlt;
    destruct (string_snoc s) as [->|(s' & c & ->)]; try reflexivity.
  - exfalso. rewrite all_chars_app in Hs. apply andb_prop in Hs as [Hs' Hc].
    cbn [all_chars] in Hc. rewrite andb_true_r in Hc. apply upper_code in Hc.
    rewrite accumulate_app in Hlt.
    pose proof (accumulate_upper_ge s' 0 ltac:(lia) Hs'). simpl in Hlt. lia.
  - rewrite all_chars_app in Hs. apply andb_prop in Hs as [Hs' Hc].
    cbn [all_chars] in Hc. rewrite andb_true_r in Hc. apply upper_code in Hc.
    rewrite accumulate_app in *. rewrite pow2_succ in Hlt.
    pose proof (accumulate_upper_ge s' 0 ltac:(lia) Hs') as Hv.
    set (v := accumulate 26 64 0 s') in *.
    set (k := charCode c - 64) in *.
    change (letters_loop (S fuel) (v * 26 + k) acc)
      with (if 0 <? v * 26 + k
            then letters_loop fuel ((v * 26 + k - 1) / 26)
                   (String (fromCharCode (65 + (v * 26 + k - 1) mod 26)) acc)
            else acc).
    destruct (Z.ltb_spec 0 (v * 26 + k)) as [_|]; [|lia].
    replace (v * 26 + k - 1) with (k - 1 + v * 26) by lia.
    rewrite Z.div_add, Z.mod_add, Z.div_small, Z.mod_small by lia.
    replace (65 + (k - 1)) with (charCode c) by (unfold k; lia).
    unfold charCode, fromCharCode. rewrite N2Z.id, ascii_N_embedding.
    simpl (0 + v). unfold v. rewrite IH by (try assumption; fold v; lia).
    apply append_snoc.
Qed.

Lemma colToLetter_letterToCol letters :
  all_chars is_upper letters = true -> colToLetter (letterToCol letters) = letters.
Proof.
  intros H. unfold colToLetter, letterToCol.
  rewrite letters_value_accumulate.
  replace (accumulate 26 64 0 letters - 1 + 1)
    with (accumulate 26 64 0 letters) by lia.
  pose proof (accumulate_upper_ge letters 0 ltac:(lia) H) as Hv.
  assert (Hnil : forall s : string, (s ++ "")%string = s).
  { induction s as [|d s IH]; simpl; [reflexivity | now rewrite IH]. }
  destruct (Z.eq_dec (accumulate 26 64 0 letters) 0) as [E|Hn].
  - rewrite E. destruct (string_snoc letters) as [->|(s' & c & ->)];
      [reflexivity|].
    exfalso. rewrite all_chars_app in H. apply andb_prop in H as [Hs' Hc].
    cbn [all_chars] in Hc. rewrite andb_true_r in Hc. apply upper_code in Hc.
    rewrite accumulate_app in E.
    pose proof (accumulate_upper_ge s' 0 ltac:(lia) Hs'). lia.
  - rewrite letters_loop_inverse by (try assumption; apply below_log2; lia).
    apply Hnil.
Qed.

(** C5 (as amended). For [col] and [row] from 0 to
    [Number.MAX_SAFE_INTEGER] and any two flags, [formatAddress] returns an
    address that [parseAddress] reads back as the same column, row and flags;
    [letterToCol] undoes [colToLetter] on every such column and [colToLetter]
    undoes [letterToCol] on every string of capitals that stands for such a
    column, with 0, 25, 26 and 701 written A, Z, AA and ZZ.  Up to the bound
    the doubles of the source, and their successors, are the integers used
    here; past it they are not, see [rows_above_MAX_SAFE_INTEGER_collide]. *)
Theorem address_round_trip (col row : Z) (ac ar : bool) :
  0 <= col <= MAX_SAFE_INTEGER -> 0 <= row <= MAX_SAFE_INTEGER ->
  (exists addr,
     formatAddress col row ac ar = Ok addr
     /\ parseAddress addr = Ok (mkAddress col row ac ar))
  /\ letterToCol (colToLetter col) = col
  /\ (forall letters, Text.all_chars Text.is_upper letters = true ->
      letterToCol letters <= MAX_SAFE_INTEGER ->
      colToLetter (letterToCol letters) = letters)
  /\ map colToLetter [0; 25; 26; 701] = ["A"; "Z"; "AA"; "ZZ"]
  /\ map letterToCol ["A"; "Z"; "AA"; "ZZ"] = [0; 25; 26; 701].
Proof.
  intros [Hcol _] [Hrow _].
  split; [|split; [now apply letterToCol_colToLetter|
                   split; [intros letters H _;
                           now apply colToLetter_letterToCol|]]].
  - destruct (colToLetter_spec col Hcol) as (ds & Eds & Hup & Hval & Hne).
    destruct (toString_spec (row + 1) ltac:(lia)) as
      (c & r & Er & Hc & Hr & Hrv & Hfirst).
    specialize (Hfirst ltac:(lia)).
    pose proof (match_address_built is_digit19 ac ar ds c r Hup Hne Hfirst
                  Hfirst Hr) as Hm.
    eexists. unfold formatAddress, toCellAddress.
    rewrite Eds, Er, Hm. split; [reflexivity|].
    unfold parseAddress. rewrite Hm. unfold letterToCol.
    rewrite letters_value_accumulate, Hval, Hrv. do 2 f_equal; lia.
  - split; reflexivity.
Qed.

(** An instance of [address_round_trip]: column 27, row 99, absolute
    column. *)
Lemma address_round_trip_witness :
  0 <= 27 <= MAX_SAFE_INTEGER /\ 0 <= 99 <= MAX_SAFE_INTEGER
  /\ formatAddress 27 99 true false = Ok "$AB100"
  /\ parseAddress "$AB100" = Ok (mkAddress 27 99 true false)
  /\ letterToCol (colToLetter 27) = 27
  /\ colToLetter (letterToCol "AB") = "AB".
Proof.
  assert (Hc : 0 <= 27 <= MAX_SAFE_INTEGER) by (split; [lia | discriminate]).
  assert (Hr : 0 <= 99 <= MAX_SAFE_INTEGER) by (split; [lia | discriminate]).
  split; [exact Hc|]. split; [exact Hr|].
  destruct (address_round_trip 27 99 true false Hc Hr) as (_ & H & Hl & _).
  split; [reflexivity|]. split; [reflexivity|]. split; [exact H|].
  apply Hl; [reflexivity | discriminate].
Defined.

(** C5, as it is stated, at the first row past [MAX_SAFE_INTEGER].  The
    rows 2^53 - 1 and 2^53 are two non-negative integers among the doubles,
    and adding one to either gives 2^53; so [formatAddress] writes one and
    the same address for both, whatever the host writes for 2^53, and
    [parseAddress] cannot read both rows back from it.  With the digits that
    the host does write for 2^53, the address of column 0 and row 2^53 is
    A9007199254740992, which [parseAddress] reads as row 2^53 - 1. *)
Lemma rows_above_MAX_SAFE_INTEGER_collide :
  MAX_SAFE_INTEGER = 9007199254740991
  /\ Prim2SF 9007199254740991%float = S754_finite false 9007199254740991 0
  /\ Prim2SF 9007199254740992%float = S754_finite false (2 ^ 52) 1
  /\ (9007199254740991 =? 9007199254740992)%float = false
  /\ (9007199254740991 + 1)%float = 9007199254740992%float
  /\ (9007199254740992 + 1)%float = 9007199254740992%float
  /\ (forall numberToString col ac ar,
        Double.formatAddress numberToString col 9007199254740992 ac ar
        = Double.formatAddress numberToString col 9007199254740991 ac ar)
  /\ (forall numberToString,
        numberToString 9007199254740992%float = "9007199254740992" ->
        Double.formatAddress numberToString 0 9007199254740992 false false
        = Ok "A9007199254740992")
  /\ parseAddress "A9007199254740992"
     = Ok (mkAddress 0 9007199254740991 false false).
Proof.
  repeat split. intros numberToString H.
  unfold Double.formatAddress, Double.rowStr.
  change (9007199254740992 + 1)%float with 9007199254740992%float.
  rewrite H. reflexivity.
Qed.

End CodecFacts.

(** *** More of the address helpers *)

Module AddressFacts.
Import Text Types Codec CodecFacts.

Lemma is_dollar_eq c : is_dollar c = true -> c = "$"%char.
Proof.
  unfold is_dollar, charCode. intros H. apply Z.eqb_eq in H.
  rewrite <- (ascii_N_embedding c).
  replace (N_of_ascii c) with 36%N by lia. reflexivity.
Qed.

Lemma span_spec p s : forall a b,
  span p s = (a, b) ->
  s = (a ++ b)%string /\ all_chars p a = true
  /\ match b with String x _ => p x = false | EmptyString => True end.
Proof.
  induction s as [|c s IH]; intros a b H; simpl in H.
  - inversion H. repeat split.
  - destruct (p c) eqn:Hc.
    + destruct (span p s) as [a' b'] eqn:E. inversion H; subst.
      destruct (IH a' b eq_refl) as (-> & Ha & Hb).
      repeat split; simpl; [now rewrite Hc | exact Hb].
    + inversion H; subst. repeat split. exact Hc.
Qed.

Lemma optional_dollar_spec s flag rest :
  optional_dollar s = (flag, rest) ->
  s = ((if flag then "$" else "") ++ rest)%string
  /\ (flag = false -> match rest with String x _ => is_dollar x = false | EmptyString => True end).
Proof.
  destruct s as [|c s]; simpl; intros H.
  - inversion H. now split.
  - destruct (is_dollar c) eqn:Hc; inversion H; subst.
    + apply is_dollar_eq in Hc. subst. now split.
    + now split.
Qed.

(** What the pattern of an address accepts is made of its four groups. *)
Lemma match_address_inv first s ca letters ra ds :
  match_address first s = Some (ca, letters, ra, ds) ->
  s = (((if ca then "$" else "") ++ letters)
       ++ ((if ra then "$" else "") ++ ds))%string
  /\ all_chars is_upper letters = true /\ letters <> EmptyString
  /\ exists c r, ds = String c r /\ first c = true /\ all_chars is_digit r = true.
Proof.
  unfold match_address.
  destruct (optional_dollar s) as [ca' s1] eqn:E1.
  destruct (span is_upper s1) as [ls s2] eqn:E2.
  destruct ls as [|l ls]; [discriminate|].
  destruct (optional_dollar s2) as [ra' s3] eqn:E3.
  destruct s3 as [|c r]; [discriminate|].
  destruct (first c && all_chars is_digit r) eqn:E4; [|discriminate].
  intros H. inversion H; subst. clear H.
  apply optional_dollar_spec in E1 as [-> _].
  apply span_spec in E2 as (-> & Hup & _).
  apply optional_dollar_spec in E3 as [-> _].
  apply andb_prop in E4 as [Hc Hr].
  repeat split; try assumption; try discriminate.
  - destruct ca; reflexivity.
  - now exists c, r.
Qed.

Lemma digit_code c : is_digit c = true -> 0 <= charCode c - 48 <= 9.
Proof. intros H. by_code. Qed.

Lemma digit19_code c : is_digit19 c = true -> 1 <= charCode c - 48 <= 9.
Proof. intros H. by_code. Qed.

Lemma accumulate_digits_ge s : forall a,
  0 <= a -> all_chars is_digit s = true -> a <= accumulate 10 48 a s.
Proof.
  induction s as [|c s IH]; intros a Ha H; simpl in *; [lia|].
  apply andb_prop in H as [Hc Hs]. apply digit_code in Hc.
  specialize (IH (a * 10 + (charCode c - 48)) ltac:(lia) Hs). lia.
Qed.

(** [numeral_loop] rebuilds a numeral without a leading zero from its
    value. *)
Lemma numeral_loop_inverse fuel : forall s acc,
  all_chars is_digit s = true ->
  match s with String c _ => is_digit19 c = true | EmptyString => False end ->
  accumulate 10 48 0 s < 2 * 2 ^ Z.of_nat fuel ->
  numeral_loop fuel (accumulate 10 48 0 s) acc = (s ++ acc)%string.
Proof.
  assert (Hchar : forall c, fromCharCode (48 + (charCode c - 48)) = c).
  { intros c. replace (48 + (charCode c - 48)) with (charCode c) by lia.
    unfold charCode, fromCharCode. now rewrite N2Z.id, ascii_N_embedding. }
  induction fuel as [|fuel IH]; intros s acc Hs Hfirst Hlt;
    destruct (string_snoc s) as [->|(s' & c & ->)]; try contradiction.
  - rewrite all_chars_app in Hs. apply andb_prop in Hs as [Hs' Hc].
    cbn [all_chars] in Hc. rewrite andb_true_r in Hc. apply digit_code in Hc.
    rewrite accumulate_app in *.
    destruct s' as [|d s'].
    + cbn [accumulate numeral_loop append]. rewrite Z.mod_small by lia.
      simpl (0 * 10 + _). now rewrite Hchar.
    + exfalso. cbn [append] in Hfirst. apply digit19_code in Hfirst.
      cbn [all_chars] in Hs'. apply andb_prop in Hs' as [_ Hs'].
      cbn [accumulate] in Hlt.
      pose proof (accumulate_digits_ge s' (0 * 10 + (charCode d - 48))
                    ltac:(lia) Hs').
      change (2 * 2 ^ Z.of_nat 0) with 2 in Hlt. lia.
  - rewrite all_chars_app in Hs. apply andb_prop in Hs as [Hs' Hc].
    cbn [all_chars] in Hc. rewrite andb_true_r in Hc. apply digit_code in Hc.
    rewrite accumulate_app in *. rewrite pow2_succ in Hlt.
    set (v := accumulate 10 48 0 s') in *.
    set (k := charCode c - 48) in *.
    change (numeral_loop (S fuel) (v * 10 + k) acc)
      with (if v * 10 + k <? 10
            then String (fromCharCode (48 + (v * 10 + k) mod 10)) acc
            else numeral_loop fuel ((v * 10 + k) / 10)
                   (String (fromCharCode (48 + (v * 10 + k) mod 10)) acc)).
    replace (v * 10 + k) with (k + v * 10) by lia.
    rewrite Z.div_add, Z.mod_add, Z.div_small, Z.mod_small by lia.
    unfold k at 2 3. rewrite Hchar.
    destruct s' as [|d s'].
    + subst v. cbn [accumulate append]. replace (k + 0 * 10) with k by lia.
      destruct (Z.ltb_spec k 10); [reflexivity | lia].
    + cbn [append] in Hfirst. pose proof (digit19_code d Hfirst) as Hd.
      assert (Hv : 1 <= v).
      { subst v. cbn [all_chars] in Hs'. apply andb_prop in Hs' as [_ Hs'].
        cbn [accumulate].
        pose proof (accumulate_digits_ge s' (0 * 10 + (charCode d - 48))
                      ltac:(lia) Hs'). lia. }
      destruct (Z.ltb_spec (k + v * 10) 10) as [|_]; [lia|].
      simpl (0 + v). unfold v. rewrite IH; try assumption; [apply append_snoc | fold v; lia].
Qed.

Lemma append_empty (s : string) : (s ++ "")%string = s.
Proof. induction s as [|d s IH]; simpl; [reflexivity | now rewrite IH]. Qed.

Lemma toString_digits_value c r :
  is_digit19 c = true -> all_chars is_digit r = true ->
  toString (digits_value (String c r)) = String c r.
Proof.
  intros Hc Hr. rewrite digits_value_accumulate.
  assert (Hs : all_chars is_digit (String c r) = true).
  { cbn [all_chars]. now rewrite (digit19_digit c Hc). }
  assert (Hv : 1 <= accumulate 10 48 0 (String c r)).
  { cbn [accumulate]. apply digit19_code in Hc.
    pose proof (accumulate_digits_ge r (0 * 10 + (charCode c - 48)) ltac:(lia) Hr).
    lia. }
  unfold toString, numeral.
  destruct (Z.ltb_spec (accumulate 10 48 0 (String c r)) 0) as [|_]; [lia|].
  rewrite numeral_loop_inverse; [apply append_empty | exact Hs | exact Hc |].
  rewrite <- pow2_succ. apply below_log2. lia.
Qed.

(** An address that parses is the address written from its parts. *)
Lemma parsed_written addr a :
  parseAddress addr = Ok a ->
  written (col a) (row a) (absoluteCol a) (absoluteRow a) = addr
  /\ toCellAddress addr = Ok addr.
Proof.
  unfold parseAddress.
  destruct (match_address is_digit19 addr) as [[[[ca ls] ra] ds]|] eqn:E;
    [|discriminate].
  intros H. inversion H; subst a; clear H. cbn [col row absoluteCol absoluteRow].
  pose proof E as Hm.
  apply match_address_inv in E as (Haddr & Hup & Hne & c & r & -> & Hc & Hr).
  unfold written.
  rewrite (colToLetter_letterToCol ls Hup).
  replace (digits_value (String c r) - 1 + 1) with (digits_value (String c r))
    by lia.
  rewrite (toString_digits_value c r Hc Hr), <- Haddr.
  unfold toCellAddress. now rewrite Hm.
Qed.

(** X1. Whatever [parseAddress] accepts, [formatAddress] writes back
    from the parsed column, row and flags, character for character. *)
Theorem formatAddress_parseAddress (addr : string) (a : Address) :
  parseAddress addr = Ok a ->
  col a < MAX_SAFE_INTEGER -> row a < MAX_SAFE_INTEGER ->
  formatAddress (col a) (row a) (absoluteCol a) (absoluteRow a) = Ok addr.
Proof.
  intros H _ _. destruct (parsed_written addr a H) as [Hw Hc].
  unfold formatAddress. fold (written (col a) (row a) (absoluteCol a) (absoluteRow a)).
  now rewrite Hw.
Qed.

Lemma formatAddress_parseAddress_witness :
  parseAddress "$AB$100" = Ok (mkAddress 27 99 true true)
  /\ 27 < MAX_SAFE_INTEGER /\ 99 < MAX_SAFE_INTEGER
  /\ formatAddress 27 99 true true = Ok "$AB$100".
Proof.
  split; [reflexivity|]. split; [reflexivity|]. split; [reflexivity|].
  exact (formatAddress_parseAddress "$AB$100" (mkAddress 27 99 true true)
           eq_refl eq_refl eq_refl).
Defined.

Lemma letters_value_pos letters :
  all_chars is_upper letters = true -> letters <> EmptyString ->
  1 <= letters_value letters.
Proof.
  intros Hup Hne. rewrite letters_value_accumulate.
  destruct letters as [|c r]; [contradiction|].
  cbn [all_chars] in Hup. apply andb_prop in Hup as [Hc Hr].
  apply upper_code in Hc. cbn [accumulate].
  pose proof (accumulate_upper_ge r (0 * 26 + (charCode c - 64)) ltac:(lia) Hr).
  lia.
Qed.

Lemma digits_value_pos c r :
  is_digit19 c = true -> all_chars is_digit r = true ->
  1 <= digits_value (String c r).
Proof.
  intros Hc Hr. rewrite digits_value_accumulate. cbn [accumulate].
  apply digit19_code in Hc.
  pose proof (accumulate_digits_ge r (0 * 10 + (charCode c - 48)) ltac:(lia) Hr).
  lia.
Qed.

Lemma parseAddress_nonneg addr a :
  parseAddress addr = Ok a -> 0 <= col a /\ 0 <= row a.
Proof.
  unfold parseAddress.
  destruct (match_address is_digit19 addr) as [[[[ca ls] ra] ds]|] eqn:E;
    [|discriminate].
  intros H. inversion H; subst a; clear H. cbn [col row].
  apply match_address_inv in E as (_ & Hup & Hne & c & r & -> & Hc & Hr).
  pose proof (letters_value_pos ls Hup Hne).
  pose proof (digits_value_pos c r Hc Hr).
  unfold letterToCol. lia.
Qed.

(** X2. The three readers of an address accept the same strings:
    [toCellAddress] returns its argument exactly when [parseAddress] returns,
    [parseCellAddress] then returns the column and the row that
    [parseAddress] returns, and neither coordinate is negative. *)
Theorem address_readers_agree (addr : string) :
  (toCellAddress addr = Ok addr <-> exists a, parseAddress addr = Ok a)
  /\ (forall a, parseAddress addr = Ok a ->
        parseCellAddress addr = Ok (col a, row a) /\ 0 <= col a /\ 0 <= row a)
  /\ (forall cr, parseCellAddress addr = Ok cr ->
        exists a, parseAddress addr = Ok a /\ cr = (col a, row a)).
Proof.
  split; [|split].
  - unfold toCellAddress, parseAddress.
    destruct (match_address is_digit19 addr) as [[[[ca ls] ra] ds]|].
    + split; [eexists; reflexivity | reflexivity].
    + split; [discriminate | intros [a H]; discriminate].
  - intros a H. split; [|exact (parseAddress_nonneg addr a H)].
    revert H. unfold parseAddress, parseCellAddress.
    destruct (match_address is_digit19 addr) as [[[[ca ls] ra] ds]|];
      [|discriminate].
    intros H. inversion H. reflexivity.
  - intros cr. unfold parseAddress, parseCellAddress.
    destruct (match_address is_digit19 addr) as [[[[ca ls] ra] ds]|];
      [|discriminate].
    intros H. inversion H. eexists. split; reflexivity.
Qed.

(** X3. For non-negative coordinates [formatCellAddress] writes the
    address that [formatAddress] writes without flags, and
    [parseCellAddress] reads the coordinates back from it. *)
Theorem cell_address_round_trip (col row : Z) :
  0 <= col < MAX_SAFE_INTEGER -> 0 <= row < MAX_SAFE_INTEGER ->
  exists addr,
    formatCellAddress col row = Ok addr
    /\ formatAddress col row false false = Ok addr
    /\ parseCellAddress addr = Ok (col, row).
Proof.
  intros [Hcol _] [Hrow _].
  destruct (colToLetter_spec col Hcol) as (ds & Eds & Hup & Hval & Hne).
  destruct (toString_spec (row + 1) ltac:(lia)) as
    (c & r & Er & Hc & Hr & Hrv & Hfirst).
  specialize (Hfirst ltac:(lia)).
  pose proof (match_address_built is_digit19 false false ds c r Hup Hne Hfirst
                Hfirst Hr) as Hm.
  cbn [append] in Hm.
  exists (ds ++ String c r)%string.
  unfold formatCellAddress, formatAddress, toCellAddress, colToLetter in *.
  destruct (Z.ltb_spec col 0) as [|_]; [lia|].
  destruct (Z.ltb_spec row 0) as [|_]; [lia|].
  cbn [orb append]. rewrite Eds, Er, Hm.
  repeat split. unfold parseCellAddress. rewrite Hm.
  rewrite letters_value_accumulate, Hval, Hrv. do 2 f_equal; lia.
Qed.

Lemma cell_address_round_trip_witness :
  0 <= 701 < MAX_SAFE_INTEGER /\ 0 <= 41 < MAX_SAFE_INTEGER
  /\ exists addr,
       formatCellAddress 701 41 = Ok addr
       /\ formatAddress 701 41 false false = Ok addr
       /\ parseCellAddress addr = Ok (701, 41).
Proof.
  assert (H1 : 0 <= 701 < MAX_SAFE_INTEGER) by (split; reflexivity || discriminate).
  assert (H2 : 0 <= 41 < MAX_SAFE_INTEGER) by (split; reflexivity || discriminate).
  split; [exact H1|]. split; [exact H2|].
  exact (cell_address_round_trip 701 41 H1 H2).
Defined.

(** The pattern of an address on a string made of an optional dollar sign,
    capitals, an optional dollar sign and a rest that starts with neither a
    capital nor a dollar sign. *)
Lemma match_address_groups first (ac ar : bool) ls c r :
  all_chars is_upper ls = true ->
  is_upper c = false -> is_dollar c = false ->
  match_address first
    (((if ac then "$" else "") ++ ls)
     ++ ((if ar then "$" else "") ++ String c r))%string
  = match ls with
    | EmptyString => None
    | _ => if first c && all_chars is_digit r
           then Some (ac, ls, ar, String c r) else None
    end.
Proof.
  intros Hls Hcu Hcd.
  assert (Hd : is_dollar "$" = true) by reflexivity.
  assert (Hu : is_upper "$" = false) by reflexivity.
  destruct ls as [|l ls].
  - unfold match_address.
    destruct ac, ar; cbn [append optional_dollar span];
      rewrite ?Hd, ?Hcd; cbn [span]; rewrite ?Hu, ?Hcu; reflexivity.
  - cbn [all_chars] in Hls. apply andb_prop in Hls as [Hl Hls].
    pose proof (upper_not_dollar l Hl) as Hld.
    assert (Hspan : forall x rest, is_upper x = false ->
      span is_upper (String l ls ++ String x rest) = (String l ls, String x rest)).
    { intros x rest Hx.
      apply (span_upper_app (String l ls)); [simpl; now rewrite Hl | exact Hx]. }
    unfold match_address.
    destruct ac, ar; cbn [append optional_dollar]; rewrite ?Hd, ?Hld.
    all: change (String l (ls ++ ?x)) with (String l ls ++ x)%string.
    all: rewrite Hspan by (first [ exact Hcu | exact Hu ]).
    all: cbn [optional_dollar]; rewrite ?Hd, ?Hcd; reflexivity.
Qed.

Lemma toString_nonpositive n :
  n <= 0 ->
  exists c r, toString n = String c r
    /\ is_upper c = false /\ is_dollar c = false /\ is_digit19 c = false.
Proof.
  intros H. unfold toString.
  destruct (Z.ltb_spec n 0) as [Hneg|Hge].
  - exists "-"%char, (numeral (- n)). repeat split.
  - replace n with 0 by lia. exists "0"%char, EmptyString. repeat split.
Qed.

Lemma colToLetter_negative col : col < 0 -> colToLetter col = EmptyString.
Proof.
  intros H. unfold colToLetter, letters_fuel. cbn [letters_loop].
  destruct (Z.ltb_spec 0 (col + 1)); [lia | reflexivity].
Qed.

Lemma formatAddress_throws col row ac ar :
  col < 0 \/ row < 0 -> exists m, formatAddress col row ac ar = Throw m.
Proof.
  intros H. unfold formatAddress, toCellAddress.
  assert (Hu : all_chars is_upper (colToLetter col) = true
               /\ (0 <= col -> colToLetter col <> EmptyString)).
  { destruct (Z.lt_ge_cases col 0) as [Hc|Hc].
    - rewrite colToLetter_negative by assumption. split; [reflexivity | lia].
    - destruct (colToLetter_spec col Hc) as (ds & -> & Hup & _ & Hne).
      now split. }
  destruct Hu as [Hup Hne].
  destruct (Z.lt_ge_cases row 0) as [Hr|Hr].
  - destruct (toString_nonpositive (row + 1) ltac:(lia))
      as (c & r & -> & Hcu & Hcd & Hc19).
    rewrite (match_address_groups is_digit19 ac ar _ c r Hup Hcu Hcd).
    rewrite Hc19. cbn [andb].
    destruct (colToLetter col); eexists; reflexivity.
  - destruct (toString_spec (row + 1) ltac:(lia))
      as (c & r & -> & _ & _ & _ & Hfirst).
    specialize (Hfirst ltac:(lia)).
    rewrite (match_address_groups is_digit19 ac ar _ c r Hup
               (digit19_not_upper c Hfirst) (digit19_not_dollar c Hfirst)).
    rewrite colToLetter_negative by lia. eexists; reflexivity.
Qed.

(** X4. No address is written for a negative coordinate:
    [formatCellAddress] and [formatAddress] both throw when the column or
    the row is negative, whatever the flags. *)
Theorem negative_coordinates_are_refused (col row : Z) (ac ar : bool) :
  col < 0 \/ row < 0 ->
  (exists m, formatCellAddress col row = Throw m)
  /\ (exists m, formatAddress col row ac ar = Throw m).
Proof.
  intros H. split; [|now apply formatAddress_throws].
  unfold formatCellAddress.
  destruct (Z.ltb_spec col 0), (Z.ltb_spec row 0); try lia;
    cbn [orb]; eexists; reflexivity.
Qed.

Lemma negative_coordinates_are_refused_witness :
  (-1 < 0 \/ 4 < 0)
  /\ (exists m, formatCellAddress (-1) 4 = Throw m)
  /\ (exists m, formatAddress (-1) 4 true false = Throw m).
Proof.
  split; [left; lia|].
  apply (negative_coordinates_are_refused (-1) 4 true false). left. lia.
Defined.


Lemma formatAddress_written col row ac ar :
  0 <= col -> 0 <= row ->
  formatAddress col row ac ar = Ok (written col row ac ar)
  /\ parseAddress (written col row ac ar) = Ok (mkAddress col row ac ar).
Proof.
  intros Hcol Hrow. unfold written.
  destruct (colToLetter_spec col Hcol) as (ds & Eds & Hup & Hval & Hne).
  destruct (toString_spec (row + 1) ltac:(lia)) as
    (c & r & Er & Hc & Hr & Hrv & Hfirst).
  specialize (Hfirst ltac:(lia)).
  pose proof (match_address_built is_digit19 ac ar ds c r Hup Hne Hfirst
                Hfirst Hr) as Hm.
  unfold formatAddress, toCellAddress, parseAddress.
  rewrite Eds, Er, Hm. split; [reflexivity|].
  unfold letterToCol. rewrite letters_value_accumulate, Hval, Hrv.
  do 2 f_equal; lia.
Qed.

Lemma In_interval lo hi x : In x (interval lo hi) <-> lo <= x <= hi.
Proof.
  unfold interval. rewrite in_map_iff. split.
  - intros (i & <- & Hi). apply in_seq in Hi. lia.
  - intros H. exists (Z.to_nat (x - lo)). split; [lia|].
    apply in_seq. lia.
Qed.

Lemma length_interval lo hi : List.length (interval lo hi) = Z.to_nat (hi - lo + 1).
Proof. unfold interval. now rewrite length_map, length_seq. Qed.

Lemma collect_map {A B} (f : A -> outcome B) (g : A -> B) l :
  (forall x, In x l -> f x = Ok (g x)) -> collect f l = Ok (map g l).
Proof.
  induction l as [|a l IH]; intros H; [reflexivity|].
  cbn [collect map]. rewrite (H a (or_introl eq_refl)).
  cbn [bind_outcome]. rewrite IH; [reflexivity|].
  intros x Hx. apply H. now right.
Qed.

Lemma length_rectangle (cs rs : list Z) :
  List.length (flat_map (fun c => map (fun r => (c, r)) rs) cs)
  = (List.length cs * List.length rs)%nat.
Proof.
  induction cs as [|c cs IH]; [reflexivity|].
  cbn [flat_map]. rewrite length_app, length_map, IH. reflexivity.
Qed.

Lemma In_rectangle (cs rs : list Z) c r :
  In (c, r) (flat_map (fun c => map (fun r => (c, r)) rs) cs)
  <-> In c cs /\ In r rs.
Proof.
  rewrite in_flat_map. split.
  - intros (c' & Hc & H). apply in_map_iff in H as (r' & E & Hr).
    inversion E; subst. now split.
  - intros [Hc Hr]. exists c. split; [assumption|].
    apply in_map_iff. now exists r.
Qed.

(** X5. For two addresses that parse, [getCellsInRange] returns the
    addresses of the rectangle between them, whichever corner comes first
    and whatever their flags: as many addresses as the rectangle has cells,
    and exactly the addresses that [formatAddress] writes without flags for
    a column and a row inside it. *)
Theorem getCellsInRange_rectangle (startAddr endAddr : string) (a b : Address) :
  parseAddress startAddr = Ok a -> parseAddress endAddr = Ok b ->
  Z.max (col a) (col b) < MAX_SAFE_INTEGER ->
  Z.max (row a) (row b) < MAX_SAFE_INTEGER ->
  exists cells,
    getCellsInRange startAddr endAddr = Ok cells
    /\ getCellsInRange endAddr startAddr = Ok cells
    /\ Z.of_nat (List.length cells)
       = (Z.abs (col a - col b) + 1) * (Z.abs (row a - row b) + 1)
    /\ forall x, In x cells <->
         exists c r,
           Z.min (col a) (col b) <= c <= Z.max (col a) (col b)
           /\ Z.min (row a) (row b) <= r <= Z.max (row a) (row b)
           /\ formatAddress c r false false = Ok x.
Proof.
  intros Ha Hb _ _.
  destruct (parseAddress_nonneg _ _ Ha) as [Hac Har].
  destruct (parseAddress_nonneg _ _ Hb) as [Hbc Hbr].
  set (pairs := flat_map
         (fun c => map (fun r => (c, r))
                     (interval (Z.min (row a) (row b)) (Z.max (row a) (row b))))
         (interval (Z.min (col a) (col b)) (Z.max (col a) (col b)))).
  assert (Hpairs : forall cr, In cr pairs ->
            formatAddress (fst cr) (snd cr) false false
            = Ok (written (fst cr) (snd cr) false false)).
  { intros [c r] H. apply In_rectangle in H as [Hc Hr].
    apply In_interval in Hc, Hr.
    apply formatAddress_written; cbn [fst snd]; lia. }
  exists (map (fun cr => written (fst cr) (snd cr) false false) pairs).
  split; [|split; [|split]].
  - unfold getCellsInRange. rewrite Ha, Hb. cbn [bind_outcome].
    now apply collect_map.
  - unfold getCellsInRange. rewrite Ha, Hb. cbn [bind_outcome].
    rewrite (Z.min_comm (col b)), (Z.max_comm (col b)),
      (Z.min_comm (row b)), (Z.max_comm (row b)).
    now apply collect_map.
  - rewrite length_map. unfold pairs.
    rewrite length_rectangle, !length_interval. lia.
  - intros x. rewrite in_map_iff. split.
    + intros ([c r] & <- & H). exists c, r.
      pose proof (Hpairs _ H) as Hw.
      apply In_rectangle in H as [Hc Hr]. apply In_interval in Hc, Hr.
      now repeat split.
    + intros (c & r & Hc & Hr & Hw). exists (c, r).
      assert (Hin : In (c, r) pairs).
      { apply In_rectangle. split; now apply In_interval. }
      split; [|exact Hin].
      specialize (Hpairs _ Hin). cbn [fst snd] in *. congruence.
Qed.

Lemma getCellsInRange_rectangle_witness :
  parseAddress "$B$3" = Ok (mkAddress 1 2 true true)
  /\ parseAddress "A2" = Ok (mkAddress 0 1 false false)
  /\ Z.max 1 0 < MAX_SAFE_INTEGER /\ Z.max 2 1 < MAX_SAFE_INTEGER
  /\ exists cells,
       getCellsInRange "$B$3" "A2" = Ok cells
       /\ getCellsInRange "A2" "$B$3" = Ok cells
       /\ Z.of_nat (List.length cells) = 4.
Proof.
  split; [reflexivity|]. split; [reflexivity|].
  split; [reflexivity|]. split; [reflexivity|].
  destruct (getCellsInRange_rectangle "$B$3" "A2" _ _ eq_refl eq_refl
              eq_refl eq_refl)
    as (cells & H1 & H2 & H3 & _).
  exists cells. repeat split; assumption.
Defined.

Lemma isValidAddress_written col row rows cols :
  0 <= col < cols -> 0 <= row < rows ->
  isValidAddress (written col row false false) rows cols = true.
Proof.
  intros Hc Hr. unfold isValidAddress.
  destruct (formatAddress_written col row false false) as [_ ->]; try lia.
  cbn [Codec.col Codec.row].
  repeat (apply andb_true_intro; split);
    first [apply Z.leb_le | apply Z.ltb_lt]; lia.
Qed.

Lemma isValidAddress_inv addr rows cols :
  isValidAddress addr rows cols = true ->
  exists a, parseAddress addr = Ok a /\ 0 <= col a < cols /\ 0 <= row a < rows.
Proof.
  unfold isValidAddress. destruct (parseAddress addr) as [a| |]; try discriminate.
  intros H. exists a. split; [reflexivity|].
  repeat (apply andb_prop in H as [H ?]).
  repeat match goal with
    | H : (_ <=? _) = true |- _ => apply Z.leb_le in H
    | H : (_ <? _) = true |- _ => apply Z.ltb_lt in H
    end. lia.
Qed.

Lemma getNeighbor_step addr d rows cols a :
  parseAddress addr = Ok a ->
  getNeighbor addr d rows cols
  = let (c, r) := move d (col a) (row a) in
    if (0 <=? c) && (c <? cols) && (0 <=? r) && (r <? rows)
    then Ok (Some (written c r false false)) else Ok None.
Proof.
  intros Ha. unfold getNeighbor. rewrite Ha. cbn [bind_outcome].
  destruct (move d (col a) (row a)) as [c r].
  destruct (Z.ltb_spec c 0), (Z.leb_spec cols c), (Z.ltb_spec r 0),
    (Z.leb_spec rows r), (Z.leb_spec 0 c), (Z.ltb_spec c cols),
    (Z.leb_spec 0 r), (Z.ltb_spec r rows); try lia; cbn [orb andb];
    try reflexivity.
  destruct (formatAddress_written c r false false) as [-> _]; try lia.
  reflexivity.
Qed.

(** X6. On an address that parses, [getNeighbor] never throws; what it
    returns is [null] or an address that [isValidAddress] accepts for the
    same bounds, without flags, one step away in the direction asked. *)
Theorem getNeighbor_stays_inside (addr : string) (d : Direction)
    (rows cols : Z) (a : Address) :
  parseAddress addr = Ok a ->
  col a < MAX_SAFE_INTEGER -> row a < MAX_SAFE_INTEGER ->
  exists res,
    getNeighbor addr d rows cols = Ok res
    /\ forall n, res = Some n ->
         isValidAddress n rows cols = true
         /\ exists c r, move d (col a) (row a) = (c, r)
              /\ parseAddress n = Ok (mkAddress c r false false).
Proof.
  intros Ha _ _. rewrite (getNeighbor_step addr d rows cols a Ha).
  destruct (move d (col a) (row a)) as [c r].
  destruct ((0 <=? c) && (c <? cols) && (0 <=? r) && (r <? rows)) eqn:E.
  - eexists. split; [reflexivity|]. intros n Hn. inversion Hn; subst n.
    repeat (apply andb_prop in E as [E ?]).
    repeat match goal with
      | H : (_ <=? _) = true |- _ => apply Z.leb_le in H
      | H : (_ <? _) = true |- _ => apply Z.ltb_lt in H
      end.
    split; [apply isValidAddress_written; lia|].
    exists c, r. split; [reflexivity|].
    apply formatAddress_written; lia.
  - eexists. split; [reflexivity|]. discriminate.
Qed.

Lemma getNeighbor_stays_inside_witness :
  parseAddress "$C$7" = Ok (mkAddress 2 6 true true)
  /\ 2 < MAX_SAFE_INTEGER /\ 6 < MAX_SAFE_INTEGER
  /\ exists res,
       getNeighbor "$C$7" Left 20 10 = Ok res
       /\ forall n, res = Some n ->
            isValidAddress n 20 10 = true
            /\ exists c r, move Left 2 6 = (c, r)
                 /\ parseAddress n = Ok (mkAddress c r false false).
Proof.
  split; [reflexivity|]. split; [reflexivity|]. split; [reflexivity|].
  exact (getNeighbor_stays_inside "$C$7" Left 20 10 _ eq_refl eq_refl eq_refl).
Defined.

(** X7. From an address inside the bounds, a step that [getNeighbor]
    grants can be taken back: the opposite step from the neighbour is granted
    too and leads to the column and the row of the address started from. *)
Theorem getNeighbor_back (addr n : string) (d : Direction) (rows cols : Z) :
  rows <= MAX_SAFE_INTEGER -> cols <= MAX_SAFE_INTEGER ->
  isValidAddress addr rows cols = true ->
  getNeighbor addr d rows cols = Ok (Some n) ->
  exists a back,
    parseAddress addr = Ok a
    /\ getNeighbor n (opposite d) rows cols = Ok (Some back)
    /\ parseAddress back = Ok (mkAddress (col a) (row a) false false).
Proof.
  intros _ _ Hv Hn. apply isValidAddress_inv in Hv as (a & Ha & Hc & Hr).
  rewrite (getNeighbor_step addr d rows cols a Ha) in Hn.
  destruct (move d (col a) (row a)) as [c r] eqn:Em.
  destruct ((0 <=? c) && (c <? cols) && (0 <=? r) && (r <? rows)) eqn:E;
    [|discriminate].
  inversion Hn; subst n; clear Hn.
  repeat (apply andb_prop in E as [E ?]).
  repeat match goal with
    | H : (_ <=? _) = true |- _ => apply Z.leb_le in H
    | H : (_ <? _) = true |- _ => apply Z.ltb_lt in H
    end.
  destruct (formatAddress_written c r false false) as [_ Hp]; try lia.
  exists a, (written (col a) (row a) false false).
  split; [exact Ha|].
  rewrite (getNeighbor_step _ (opposite d) rows cols _ Hp).
  cbn [col row].
  assert (Eback : move (opposite d) c r = (col a, row a)).
  { destruct d; cbn [move opposite] in *; inversion Em; f_equal; lia. }
  rewrite Eback.
  destruct (Z.leb_spec 0 (col a)), (Z.ltb_spec (col a) cols),
    (Z.leb_spec 0 (row a)), (Z.ltb_spec (row a) rows); try lia.
  cbn [andb]. split; [reflexivity|].
  apply formatAddress_written; lia.
Qed.

Lemma getNeighbor_back_witness :
  20 <= MAX_SAFE_INTEGER /\ 10 <= MAX_SAFE_INTEGER
  /\ isValidAddress "C7" 20 10 = true
  /\ getNeighbor "C7" Up 20 10 = Ok (Some "C6")
  /\ exists a back,
       parseAddress "C7" = Ok a
       /\ getNeighbor "C6" Down 20 10 = Ok (Some back)
       /\ parseAddress back = Ok (mkAddress (col a) (row a) false false).
Proof.
  assert (H20 : 20 <= MAX_SAFE_INTEGER) by discriminate.
  assert (H10 : 10 <= MAX_SAFE_INTEGER) by discriminate.
  split; [exact H20|]. split; [exact H10|].
  split; [reflexivity|]. split; [reflexivity|].
  exact (getNeighbor_back "C7" "C6" Up 20 10 H20 H10 eq_refl eq_refl).
Defined.

Lemma adjust_unchanged inserted deleted absolute n :
  absolute = true \/ inserted = deleted ->
  adjust inserted deleted absolute n = n.
Proof.
  unfold adjust. intros [->|<-].
  - destruct inserted, deleted; reflexivity.
  - destruct inserted as [i|]; [|reflexivity].
    destruct absolute; cbn [negb andb]; [reflexivity|].
    destruct (Z.leb_spec i n).
    + destruct (Z.ltb_spec i (n + 1)); lia.
    + destruct (Z.ltb_spec i n); lia.
Qed.

(** X8. [adjustReference] returns the address it was given, character
    for character, when on each axis the caller marks the axis absolute or
    the same position is inserted and deleted (in particular when nothing is
    inserted or deleted). *)
Theorem adjustReference_unchanged (addr : string) (a : Address)
    (insertedAt deletedAt : Position) (isAbsolute : Absolute) :
  parseAddress addr = Ok a ->
  col a < MAX_SAFE_INTEGER -> row a < MAX_SAFE_INTEGER ->
  abs_row isAbsolute = true \/ at_row insertedAt = at_row deletedAt ->
  abs_col isAbsolute = true \/ at_col insertedAt = at_col deletedAt ->
  adjustReference addr insertedAt deletedAt isAbsolute = Ok addr.
Proof.
  intros Ha _ _ Hr Hc. unfold adjustReference. rewrite Ha. cbn [bind_outcome].
  rewrite (adjust_unchanged _ _ _ _ Hr), (adjust_unchanged _ _ _ _ Hc).
  destruct (parsed_written addr a Ha) as [Hw Hok].
  unfold formatAddress.
  fold (written (col a) (row a) (absoluteCol a) (absoluteRow a)).
  now rewrite Hw.
Qed.

Lemma adjustReference_unchanged_witness :
  parseAddress "B$4" = Ok (mkAddress 1 3 false true)
  /\ 1 < MAX_SAFE_INTEGER /\ 3 < MAX_SAFE_INTEGER
  /\ (true = true \/ Some 2 = None)
  /\ (false = true \/ Some 1 = Some 1)
  /\ adjustReference "B$4" (mkPosition (Some 2) (Some 1))
       (mkPosition None (Some 1)) (mkAbsolute false true) = Ok "B$4".
Proof.
  split; [reflexivity|]. split; [reflexivity|]. split; [reflexivity|].
  split; [now left|]. split; [now right|].
  exact (adjustReference_unchanged "B$4" _ (mkPosition (Some 2) (Some 1))
           (mkPosition None (Some 1)) (mkAbsolute false true)
           eq_refl eq_refl eq_refl (or_introl eq_refl) (or_intror eq_refl)).
Defined.

Lemma adjust_near inserted deleted absolute n :
  Z.abs (adjust inserted deleted absolute n - n) <= 1.
Proof.
  unfold adjust.
  destruct inserted as [i|], deleted as [d|], absolute; cbn [negb andb];
    repeat match goal with
      | |- context [?x <=? ?y] => destruct (Z.leb_spec x y)
      | |- context [?x <? ?y] => destruct (Z.ltb_spec x y)
      end; lia.
Qed.

Lemma adjust_nonneg inserted deleted absolute n :
  0 <= n -> (forall d, deleted = Some d -> 0 <= d) ->
  0 <= adjust inserted deleted absolute n.
Proof.
  intros Hn Hd. unfold adjust.
  destruct deleted as [d|]; [specialize (Hd d eq_refl)|];
  destruct inserted as [i|], absolute; cbn [negb andb];
    repeat match goal with
      | |- context [?x <=? ?y] => destruct (Z.leb_spec x y)
      | |- context [?x <? ?y] => destruct (Z.ltb_spec x y)
      end; lia.
Qed.

(** X9. When the positions deleted are not negative, [adjustReference]
    returns an address for every address that parses; the address returned
    has the dollar signs of the one given, and its column and its row are at
    most one away. *)
Theorem adjustReference_returns (addr : string) (a : Address)
    (insertedAt deletedAt : Position) (isAbsolute : Absolute) :
  parseAddress addr = Ok a ->
  col a < MAX_SAFE_INTEGER -> row a < MAX_SAFE_INTEGER ->
  (forall d, at_row deletedAt = Some d -> 0 <= d) ->
  (forall d, at_col deletedAt = Some d -> 0 <= d) ->
  exists addr' a',
    adjustReference addr insertedAt deletedAt isAbsolute = Ok addr'
    /\ parseAddress addr' = Ok a'
    /\ absoluteCol a' = absoluteCol a /\ absoluteRow a' = absoluteRow a
    /\ Z.abs (col a' - col a) <= 1 /\ Z.abs (row a' - row a) <= 1.
Proof.
  intros Ha _ _ Hr Hc. destruct (parseAddress_nonneg addr a Ha) as [Hcol Hrow].
  unfold adjustReference. rewrite Ha. cbn [bind_outcome].
  pose proof (adjust_nonneg (at_row insertedAt) _ (abs_row isAbsolute) _ Hrow Hr)
    as Hr'.
  pose proof (adjust_nonneg (at_col insertedAt) _ (abs_col isAbsolute) _ Hcol Hc)
    as Hc'.
  destruct (formatAddress_written _ _ (absoluteCol a) (absoluteRow a) Hc' Hr')
    as [Hf Hp].
  eexists. eexists. split; [exact Hf|]. split; [exact Hp|].
  cbn [col row absoluteCol absoluteRow].
  repeat split; apply adjust_near.
Qed.

Lemma adjustReference_returns_witness :
  parseAddress "$B7" = Ok (mkAddress 1 6 true false)
  /\ 1 < MAX_SAFE_INTEGER /\ 6 < MAX_SAFE_INTEGER
  /\ (forall d, Some 2 = Some d -> 0 <= d)
  /\ (forall d, @None Z = Some d -> 0 <= d)
  /\ exists addr' a',
       adjustReference "$B7" (mkPosition None (Some 0)) (mkPosition (Some 2) None)
         (mkAbsolute true false) = Ok addr'
       /\ parseAddress addr' = Ok a'
       /\ absoluteCol a' = true /\ absoluteRow a' = false
       /\ Z.abs (col a' - 1) <= 1 /\ Z.abs (row a' - 6) <= 1.
Proof.
  assert (H2 : forall d, Some 2 = Some d -> 0 <= d)
    by (intros d E; inversion E; lia).
  assert (H0 : forall d, @None Z = Some d -> 0 <= d) by discriminate.
  split; [reflexivity|]. split; [reflexivity|]. split; [reflexivity|].
  split; [exact H2|]. split; [exact H0|].
  exact (adjustReference_returns "$B7" _ (mkPosition None (Some 0))
           (mkPosition (Some 2) None) (mkAbsolute true false)
           eq_refl eq_refl eq_refl H2 H0).
Defined.

Lemma colon_eq c : (charCode c =? 58) = true -> c = ":"%char.
Proof.
  unfold charCode. intros H. apply Z.eqb_eq in H.
  rewrite <- (ascii_N_embedding c).
  replace (N_of_ascii c) with 58%N by lia. reflexivity.
Qed.

Lemma split_colon_whole s : all_chars not_colon s = true -> split_colon s = [s].
Proof.
  induction s as [|c s IH]; intros H; [reflexivity|].
  cbn [all_chars] in H. apply andb_prop in H as [Hc Hs].
  unfold not_colon in Hc. apply negb_true_iff in Hc.
  cbn [split_colon]. now rewrite Hc, IH.
Qed.

Lemma split_colon_app s rest :
  all_chars not_colon s = true ->
  split_colon (s ++ String ":" rest) = s :: split_colon rest.
Proof.
  induction s as [|c s IH]; intros H; [reflexivity|].
  cbn [all_chars] in H. apply andb_prop in H as [Hc Hs].
  unfold not_colon in Hc. apply negb_true_iff in Hc.
  cbn [append split_colon]. now rewrite Hc, IH.
Qed.

Lemma split_colon_cons s : exists piece pieces, split_colon s = piece :: pieces.
Proof.
  induction s as [|c s (piece & pieces & IH)]; cbn [split_colon];
    [now eexists; eexists|].
  destruct (charCode c =? 58); [now eexists; eexists|].
  rewrite IH. now eexists; eexists.
Qed.

Lemma join_split_colon s : join_colon (split_colon s) = s.
Proof.
  induction s as [|c s IH]; [reflexivity|].
  cbn [split_colon]. destruct (charCode c =? 58) eqn:Hc.
  - apply colon_eq in Hc. subst c.
    destruct (split_colon_cons s) as (piece & pieces & E).
    rewrite E in *.
    change (join_colon ("" :: piece :: pieces))
      with (String ":" (join_colon (piece :: pieces))).
    now rewrite IH.
  - destruct (split_colon_cons s) as (piece & pieces & E).
    rewrite E in *. destruct pieces as [|q pieces].
    + cbn [join_colon] in *. now rewrite IH.
    + change (join_colon (String c piece :: q :: pieces))
        with (String c (piece ++ String ":" (join_colon (q :: pieces)))).
      now rewrite <- IH.
Qed.

Lemma upper_not_colon c : is_upper c = true -> not_colon c = true.
Proof. intros H. unfold not_colon. by_code. Qed.

Lemma digit_not_colon c : is_digit c = true -> not_colon c = true.
Proof. intros H. unfold not_colon. by_code. Qed.

Lemma all_chars_weaken (p q : ascii -> bool) s :
  (forall c, p c = true -> q c = true) ->
  all_chars p s = true -> all_chars q s = true.
Proof.
  intros Hpq. induction s as [|c s IH]; cbn [all_chars]; [reflexivity|].
  intros H. apply andb_prop in H as [Hc Hs]. now rewrite (Hpq c Hc), IH.
Qed.

Lemma address_no_colon addr :
  toCellAddress addr = Ok addr -> all_chars not_colon addr = true.
Proof.
  unfold toCellAddress.
  destruct (match_address is_digit19 addr) as [[[[ca ls] ra] ds]|] eqn:E;
    [|discriminate].
  intros _.
  apply match_address_inv in E as (-> & Hup & _ & c & r & -> & Hc & Hr).
  rewrite !all_chars_app.
  rewrite (all_chars_weaken _ _ ls upper_not_colon Hup).
  cbn [all_chars].
  rewrite (digit_not_colon c (digit19_digit c Hc)).
  rewrite (all_chars_weaken _ _ r digit_not_colon Hr).
  destruct ca, ra; reflexivity.
Qed.

Lemma toCellAddress_same addr a : toCellAddress addr = Ok a -> a = addr.
Proof.
  unfold toCellAddress. destruct (match_address is_digit19 addr); [|discriminate].
  intros H. now inversion H.
Qed.

(** X10. [parseRange] returns a pair of addresses exactly for the two
    addresses joined by one colon: it undoes the joining, and whatever it
    accepts is its two results joined by a colon, each of them an address
    that [toCellAddress] accepts. *)
Theorem parseRange_join (range start finish : string) :
  parseRange range = Ok (start, finish)
  <-> range = (start ++ String ":" finish)%string
      /\ toCellAddress start = Ok start /\ toCellAddress finish = Ok finish.
Proof.
  split.
  - unfold parseRange. intros H.
    pose proof (join_split_colon range) as Hj.
    destruct (split_colon range) as [|x [|y [|z more]]]; try discriminate.
    destruct (toCellAddress x) as [x'| |] eqn:Ex; try discriminate.
    destruct (toCellAddress y) as [y'| |] eqn:Ey; try discriminate.
    cbn [bind_outcome] in H. inversion H; subst; clear H.
    pose proof (toCellAddress_same _ _ Ex). pose proof (toCellAddress_same _ _ Ey).
    subst. repeat split; assumption.
  - intros (-> & Hs & Hf). unfold parseRange.
    rewrite (split_colon_app _ _ (address_no_colon _ Hs)).
    rewrite (split_colon_whole _ (address_no_colon _ Hf)).
    now rewrite Hs, Hf.
Qed.

End AddressFacts.

(** *** The grid component *)

Module GridFacts.
Import Text Types CodecFacts AddressFacts.

Lemma column_loop_letters fuel : forall c acc,
  Grid.column_loop fuel c acc = letters_loop fuel (c + 1) acc.
Proof.
  induction fuel as [|fuel IH]; intros c acc; [reflexivity|].
  change (Grid.column_loop (S fuel) c acc)
    with (if 0 <=? c
          then Grid.column_loop fuel (c / 26 - 1)
                 (String (fromCharCode (65 + c mod 26)) acc)
          else acc).
  change (letters_loop (S fuel) (c + 1) acc)
    with (if 0 <? c + 1
          then letters_loop fuel ((c + 1 - 1) / 26)
                 (String (fromCharCode (65 + (c + 1 - 1) mod 26)) acc)
          else acc).
  replace (c + 1 - 1) with c by lia.
  destruct (Z.leb_spec 0 c), (Z.ltb_spec 0 (c + 1)); try lia; [|reflexivity].
  rewrite IH. now replace (c / 26 - 1 + 1) with (c / 26) by lia.
Qed.

Lemma grid_formatAddress col row :
  Grid.formatAddress col row = Codec.formatAddress col row false false.
Proof.
  unfold Grid.formatAddress, Codec.formatAddress, Codec.colToLetter.
  now rewrite column_loop_letters.
Qed.

Lemma grid_parseAddress addr a :
  Codec.parseAddress addr = Ok a ->
  Grid.parseAddress addr
  = if Codec.absoluteCol a || Codec.absoluteRow a then (0, 0)
    else (Codec.col a, Codec.row a).
Proof.
  unfold Codec.parseAddress.
  destruct (match_address is_digit19 addr) as [[[[ca ls] ra] ds]|] eqn:E;
    [|discriminate].
  intros H. inversion H; subst a; clear H.
  cbn [Codec.col Codec.row Codec.absoluteCol Codec.absoluteRow].
  apply match_address_inv in E as (-> & Hup & Hne & c & r & -> & Hc & Hr).
  assert (Hu : is_upper "$" = false) by reflexivity.
  unfold Grid.parseAddress.
  destruct ca; cbn [orb append].
  - cbn [span]. rewrite Hu. reflexivity.
  - destruct ra; cbn [orb append].
    + rewrite (span_upper_app ls "$" (String c r) Hup Hu).
      destruct ls; [contradiction|]. reflexivity.
    + rewrite (span_upper_app ls c r Hup (digit19_not_upper c Hc)).
      destruct ls as [|l ls]; [contradiction|].
      cbn [all_chars]. rewrite (digit19_digit c Hc), Hr. reflexivity.
Qed.

(** X11. The grid's own address helpers agree with the shared ones on
    plain addresses: for non-negative coordinates its [formatAddress] writes
    the address that the codec's [formatAddress] writes without flags and
    its [parseAddress] reads the coordinates back; an address that carries a
    dollar sign it reads as column 0, row 0. *)
Theorem grid_helpers_agree (col row : Z) (ac ar : bool) :
  0 <= col < MAX_SAFE_INTEGER -> 0 <= row < MAX_SAFE_INTEGER ->
  (exists addr,
     Grid.formatAddress col row = Ok addr
     /\ Codec.formatAddress col row false false = Ok addr
     /\ Grid.parseAddress addr = (col, row))
  /\ (exists addr,
        Codec.formatAddress col row ac ar = Ok addr
        /\ Grid.parseAddress addr = if ac || ar then (0, 0) else (col, row)).
Proof.
  intros [Hcol _] [Hrow _]. split.
  - destruct (formatAddress_written col row false false Hcol Hrow) as [Hf Hp].
    exists (Codec.written col row false false).
    rewrite grid_formatAddress. repeat split; try exact Hf.
    now rewrite (grid_parseAddress _ _ Hp).
  - destruct (formatAddress_written col row ac ar Hcol Hrow) as [Hf Hp].
    exists (Codec.written col row ac ar). split; [exact Hf|].
    now rewrite (grid_parseAddress _ _ Hp).
Qed.

Lemma grid_helpers_agree_witness :
  0 <= 27 < MAX_SAFE_INTEGER /\ 0 <= 99 < MAX_SAFE_INTEGER
  /\ (exists addr,
        Grid.formatAddress 27 99 = Ok addr
        /\ Codec.formatAddress 27 99 false false = Ok addr
        /\ Grid.parseAddress addr = (27, 99))
  /\ (exists addr,
        Codec.formatAddress 27 99 true false = Ok addr
        /\ Grid.parseAddress addr = (0, 0)).
Proof.
  assert (H1 : 0 <= 27 < MAX_SAFE_INTEGER) by (split; reflexivity || discriminate).
  assert (H2 : 0 <= 99 < MAX_SAFE_INTEGER) by (split; reflexivity || discriminate).
  split; [exact H1|]. split; [exact H2|].
  exact (grid_helpers_agree 27 99 true false H1 H2).
Defined.

Lemma written_selected c r :
  0 <= c -> String.eqb (Codec.written c r false false) "" = false.
Proof.
  intros H. unfold Codec.written.
  destruct (colToLetter_spec c H) as (ds & -> & _ & _ & Hne).
  destruct ds; [contradiction | reflexivity].
Qed.

Section Keys.
Variable String_of : LiteralValue -> string.
Variable sheet : Sheet.

Lemma select_inside c r state :
  0 <= c < cols sheet -> 0 <= r < rows sheet ->
  exists s,
    bind_outcome (Grid.select c r)
      (fun actions => Ok (fold_left Grid.gridReducer actions state)) = Ok s
    /\ Grid.inside sheet s.
Proof.
  intros Hc Hr. unfold Grid.select. rewrite grid_formatAddress.
  destruct (formatAddress_written c r false false) as [-> _]; try lia.
  cbn [bind_outcome fold_left Grid.gridReducer].
  eexists. split; [reflexivity|]. exists c, r. now repeat split.
Qed.

Lemma press_inside state key :
  Grid.inside sheet state ->
  exists s,
    Grid.press String_of sheet state key = Ok s /\ Grid.inside sheet s.
Proof.
  intros (c & r & Hsel & Hc & Hr).
  assert (Hsame : exists s,
    Ok (fold_left Grid.gridReducer [] state) = Ok s /\ Grid.inside sheet s).
  { exists state. split; [reflexivity|]. now exists c, r. }
  destruct (formatAddress_written c r false false) as [_ Hp]; try lia.
  unfold Grid.press, Grid.handleKeyDown. rewrite Hsel.
  rewrite (written_selected c r) by lia.
  rewrite (grid_parseAddress _ _ Hp).
  cbn [Codec.absoluteCol Codec.absoluteRow orb Codec.col Codec.row].
  destruct (Grid.isEditing state); [exact Hsame|].
  repeat match goal with
    | |- context [String.eqb ?k ?s] => destruct (String.eqb k s)
    | |- context [?x <? ?y] => destruct (Z.ltb_spec x y)
    | |- context [if snd key then _ else _] => destruct (snd key)
    end;
    first [ exact Hsame | apply select_inside; lia | idtac ].
  - cbn [bind_outcome fold_left Grid.handleStartEdit Grid.gridReducer].
    eexists. split; [reflexivity|]. exists c, r. now repeat split.
  - cbn [bind_outcome fold_left Grid.gridReducer].
    eexists. split; [reflexivity|]. exists c, r. now repeat split.
Qed.


(** X12. Keys cannot take the selection out of the sheet: from a state
    whose selection is a plain address inside the sheet, any sequence of keys,
    with or without shift, is handled without an exception and leaves the
    selection a plain address inside the sheet. *)
Theorem keys_stay_inside (keys : list (string * bool)) (state : Grid.GridState) :
  rows sheet <= MAX_SAFE_INTEGER -> cols sheet <= MAX_SAFE_INTEGER ->
  Grid.inside sheet state ->
  exists s,
    Grid.presses String_of sheet state keys = Ok s /\ Grid.inside sheet s.
Proof.
  intros _ _. revert state. induction keys as [|key keys IH]; intros state H.
  - exists state. now split.
  - destruct (press_inside state key H) as (s & Hs & Hin).
    cbn [Grid.presses]. rewrite Hs. cbn [bind_outcome]. now apply IH.
Qed.

(** X13. From a plain address inside the sheet, an arrow key selects
    the cell that [getNeighbor] returns for that direction, and selects
    nothing where [getNeighbor] returns [null]. *)
Theorem arrows_follow_getNeighbor (d : Codec.Direction) (c r : Z)
    (text : string) (shift : bool) :
  rows sheet <= MAX_SAFE_INTEGER -> cols sheet <= MAX_SAFE_INTEGER ->
  0 <= c < cols sheet -> 0 <= r < rows sheet ->
  exists addr,
    Codec.formatAddress c r false false = Ok addr
    /\ Grid.handleKeyDown String_of sheet (Grid.mkState (Some addr) false text)
         (Grid.arrow d) shift
       = match Codec.getNeighbor addr d (rows sheet) (cols sheet) with
         | Ok (Some n) => Ok [Grid.SELECT_CELL n]
         | Ok None => Ok []
         | Throw m => Throw m
         | OutOfFuel => OutOfFuel
         end.
Proof.
  intros _ _ Hc Hr.
  destruct (formatAddress_written c r false false) as [Hf Hp]; try lia.
  exists (Codec.written c r false false). split; [exact Hf|].
  rewrite (getNeighbor_step _ d _ _ _ Hp).
  unfold Grid.handleKeyDown. cbn [Grid.selectedCell Grid.isEditing].
  rewrite (written_selected c r) by lia.
  rewrite (grid_parseAddress _ _ Hp).
  cbn [Codec.absoluteCol Codec.absoluteRow orb Codec.col Codec.row].
  unfold Grid.select.
  destruct d; cbn [Grid.arrow Codec.move String.eqb Ascii.eqb Bool.eqb];
    cbv iota; rewrite ?grid_formatAddress;
    repeat match goal with
      | |- context [?x <? ?y] => destruct (Z.ltb_spec x y)
      | |- context [?x <=? ?y] => destruct (Z.leb_spec x y)
      end; try lia; cbn [andb]; try reflexivity.
  all: match goal with
       | |- context [Codec.formatAddress ?x ?y false false] =>
           destruct (formatAddress_written x y false false) as [-> _]; try lia
       end; reflexivity.
Qed.

End Keys.

Lemma keys_stay_inside_witness :
  20 <= MAX_SAFE_INTEGER /\ 10 <= MAX_SAFE_INTEGER
  /\ Grid.inside (mkSheet "s" "Sheet" 20 10 [])
       (Grid.mkState (Some "J20") false "")
  /\ exists s,
       Grid.presses (fun _ => "") (mkSheet "s" "Sheet" 20 10 [])
         (Grid.mkState (Some "J20") false "")
         [("ArrowDown", false); ("Tab", false); ("Home", false); ("ArrowUp", false)]
       = Ok s
       /\ Grid.inside (mkSheet "s" "Sheet" 20 10 []) s.
Proof.
  assert (H : Grid.inside (mkSheet "s" "Sheet" 20 10 [])
                (Grid.mkState (Some "J20") false "")).
  { exists 9, 19. cbn [rows cols]. repeat split; lia. }
  assert (H20 : 20 <= MAX_SAFE_INTEGER) by discriminate.
  assert (H10 : 10 <= MAX_SAFE_INTEGER) by discriminate.
  split; [exact H20|]. split; [exact H10|]. split; [exact H|].
  exact (keys_stay_inside (fun _ => "") (mkSheet "s" "Sheet" 20 10 []) _ _
           H20 H10 H).
Defined.

Lemma arrows_follow_getNeighbor_witness :
  20 <= MAX_SAFE_INTEGER /\ 10 <= MAX_SAFE_INTEGER
  /\ (0 <= 0 < 10) /\ (0 <= 19 < 20)
  /\ exists addr,
       Codec.formatAddress 0 19 false false = Ok addr
       /\ Grid.handleKeyDown (fun _ => "") (mkSheet "s" "Sheet" 20 10 [])
            (Grid.mkState (Some addr) false "") (Grid.arrow Codec.Right) false
          = match Codec.getNeighbor addr Codec.Right 20 10 with
            | Ok (Some n) => Ok [Grid.SELECT_CELL n]
            | Ok None => Ok []
            | Throw m => Throw m
            | OutOfFuel => OutOfFuel
            end.
Proof.
  assert (H20 : 20 <= MAX_SAFE_INTEGER) by discriminate.
  assert (H10 : 10 <= MAX_SAFE_INTEGER) by discriminate.
  split; [exact H20|]. split; [exact H10|]. split; [lia|]. split; [lia|].
  apply (arrows_follow_getNeighbor (fun _ => "") (mkSheet "s" "Sheet" 20 10 [])
           Codec.Right 0 19 "" false H20 H10); cbn [rows cols]; lia.
Defined.

End GridFacts.


(** *** The absolute flags of a parsed reference *)

Module ParserFacts.
Import Text Types Lexer Parser.

Lemma bind_outcome_ok {A B} (x : outcome A) (f : A -> outcome B) b :
  bind_outcome x f = Ok b -> exists a, x = Ok a /\ f a = Ok b.
Proof. destruct x; simpl; [eauto | discriminate | discriminate]. Qed.

Lemma toCellAddress_ok s a : toCellAddress s = Ok a -> a = s.
Proof.
  unfold toCellAddress. destruct (match_address is_digit19 s); congruence.
Qed.

Lemma parseExpression_S fuel minPrecedence p :
  parseExpression (S fuel) minPrecedence p
  = bind_outcome (parsePrimary fuel p) (fun r =>
    expression_loop fuel minPrecedence (fst r) (snd r)).
Proof. reflexivity. Qed.

Lemma expression_loop_S fuel minPrecedence left p :
  expression_loop (S fuel) minPrecedence left p
  = if TokenType_eqb (type (current p)) OPERATOR then
      let op := value (current p) in
      match PRECEDENCE op with
      | None => Ok (left, p)
      | Some precedence =>
          if (precedence =? 0) || (precedence <? minPrecedence)
          then Ok (left, p)
          else
            bind_outcome (advance p) (fun p =>
            bind_outcome (parseExpression fuel (precedence + 1) p) (fun r =>
            expression_loop fuel minPrecedence
              (BinaryOp op left (fst r)) (snd r)))
      end
    else Ok (left, p).
Proof. reflexivity. Qed.

Lemma parseFunction_S fuel name p :
  parseFunction (S fuel) name p
  = bind_outcome (expect LPAREN p) (fun p =>
    bind_outcome
      (if negb (TokenType_eqb (type (current p)) RPAREN) then
         bind_outcome (parseExpression fuel 0 p) (fun r =>
         arguments_loop fuel [fst r] (snd r))
       else Ok ([], p)) (fun r =>
    bind_outcome (expect RPAREN (snd r)) (fun p =>
    Ok (FunctionCall name (fst r), p)))).
Proof. reflexivity. Qed.

Lemma arguments_loop_S fuel args p :
  arguments_loop (S fuel) args p
  = if TokenType_eqb (type (current p)) COMMA then
      bind_outcome (advance p) (fun p =>
      bind_outcome (parseExpression fuel 0 p) (fun r =>
      arguments_loop fuel (args ++ [fst r]) (snd r)))
    else Ok (args, p).
Proof. reflexivity. Qed.

(** What [parsePrimary] makes of a cell-reference token: a range, or a
    reference whose two flags both say whether the token holds a dollar
    sign. *)
Lemma parsePrimary_cell_ref fuel p ast p' :
  type (current p) = CELL_REF ->
  parsePrimary fuel p = Ok (ast, p') ->
  (exists finish, ast = RangeRef (value (current p)) finish)
  \/ ast = CellRef (value (current p))
             (includes_dollar (value (current p)))
             (includes_dollar (value (current p))).
Proof.
  intros Hty H. destruct fuel as [|fuel]; [discriminate|].
  cbn [parsePrimary] in H. rewrite Hty in H.
  apply bind_outcome_ok in H as (p1 & _ & H).
  destruct (TokenType_eqb (type (current p1)) COLON).
  - apply bind_outcome_ok in H as (p2 & _ & H).
    destruct (negb (TokenType_eqb (type (current p2)) CELL_REF));
      [discriminate|].
    apply bind_outcome_ok in H as (p3 & _ & H).
    apply bind_outcome_ok in H as (start & Hs & H).
    apply bind_outcome_ok in H as (finish & _ & H).
    apply toCellAddress_ok in Hs. subst start.
    injection H as <- _. left. now exists finish.
  - apply bind_outcome_ok in H as (address & Ha & H).
    apply toCellAddress_ok in Ha. subst address.
    injection H as <- _. now right.
Qed.

Lemma flags_agree_call name args :
  Forall flags_agree args -> flags_agree (FunctionCall name args).
Proof.
  induction 1 as [|arg args Ha _ IH]; simpl; [exact I | now split].
Qed.

(** The five functions of the descent keep the property. *)
Lemma descent_flags_agree fuel :
  (forall m p ast p', parseExpression fuel m p = Ok (ast, p') -> flags_agree ast)
  /\ (forall m left p ast p',
        flags_agree left ->
        expression_loop fuel m left p = Ok (ast, p') -> flags_agree ast)
  /\ (forall p ast p', parsePrimary fuel p = Ok (ast, p') -> flags_agree ast)
  /\ (forall name p ast p',
        parseFunction fuel name p = Ok (ast, p') -> flags_agree ast)
  /\ (forall args p args' p',
        Forall flags_agree args ->
        arguments_loop fuel args p = Ok (args', p') -> Forall flags_agree args').
Proof.
  induction fuel as [|fuel (IHe & IHl & IHp & IHf & IHa)];
    [repeat split; intros; discriminate|].
  repeat split.
  - intros m p ast p' H. rewrite parseExpression_S in H.
    apply bind_outcome_ok in H as ([left p1] & H1 & H). simpl in H.
    apply IHl in H; [assumption|]. now apply IHp in H1.
  - intros m left p ast p' Hl H. rewrite expression_loop_S in H.
    destruct (TokenType_eqb (type (current p)) OPERATOR);
      [|injection H as <- _; assumption].
    cbv zeta in H. destruct (PRECEDENCE (value (current p))) as [prec|];
      [|injection H as <- _; assumption].
    destruct ((prec =? 0) || (prec <? m)); [injection H as <- _; assumption|].
    apply bind_outcome_ok in H as (p1 & _ & H).
    apply bind_outcome_ok in H as ([rhs p2] & H2 & H). simpl in H.
    apply IHl in H; [assumption|]. simpl. split; [assumption|].
    now apply IHe in H2.
  - intros p ast p' H.
    destruct (type (current p)) eqn:Hty;
      try (cbn [parsePrimary] in H; rewrite Hty in H; discriminate).
    + cbn [parsePrimary] in H. rewrite Hty in H.
      apply bind_outcome_ok in H as (p1 & _ & H). injection H as <- _. exact I.
    + cbn [parsePrimary] in H. rewrite Hty in H.
      apply bind_outcome_ok in H as (p1 & _ & H). injection H as <- _. exact I.
    + destruct (parsePrimary_cell_ref (S fuel) p ast p' Hty H)
        as [[finish ->] | ->]; simpl; auto.
    + cbn [parsePrimary] in H. rewrite Hty in H.
      apply bind_outcome_ok in H as (p1 & _ & H). now apply IHf in H.
    + cbn [parsePrimary] in H. rewrite Hty in H. cbv zeta in H.
      destruct (String.eqb (value (current p)) "-"
                || String.eqb (value (current p)) "+"); [|discriminate].
      apply bind_outcome_ok in H as (p1 & _ & H).
      apply bind_outcome_ok in H as ([operand p2] & H2 & H).
      injection H as <- _. simpl. now apply IHp in H2.
    + cbn [parsePrimary] in H. rewrite Hty in H.
      apply bind_outcome_ok in H as (p1 & _ & H).
      apply bind_outcome_ok in H as ([e p2] & H2 & H).
      apply bind_outcome_ok in H as (p3 & _ & H).
      injection H as <- _. simpl. now apply IHe in H2.
  - intros name p ast p' H. rewrite parseFunction_S in H.
    apply bind_outcome_ok in H as (p1 & _ & H).
    apply bind_outcome_ok in H as ([args p2] & H2 & H).
    apply bind_outcome_ok in H as (p3 & _ & H).
    injection H as <- _. simpl (fst _). apply flags_agree_call.
    destruct (negb (TokenType_eqb (type (current p1)) RPAREN)).
    + apply bind_outcome_ok in H2 as ([arg p4] & H4 & H2). simpl in H2.
      apply IHa in H2; [assumption|].
      constructor; [now apply IHe in H4 | constructor].
    + injection H2 as <- _. constructor.
  - intros args p args' p' Hargs H. rewrite arguments_loop_S in H.
    destruct (TokenType_eqb (type (current p)) COMMA);
      [|injection H as <- _; assumption].
    apply bind_outcome_ok in H as (p1 & _ & H).
    apply bind_outcome_ok in H as ([arg p2] & H2 & H). simpl in H.
    apply IHa in H; [assumption|].
    apply Forall_app. split; [assumption|].
    constructor; [now apply IHe in H2 | constructor].
Qed.

(** The part of C10 that the code keeps. When [parsePrimary] meets a
    cell-reference token that is not the first corner of a range, the node it
    returns has its two absolute flags equal, both saying whether the token
    holds a dollar sign; so does every reference of a tree that
    [parseFormula] returns; A$1 is parsed with both flags set. *)
Theorem reference_flags_agree (fuel : nat) (p : Parser.t)
  (ast : FormulaAst) (p' : Parser.t) :
  type (current p) = CELL_REF ->
  parsePrimary fuel p = Ok (ast, p') ->
  ((exists finish, ast = RangeRef (value (current p)) finish)
   \/ ast = CellRef (value (current p))
              (includes_dollar (value (current p)))
              (includes_dollar (value (current p))))
  /\ (forall fuel input tree,
        parseFormula fuel input = Ok tree -> flags_agree tree)
  /\ (forall n, parseFormula (2 + n) "=A$1" = Ok (CellRef "A$1" true true))
  /\ (forall n, parseFormula (2 + n) "=A1" = Ok (CellRef "A1" false false)).
Proof.
  intros Hty H. split; [now apply (parsePrimary_cell_ref fuel p ast p')|].
  split; [|split; reflexivity].
  intros f input tree Ht. unfold parseFormula, parse in Ht.
  apply bind_outcome_ok in Ht as (parser & _ & Ht).
  apply bind_outcome_ok in Ht as ([e p1] & He & Ht). simpl in Ht.
  destruct (negb (TokenType_eqb (type (current p1)) EOF)); [discriminate|].
  injection Ht as <-.
  now apply (proj1 (descent_flags_agree f)) in He.
Qed.

(** An instance of [reference_flags_agree]: the parser built on the text
    A$1, whose first token is that cell reference. *)
Lemma reference_flags_agree_witness :
  type (current (mk (Lexer.mk "A$1" 3) (mkToken CELL_REF "A$1" 0))) = CELL_REF
  /\ parsePrimary 1 (mk (Lexer.mk "A$1" 3) (mkToken CELL_REF "A$1" 0))
     = Ok (CellRef "A$1" true true, mk (Lexer.mk "A$1" 3) (mkToken EOF "" 3))
  /\ create "A$1" = Ok (mk (Lexer.mk "A$1" 3) (mkToken CELL_REF "A$1" 0))
  /\ ((exists finish, CellRef "A$1" true true = RangeRef "A$1" finish)
      \/ CellRef "A$1" true true = CellRef "A$1" true true).
Proof.
  split; [reflexivity|]. split; [reflexivity|]. split; [reflexivity|].
  exact (proj1 (reference_flags_agree 1
                  (mk (Lexer.mk "A$1" 3) (mkToken CELL_REF "A$1" 0))
                  (CellRef "A$1" true true)
                  (mk (Lexer.mk "A$1" 3) (mkToken EOF "" 3))
                  eq_refl eq_refl)).
Defined.

(** C10 (the code departs from it). A$1 is parsed to a reference with both
    flags set, but $A1 and $A$1 are not parsed at all: [nextToken] starts an
    identifier at a letter only, so a dollar sign at the start of a token is
    an unexpected character, although [isCellReference] and [toCellAddress]
    accept such an address. *)
Theorem leading_dollar_is_not_lexed :
  parseFormula 10 "=A$1" = Ok (CellRef "A$1" true true)
  /\ create "$A1" = Throw "Unexpected character: $ at position 0"
  /\ parseFormula 10 "=$A1" = Throw "Unexpected character: $ at position 0"
  /\ parseFormula 10 "=$A$1" = Throw "Unexpected character: $ at position 0"
  /\ isCellReference "$A1" = true
  /\ toCellAddress "$A1" = Ok "$A1".
Proof. repeat split; reflexivity. Qed.

End ParserFacts.

(** *** The lexer moves on and the parser terminates *)

Module LexerFacts.
Import Text Types Lexer.

Lemma get_some_lt s : forall n c, String.get n s = Some c -> (n < String.length s)%nat.
Proof.
  induction s as [|d s IH]; intros [|n] c H; simpl in *; try discriminate; try lia.
  apply IH in H. lia.
Qed.

Lemma get_none_ge s : forall n, String.get n s = None -> (String.length s <= n)%nat.
Proof.
  induction s as [|d s IH]; intros [|n] H; simpl in *; try discriminate; try lia.
  apply IH in H. lia.
Qed.

Lemma length_substring_le s : forall n m,
  (String.length (substring n m s) <= String.length s - n)%nat.
Proof.
  induction s as [|d s IH]; intros [|n] [|m]; simpl; try lia.
  - specialize (IH 0%nat m). lia.
  - apply IH.
  - apply IH.
Qed.

Lemma length_span_le p s : (String.length (fst (span p s)) <= String.length s)%nat.
Proof.
  induction s as [|c s IH]; simpl; [lia|].
  destruct (p c); simpl; [|lia].
  destruct (span p s); simpl in *. lia.
Qed.

Lemma number_length_le s : forall b, (number_length b s <= String.length s)%nat.
Proof.
  induction s as [|c s IH]; intros b; simpl; [lia|].
  destruct (is_digit c); [specialize (IH b); lia|].
  destruct ((charCode c =? 46) && negb b); [specialize (IH true); lia | lia].
Qed.

Lemma length_ahead l : (String.length (ahead l) <= String.length (input l) - pos l)%nat.
Proof. unfold ahead, slice. apply length_substring_le. Qed.

Lemma substring_cons s : forall n c,
  String.get n s = Some c ->
  substring n (String.length s - n) s
  = String c (substring (S n) (String.length s - S n) s).
Proof.
  induction s as [|d s IH]; intros [|n] c H; simpl in *; try discriminate.
  - inversion H. now rewrite Nat.sub_0_r.
  - now apply IH.
Qed.

Lemma ahead_cons l c :
  String.get (pos l) (input l) = Some c ->
  ahead l = String c (ahead (mk (input l) (S (pos l)))).
Proof. intros H. unfold ahead, slice. cbn [input pos]. now apply substring_cons. Qed.

Lemma skipWhitespace_moves l :
  input (skipWhitespace l) = input l
  /\ (pos l <= pos (skipWhitespace l))%nat
  /\ ((pos l <= String.length (input l))%nat ->
      (pos (skipWhitespace l) <= String.length (input l))%nat).
Proof.
  unfold skipWhitespace. cbn [input pos].
  pose proof (length_span_le is_space (ahead l)).
  pose proof (length_ahead l). repeat split; lia.
Qed.

(** Where [nextToken] leaves the cursor: never behind the token it returns,
    never past the end of the input, and past the start of every token other
    than the end-of-input token. *)
Lemma nextToken_moves l tok l' :
  nextToken l = Ok (tok, l') ->
  (pos l <= String.length (input l))%nat ->
  input l' = input l
  /\ (pos l <= tpos tok)%nat
  /\ (pos l' <= String.length (input l))%nat
  /\ (if TokenType_eqb (type tok) EOF
      then tpos tok = String.length (input l) /\ pos l' = String.length (input l)
      else (tpos tok < pos l')%nat).
Proof.
  intros H Hpos. unfold nextToken in H.
  destruct (skipWhitespace_moves l) as (Hin & Hle & Hbound).
  specialize (Hbound Hpos).
  remember (skipWhitespace l) as k eqn:Ek. clear Ek.
  destruct (String.get (pos k) (input k)) as [char|] eqn:Hget.
  - pose proof Hget as Hget'. apply get_some_lt in Hget. rewrite Hin in Hget.
    cbv zeta in H.
    assert (Hone : forall ty tok l',
      Ok (mkToken ty (String char "") (pos k), mk (input k) (S (pos k)))
      = Ok (tok, l') -> ty <> EOF ->
      input l' = input l /\ (pos l <= tpos tok)%nat
      /\ (pos l' <= String.length (input l))%nat
      /\ (if TokenType_eqb (type tok) EOF
          then tpos tok = String.length (input l)
               /\ pos l' = String.length (input l)
          else (tpos tok < pos l')%nat)).
    { intros ty tok0 l0 E Hty. inversion E; subst. cbn [input pos tpos type].
      repeat split; try assumption; try lia.
      destruct ty; try contradiction; cbn [TokenType_eqb]; lia. }
    assert (Htwo : forall v tok l',
      Ok (mkToken OPERATOR v (pos k), mk (input k) (S (S (pos k))))
      = Ok (tok, l') -> (S (pos k) < String.length (input l))%nat ->
      input l' = input l /\ (pos l <= tpos tok)%nat
      /\ (pos l' <= String.length (input l))%nat
      /\ (if TokenType_eqb (type tok) EOF
          then tpos tok = String.length (input l)
               /\ pos l' = String.length (input l)
          else (tpos tok < pos l')%nat)).
    { intros v tok0 l0 E Hlt. inversion E; subst. cbn [input pos tpos type].
      repeat split; try assumption; cbn [TokenType_eqb]; lia. }
    assert (Hpeek : forall n, is_char n (peek 1 k) = true ->
              (S (pos k) < String.length (input l))%nat).
    { intros n Hn. unfold is_char, peek in Hn.
      destruct (String.get (pos k + 1) (input k)) eqn:E; [|discriminate].
      apply get_some_lt in E. rewrite Hin in E. lia. }
    destruct (is_digit char || ((charCode char =? 46) && is_digit_opt (peek 1 k)))
      eqn:Hnum.
    { inversion H; subst. unfold readNumber. cbn [input pos tpos type fst snd].
      pose proof (number_length_le (ahead k) false).
      pose proof (length_ahead k).
      assert (0 < number_length false (ahead k))%nat.
      { rewrite (ahead_cons k char Hget'). cbn [number_length].
        destruct (is_digit char); [lia|]. cbn [orb] in Hnum.
        apply andb_prop in Hnum as [-> _]. cbn [negb andb]. lia. }
      rewrite Hin in *.
      repeat split; try assumption; try lia.
      cbn [TokenType_eqb]. lia. }
    destruct (charCode char =? 34).
    { unfold readString in H.
      destruct (String.length (input k)
                <=? S (pos k) + string_length (ahead (mk (input k) (S (pos k)))))%nat
        eqn:Hend; [discriminate|].
      apply Nat.leb_gt in Hend.
      inversion H; subst. cbn [input pos tpos type TokenType_eqb].
      rewrite Hin in *. repeat split; try assumption; lia. }
    destruct (is_letter char).
    { inversion H; subst. unfold readIdentifier.
      cbn [input pos tpos type fst snd].
      pose proof (length_span_le (fun c => is_alnum c || is_dollar c)
                    (ahead (mk (input k) (S (pos k))))).
      pose proof (length_ahead (mk (input k) (S (pos k)))) as Ha.
      cbn [input pos] in Ha. rewrite Hin in *.
      repeat split; try assumption; try lia.
      destruct (isCellReference _); cbn [TokenType_eqb]; lia. }
    repeat match type of H with
      | (if ?c then _ else _) = _ => destruct c eqn:?
      end;
      first [ discriminate
            | apply Hone in H; [exact H | discriminate]
            | apply Htwo in H; [exact H | eapply Hpeek; eassumption] ].
  - apply get_none_ge in Hget. rewrite Hin in Hget.
    inversion H; subst. cbn [input pos tpos type TokenType_eqb].
    repeat split; try assumption; lia.
Qed.

Lemma nextToken_tpos l tok l' :
  nextToken l = Ok (tok, l') -> tpos tok = pos (skipWhitespace l).
Proof.
  unfold nextToken. remember (skipWhitespace l) as k eqn:Ek. clear Ek.
  destruct (String.get _ _); [|intros H; now inversion H]. cbv zeta.
  unfold readString.
  repeat match goal with
    | |- (if ?c then _ else _) = _ -> _ => destruct c
    end; intros H; inversion H; reflexivity.
Qed.

Lemma substring_app_prefix s : forall n m a b,
  substring n m s = (a ++ b)%string -> substring n (String.length a) s = a.
Proof.
  induction s as [|c s IH]; intros n m a b H.
  - destruct n, m; cbn in H; destruct a; try discriminate; reflexivity.
  - destruct n as [|n].
    + destruct m as [|m]; cbn in H; destruct a as [|c' a]; try discriminate;
        try reflexivity.
      cbn in H. injection H as <- H. cbn. f_equal. exact (IH 0%nat m a b H).
    + cbn in *. exact (IH n m a b H).
Qed.

(** X14. On a text of one-byte characters (code units 0 to 255),
    [nextToken] skips white space, which there is [\s]: the codes 9 to 13, the
    space and the no-break space U+00A0, and nothing else; it never moves
    the cursor past the end of the input, and moves it past the start of the
    token it returns unless that is the end-of-input token, which it returns
    with the cursor at the end: the tokens of a text are fewer than its
    characters, and one. *)
Theorem nextToken_advances (l : Lexer.t) (tok : Token) (l' : Lexer.t) :
  nextToken l = Ok (tok, l') ->
  (pos l <= String.length (input l))%nat ->
  input l' = input l
  /\ (pos l <= tpos tok)%nat
  /\ all_chars is_space (slice (pos l) (tpos tok) (input l)) = true
  /\ (pos l' <= String.length (input l))%nat
  /\ (if TokenType_eqb (type tok) EOF
      then tpos tok = String.length (input l) /\ pos l' = String.length (input l)
      else (tpos tok < pos l')%nat).
Proof.
  intros H Hpos.
  destruct (nextToken_moves l tok l' H Hpos) as (H1 & H2 & H3 & H4).
  repeat split; try assumption.
  rewrite (nextToken_tpos l tok l' H). unfold skipWhitespace, slice.
  cbn [pos].
  replace (pos l + String.length (fst (span is_space (ahead l))) - pos l)%nat
    with (String.length (fst (span is_space (ahead l)))) by lia.
  destruct (span is_space (ahead l)) as [a b] eqn:E. cbn [fst].
  apply AddressFacts.span_spec in E as (Hab & Ha & _).
  unfold ahead, slice in Hab.
  now rewrite (substring_app_prefix _ _ _ _ _ Hab).
Qed.

Lemma nextToken_advances_witness :
  nextToken (Lexer.mk ("= " ++ no_break_space ++ "SUM(A1)") 1)
  = Ok (mkToken FUNCTION "SUM" 3,
        Lexer.mk ("= " ++ no_break_space ++ "SUM(A1)") 6)
  /\ (1 <= String.length ("= " ++ no_break_space ++ "SUM(A1)"))%nat
  /\ all_chars is_space (slice 1 3 ("= " ++ no_break_space ++ "SUM(A1)")) = true
  /\ (3 < 6)%nat.
Proof.
  assert (H : nextToken (Lexer.mk ("= " ++ no_break_space ++ "SUM(A1)") 1)
              = Ok (mkToken FUNCTION "SUM" 3,
                    Lexer.mk ("= " ++ no_break_space ++ "SUM(A1)") 6))
    by reflexivity.
  assert (Hp : (1 <= String.length ("= " ++ no_break_space ++ "SUM(A1)"))%nat)
    by (cbn; lia).
  split; [exact H|]. split; [exact Hp|].
  destruct (nextToken_advances _ _ _ H Hp) as (_ & _ & Hs & _ & Hlt).
  split; [exact Hs | exact Hlt].
Defined.

Lemma nextToken_returns l : nextToken l <> OutOfFuel.
Proof.
  unfold nextToken.
  destruct (String.get _ _); [|discriminate]. cbv zeta.
  repeat match goal with
    | |- (if ?c then _ else _) <> _ => destruct c
    end; try discriminate.
  unfold readString. destruct (_ <=? _)%nat; discriminate.
Qed.

End LexerFacts.

Module DescentFacts.
Import Text Types Lexer Parser ParserFacts LexerFacts.

Lemma later_refl p : valid p -> later false p p.
Proof. intros H. repeat split; try apply H. cbn. lia. Qed.

Lemma later_trans a b p1 p2 p3 :
  later a p1 p2 -> later b p2 p3 -> later (a || b) p1 p3.
Proof.
  intros (V2 & I2 & L2) (V3 & I3 & L3). repeat split; try apply V3.
  - congruence.
  - destruct a, b; cbn [orb]; lia.
Qed.

Lemma later_weaken p p' : later true p p' -> later false p p'.
Proof. intros (V & I & L). repeat split; try apply V; [assumption | cbn in *; lia]. Qed.

Lemma valid_bound p : valid p -> (tpos (current p) <= String.length (input (lexer p)))%nat.
Proof. intros [H1 H2]. destruct (TokenType_eqb _ _); lia. Qed.

Lemma advance_later p p' :
  valid p -> TokenType_eqb (type (current p)) EOF = false ->
  advance p = Ok p' -> later true p p'.
Proof.
  intros [Hpos Hcur] Hty H. rewrite Hty in Hcur.
  unfold advance in H. apply bind_outcome_ok in H as ([tok l'] & Hn & H).
  inversion H; subst p'; clear H.
  apply nextToken_moves in Hn as (Hin & Hle & Hb & Htok); [|assumption].
  unfold later, valid, left_over. cbn [lexer current fst snd].
  rewrite Hin. repeat split; try assumption.
  - destruct (TokenType_eqb (type tok) EOF); lia.
  - destruct (TokenType_eqb (type tok) EOF); lia.
Qed.

Lemma advance_returns p : advance p <> OutOfFuel.
Proof.
  unfold advance. pose proof (nextToken_returns (lexer p)).
  destruct (nextToken (lexer p)); cbn; congruence.
Qed.

Lemma create_valid input p :
  create input = Ok p ->
  valid p /\ (left_over p <= String.length input)%nat.
Proof.
  unfold create. intros H. apply bind_outcome_ok in H as ([tok l'] & Hn & H).
  inversion H; subst p; clear H.
  apply nextToken_moves in Hn as (Hin & Hle & Hb & Htok); cbn [Lexer.pos]; [|lia].
  cbn [Lexer.input] in *.
  unfold valid, left_over. cbn [lexer current fst snd]. rewrite Hin.
  repeat split; try assumption; try lia.
  destruct (TokenType_eqb (type tok) EOF); lia.
Qed.

Lemma type_not_EOF p ty :
  TokenType_eqb (type (current p)) ty = true -> ty <> EOF ->
  TokenType_eqb (type (current p)) EOF = false.
Proof.
  intros H Hne. destruct (type (current p)), ty; try discriminate;
    try reflexivity; contradiction.
Qed.

Lemma expect_later ty p p' :
  valid p -> ty <> EOF -> expect ty p = Ok p' -> later true p p'.
Proof.
  intros Hv Hne H. unfold expect in H.
  destruct (TokenType_eqb (type (current p)) ty) eqn:E; [|discriminate].
  apply (advance_later p p' Hv (type_not_EOF p ty E Hne) H).
Qed.

Lemma expect_returns ty p : expect ty p <> OutOfFuel.
Proof.
  unfold expect. destruct (TokenType_eqb _ _); [apply advance_returns | discriminate].
Qed.

(** Whatever the descent returns, it has moved the cursor on. *)
Lemma descent_later fuel :
  (forall m p ast p',
     valid p -> parseExpression fuel m p = Ok (ast, p') -> later true p p')
  /\ (forall m left p ast p',
        valid p -> expression_loop fuel m left p = Ok (ast, p') ->
        later false p p')
  /\ (forall p ast p',
        valid p -> parsePrimary fuel p = Ok (ast, p') -> later true p p')
  /\ (forall name p ast p',
        valid p -> parseFunction fuel name p = Ok (ast, p') -> later true p p')
  /\ (forall args p args' p',
        valid p -> arguments_loop fuel args p = Ok (args', p') ->
        later false p p').
Proof.
  induction fuel as [|fuel (IHe & IHl & IHp & IHf & IHa)];
    [split; [|split; [|split; [|split]]]; intros; discriminate|].
  split; [|split; [|split; [|split]]].
  - intros m p ast p' Hv H. rewrite parseExpression_S in H.
    apply bind_outcome_ok in H as ([left p1] & H1 & H). cbn [fst snd] in H.
    apply IHp in H1; [|assumption].
    apply IHl in H; [|apply H1].
    apply (later_trans true false _ _ _ H1 H).
  - intros m left p ast p' Hv H. rewrite expression_loop_S in H.
    destruct (TokenType_eqb (type (current p)) OPERATOR) eqn:Hty;
      [|injection H as _ <-; now apply later_refl].
    cbv zeta in H. destruct (PRECEDENCE (value (current p))) as [prec|];
      [|injection H as _ <-; now apply later_refl].
    destruct ((prec =? 0) || (prec <? m));
      [injection H as _ <-; now apply later_refl|].
    apply bind_outcome_ok in H as (p1 & H1 & H).
    apply bind_outcome_ok in H as ([rhs p2] & H2 & H). cbn [fst snd] in H.
    apply advance_later in H1;
      [|assumption | apply (type_not_EOF p OPERATOR Hty); discriminate].
    apply IHe in H2; [|apply H1].
    apply IHl in H; [|apply H2].
    pose proof (later_trans _ _ _ _ _ H1 H2) as H12.
    apply later_weaken. apply (later_trans true false _ _ _ H12 H).
  - intros p ast p' Hv H.
    assert (Hadv : forall q, advance p = Ok q ->
              TokenType_eqb (type (current p)) EOF = false -> later true p q).
    { intros q Hq Hty. now apply advance_later. }
    destruct (type (current p)) eqn:Hty;
      try (cbn [parsePrimary] in H; rewrite Hty in H; discriminate);
      cbn [parsePrimary] in H; rewrite Hty in H;
      specialize (fun q Hq => Hadv q Hq eq_refl).
    + apply bind_outcome_ok in H as (p1 & H1 & H). injection H as _ <-. auto.
    + apply bind_outcome_ok in H as (p1 & H1 & H). injection H as _ <-. auto.
    + apply bind_outcome_ok in H as (p1 & H1 & H). apply Hadv in H1.
      destruct (TokenType_eqb (type (current p1)) COLON) eqn:Hc.
      * apply bind_outcome_ok in H as (p2 & H2 & H).
        apply advance_later in H2;
          [|apply H1 | apply (type_not_EOF p1 COLON Hc); discriminate].
        destruct (TokenType_eqb (type (current p2)) CELL_REF) eqn:Hr;
          cbn [negb] in H; [|discriminate].
        apply bind_outcome_ok in H as (p3 & H3 & H).
        apply advance_later in H3;
          [|apply H2 | apply (type_not_EOF p2 CELL_REF Hr); discriminate].
        apply bind_outcome_ok in H as (start & _ & H).
        apply bind_outcome_ok in H as (finish & _ & H).
        injection H as _ <-.
        apply (later_trans true true _ _ _ (later_trans true true _ _ _ H1 H2) H3).
      * apply bind_outcome_ok in H as (address & _ & H).
        injection H as _ <-. exact H1.
    + apply bind_outcome_ok in H as (p1 & H1 & H). apply Hadv in H1.
      apply IHf in H; [|apply H1].
      apply (later_trans true true _ _ _ H1 H).
    + cbv zeta in H.
      destruct (String.eqb (value (current p)) "-"
                || String.eqb (value (current p)) "+"); [|discriminate].
      apply bind_outcome_ok in H as (p1 & H1 & H). apply Hadv in H1.
      apply bind_outcome_ok in H as ([operand p2] & H2 & H).
      injection H as _ <-. cbn [snd]. apply IHp in H2; [|apply H1].
      apply (later_trans true true _ _ _ H1 H2).
    + apply bind_outcome_ok in H as (p1 & H1 & H). apply Hadv in H1.
      apply bind_outcome_ok in H as ([e p2] & H2 & H).
      apply bind_outcome_ok in H as (p3 & H3 & H).
      injection H as _ <-. cbn [snd] in H3.
      apply IHe in H2; [|apply H1].
      apply expect_later in H3; [|apply H2 | discriminate].
      apply (later_trans true true _ _ _ (later_trans true true _ _ _ H1 H2) H3).
  - intros name p ast p' Hv H. rewrite parseFunction_S in H.
    apply bind_outcome_ok in H as (p1 & H1 & H).
    apply bind_outcome_ok in H as ([args p2] & H2 & H).
    apply bind_outcome_ok in H as (p3 & H3 & H).
    injection H as _ <-. cbn [snd] in H3.
    apply expect_later in H1; [|assumption | discriminate].
    assert (H12 : later false p1 p2).
    { destruct (negb (TokenType_eqb (type (current p1)) RPAREN)).
      - apply bind_outcome_ok in H2 as ([arg p4] & H4 & H2). cbn [fst snd] in H2.
        apply IHe in H4; [|apply H1]. apply IHa in H2; [|apply H4].
        apply later_weaken. apply (later_trans true false _ _ _ H4 H2).
      - injection H2 as _ <-. apply later_refl, H1. }
    apply expect_later in H3; [|apply H12 | discriminate].
    apply (later_trans true true _ _ _ (later_trans true false _ _ _ H1 H12) H3).
  - intros args p args' p' Hv H. rewrite arguments_loop_S in H.
    destruct (TokenType_eqb (type (current p)) COMMA) eqn:Hty;
      [|injection H as _ <-; now apply later_refl].
    apply bind_outcome_ok in H as (p1 & H1 & H).
    apply bind_outcome_ok in H as ([arg p2] & H2 & H). cbn [fst snd] in H.
    apply advance_later in H1;
      [|assumption | apply (type_not_EOF p COMMA Hty); discriminate].
    apply IHe in H2; [|apply H1]. apply IHa in H; [|apply H2].
    apply later_weaken.
    apply (later_trans true false _ _ _ (later_trans true true _ _ _ H1 H2) H).
Qed.


Lemma bind_outcome_returns {A B} (x : outcome A) (f : A -> outcome B) :
  x <> OutOfFuel -> (forall a, x = Ok a -> f a <> OutOfFuel) ->
  bind_outcome x f <> OutOfFuel.
Proof. destruct x; cbn; [auto | discriminate | congruence]. Qed.

Lemma later_left_over b p p' :
  later b p p' -> (left_over p' <= left_over p)%nat
                  /\ (b = true -> left_over p' < left_over p)%nat.
Proof. intros (_ & _ & H). destruct b; split; try lia; discriminate. Qed.

(** Twice what is left of the input, and two, is fuel enough for the
    descent. *)
Lemma descent_returns fuel :
  (forall m p, valid p -> (2 * left_over p + 2 <= fuel)%nat ->
     parseExpression fuel m p <> OutOfFuel)
  /\ (forall m left p, valid p -> (2 * left_over p + 1 <= fuel)%nat ->
        expression_loop fuel m left p <> OutOfFuel)
  /\ (forall p, valid p -> (2 * left_over p + 1 <= fuel)%nat ->
        parsePrimary fuel p <> OutOfFuel)
  /\ (forall name p, valid p -> (2 * left_over p + 1 <= fuel)%nat ->
        parseFunction fuel name p <> OutOfFuel)
  /\ (forall args p, valid p -> (2 * left_over p + 1 <= fuel)%nat ->
        arguments_loop fuel args p <> OutOfFuel).
Proof.
  induction fuel as [|fuel (IHe & IHl & IHp & IHf & IHa)];
    [split; [|split; [|split; [|split]]]; intros; lia|].
  destruct (descent_later fuel) as (Le & Ll & Lp & Lf & La).
  split; [|split; [|split; [|split]]].
  - intros m p Hv Hf. rewrite parseExpression_S.
    apply bind_outcome_returns; [apply IHp; [assumption | lia]|].
    intros [left p1] H1. cbn [fst snd]. apply Lp in H1; [|assumption].
    destruct (later_left_over _ _ _ H1) as [_ Hlt]. specialize (Hlt eq_refl).
    apply IHl; [apply H1 | lia].
  - intros m left p Hv Hf. rewrite expression_loop_S.
    destruct (TokenType_eqb (type (current p)) OPERATOR) eqn:Hty;
      [|discriminate].
    cbv zeta. destruct (PRECEDENCE (value (current p))) as [prec|];
      [|discriminate].
    destruct ((prec =? 0) || (prec <? m)); [discriminate|].
    apply bind_outcome_returns; [apply advance_returns|].
    intros p1 H1.
    apply advance_later in H1;
      [|assumption | apply (type_not_EOF p OPERATOR Hty); discriminate].
    destruct (later_left_over _ _ _ H1) as [_ Hlt1]. specialize (Hlt1 eq_refl).
    apply bind_outcome_returns; [apply IHe; [apply H1 | lia]|].
    intros [rhs p2] H2. cbn [fst snd]. apply Le in H2; [|apply H1].
    destruct (later_left_over _ _ _ H2) as [_ Hlt2]. specialize (Hlt2 eq_refl).
    apply IHl; [apply H2 | lia].
  - intros p Hv Hf.
    assert (Hadv : forall q, advance p = Ok q ->
              TokenType_eqb (type (current p)) EOF = false ->
              valid q /\ (left_over q < left_over p)%nat).
    { intros q Hq Hty. apply advance_later in Hq; try assumption.
      split; [apply Hq | now apply (later_left_over _ _ _ Hq)]. }
    destruct (type (current p)) eqn:Hty; cbn [parsePrimary]; rewrite Hty;
      try discriminate;
      specialize (fun q Hq => Hadv q Hq eq_refl).
    + apply bind_outcome_returns; [apply advance_returns | discriminate].
    + apply bind_outcome_returns; [apply advance_returns | discriminate].
    + apply bind_outcome_returns; [apply advance_returns|].
      intros p1 H1.
      destruct (TokenType_eqb (type (current p1)) COLON).
      * apply bind_outcome_returns; [apply advance_returns|].
        intros p2 H2.
        destruct (negb (TokenType_eqb (type (current p2)) CELL_REF));
          [discriminate|].
        apply bind_outcome_returns; [apply advance_returns|].
        intros p3 H3. unfold toCellAddress.
        destruct (match_address _ (value (current p))); [|discriminate].
        cbn [bind_outcome].
        destruct (match_address _ (value (current p2))); discriminate.
      * unfold toCellAddress.
        destruct (match_address _ (value (current p))); discriminate.
    + apply bind_outcome_returns; [apply advance_returns|].
      intros p1 H1. apply Hadv in H1 as [V1 L1]. apply IHf; [assumption | lia].
    + cbv zeta.
      destruct (String.eqb (value (current p)) "-"
                || String.eqb (value (current p)) "+"); [|discriminate].
      apply bind_outcome_returns; [apply advance_returns|].
      intros p1 H1. apply Hadv in H1 as [V1 L1].
      apply bind_outcome_returns; [apply IHp; [assumption | lia] | discriminate].
    + apply bind_outcome_returns; [apply advance_returns|].
      intros p1 H1. apply Hadv in H1 as [V1 L1].
      apply bind_outcome_returns; [apply IHe; [assumption | lia]|].
      intros [e p2] H2.
      apply bind_outcome_returns; [apply expect_returns | discriminate].
  - intros name p Hv Hf. rewrite parseFunction_S.
    apply bind_outcome_returns; [apply expect_returns|].
    intros p1 H1. apply expect_later in H1; [|assumption | discriminate].
    destruct (later_left_over _ _ _ H1) as [_ Hlt1]. specialize (Hlt1 eq_refl).
    apply bind_outcome_returns.
    + destruct (negb (TokenType_eqb (type (current p1)) RPAREN));
        [|discriminate].
      apply bind_outcome_returns; [apply IHe; [apply H1 | lia]|].
      intros [arg p2] H2. cbn [fst snd]. apply Le in H2; [|apply H1].
      destruct (later_left_over _ _ _ H2) as [_ Hlt2]. specialize (Hlt2 eq_refl).
      apply IHa; [apply H2 | lia].
    + intros [args p2] H2.
      apply bind_outcome_returns; [apply expect_returns | discriminate].
  - intros args p Hv Hf. rewrite arguments_loop_S.
    destruct (TokenType_eqb (type (current p)) COMMA) eqn:Hty; [|discriminate].
    apply bind_outcome_returns; [apply advance_returns|].
    intros p1 H1.
    apply advance_later in H1;
      [|assumption | apply (type_not_EOF p COMMA Hty); discriminate].
    destruct (later_left_over _ _ _ H1) as [_ Hlt1]. specialize (Hlt1 eq_refl).
    apply bind_outcome_returns; [apply IHe; [apply H1 | lia]|].
    intros [arg p2] H2. cbn [fst snd]. apply Le in H2; [|apply H1].
    destruct (later_left_over _ _ _ H2) as [_ Hlt2]. specialize (Hlt2 eq_refl).
    apply IHa; [apply H2 | lia].
Qed.

Lemma length_strip_equals input :
  (String.length (strip_equals input) <= String.length input)%nat.
Proof.
  destruct input as [|c r]; [cbn; lia|]. cbn [strip_equals].
  destruct (charCode c =? 61); cbn [String.length]; lia.
Qed.

Lemma stable_refl {A} (a : outcome A) : stable a a.
Proof. now intros _. Qed.

Lemma bind_stable {A B} (x x' : outcome A) (f f' : A -> outcome B) :
  stable x x' -> (forall v, stable (f v) (f' v)) ->
  stable (bind_outcome x f) (bind_outcome x' f').
Proof.
  intros Hx Hf H. destruct x as [v| |]; cbn in H.
  - rewrite Hx by discriminate. cbn. now apply Hf.
  - now rewrite Hx by discriminate.
  - contradiction.
Qed.

Lemma parsePrimary_S fuel p :
  parsePrimary (S fuel) p
  = match type (current p) with
    | NUMBER =>
        let numValue := parseFloat (value (current p)) in
        bind_outcome (advance p) (fun p => Ok (NumberLiteral numValue, p))
    | STRING =>
        let strValue := value (current p) in
        bind_outcome (advance p) (fun p => Ok (StringLiteral strValue, p))
    | CELL_REF =>
        let cellRef := value (current p) in
        bind_outcome (advance p) (fun p =>
        if TokenType_eqb (type (current p)) COLON then
          bind_outcome (advance p) (fun p =>
          if negb (TokenType_eqb (type (current p)) CELL_REF) then
            Throw "Expected cell reference after colon"
          else
            let endRef := value (current p) in
            bind_outcome (advance p) (fun p =>
            bind_outcome (toCellAddress cellRef) (fun start =>
            bind_outcome (toCellAddress endRef) (fun finish =>
            Ok (RangeRef start finish, p)))))
        else
          bind_outcome (toCellAddress cellRef) (fun address =>
          Ok (CellRef address (includes_dollar cellRef)
                (includes_dollar cellRef), p)))
    | FUNCTION =>
        let funcName := value (current p) in
        bind_outcome (advance p) (fun p => parseFunction fuel funcName p)
    | LPAREN =>
        bind_outcome (advance p) (fun p =>
        bind_outcome (parseExpression fuel 0 p) (fun r =>
        bind_outcome (expect RPAREN (snd r)) (fun p => Ok (fst r, p))))
    | OPERATOR =>
        let op := value (current p) in
        if String.eqb op "-" || String.eqb op "+" then
          bind_outcome (advance p) (fun p =>
          bind_outcome (parsePrimary fuel p) (fun r =>
          Ok (UnaryOp op (fst r), snd r)))
        else Throw ("Unexpected operator: " ++ op)%string
    | _ => Throw ("Unexpected token: " ++ value (current p))%string
    end.
Proof. reflexivity. Qed.

(** More fuel does not change what the descent answers. *)
Lemma descent_stable fuel :
  (forall m p, stable (parseExpression fuel m p) (parseExpression (S fuel) m p))
  /\ (forall m left p,
        stable (expression_loop fuel m left p)
               (expression_loop (S fuel) m left p))
  /\ (forall p, stable (parsePrimary fuel p) (parsePrimary (S fuel) p))
  /\ (forall name p,
        stable (parseFunction fuel name p) (parseFunction (S fuel) name p))
  /\ (forall args p,
        stable (arguments_loop fuel args p) (arguments_loop (S fuel) args p)).
Proof.
  induction fuel as [|fuel (IHe & IHl & IHp & IHf & IHa)];
    [split; [|split; [|split; [|split]]]; intros; intros H; now contradiction H|].
  split; [|split; [|split; [|split]]].
  - intros m p. rewrite (parseExpression_S (S fuel)), (parseExpression_S fuel).
    apply bind_stable; [apply IHp | intros r; apply IHl].
  - intros m left p.
    rewrite (expression_loop_S (S fuel)), (expression_loop_S fuel).
    destruct (TokenType_eqb _ _); [|apply stable_refl]. cbv zeta.
    destruct (PRECEDENCE _); [|apply stable_refl].
    destruct (_ || _); [apply stable_refl|].
    apply bind_stable; [apply stable_refl|]. intros p1.
    apply bind_stable; [apply IHe | intros r; apply IHl].
  - intros p. rewrite (parsePrimary_S (S fuel)), (parsePrimary_S fuel).
    destruct (type (current p)); try apply stable_refl; cbv zeta.
    + apply bind_stable; [apply stable_refl | intros p1; apply IHf].
    + destruct (_ || _); [|apply stable_refl].
      apply bind_stable; [apply stable_refl | intros p1].
      apply bind_stable; [apply IHp | intros r; apply stable_refl].
    + apply bind_stable; [apply stable_refl | intros p1].
      apply bind_stable; [apply IHe | intros r; apply stable_refl].
  - intros name p. rewrite (parseFunction_S (S fuel)), (parseFunction_S fuel).
    apply bind_stable; [apply stable_refl | intros p1].
    apply bind_stable; [|intros r; apply stable_refl].
    destruct (negb _); [|apply stable_refl].
    apply bind_stable; [apply IHe | intros r; apply IHa].
  - intros args p. rewrite (arguments_loop_S (S fuel)), (arguments_loop_S fuel).
    destruct (TokenType_eqb _ _); [|apply stable_refl].
    apply bind_stable; [apply stable_refl | intros p1].
    apply bind_stable; [apply IHe | intros r; apply IHa].
Qed.

Lemma parseFormula_stable input fuel : forall extra,
  parseFormula fuel input <> OutOfFuel ->
  parseFormula (extra + fuel) input = parseFormula fuel input.
Proof.
  induction extra as [|extra IH]; intros H; [reflexivity|].
  rewrite <- (IH H). rewrite <- (IH H) in H.
  cbn [Nat.add]. revert H. unfold parseFormula, parse.
  apply bind_stable; [apply stable_refl | intros p].
  apply bind_stable; [apply (proj1 (descent_stable _)) | intros r; apply stable_refl].
Qed.

Lemma parseFormula_returns fuel input :
  (2 * String.length input + 2 <= fuel)%nat ->
  parseFormula fuel input <> OutOfFuel.
Proof.
  intros Hf. unfold parseFormula, parse.
  pose proof (length_strip_equals input) as Hlen.
  apply bind_outcome_returns.
  - unfold create. pose proof (nextToken_returns (Lexer.mk (strip_equals input) 0)).
    destruct (nextToken _); cbn; congruence.
  - intros p Hp. apply create_valid in Hp as [Hv Hl].
    apply bind_outcome_returns.
    + apply (proj1 (descent_returns fuel)); [assumption | lia].
    + intros [e p1] _. destruct (negb _); discriminate.
Qed.

(** X15. The parser terminates on every text of one-byte characters
    (code units 0 to 255, with the white space of [\s] among them): with fuel
    for twice the length of the text and two more, [parseFormula] returns a
    tree or throws, and what it answers is the same for any larger fuel. *)
Theorem parseFormula_terminates (fuel : nat) (input : string) :
  (2 * String.length input + 2 <= fuel)%nat ->
  ((exists ast, parseFormula fuel input = Ok ast)
   \/ (exists m, parseFormula fuel input = Throw m))
  /\ parseFormula fuel input
     = parseFormula (2 * String.length input + 2) input.
Proof.
  intros Hf. split.
  - pose proof (parseFormula_returns fuel input Hf) as H.
    destruct (parseFormula fuel input) as [ast|m|];
      [left | right | contradiction]; eexists; reflexivity.
  - replace fuel
      with ((fuel - (2 * String.length input + 2))
            + (2 * String.length input + 2))%nat by lia.
    apply parseFormula_stable, parseFormula_returns. lia.
Qed.

Lemma parseFormula_terminates_witness :
  (2 * String.length ("=SUM(A1:B2)" ++ no_break_space ++ "*-2") + 2 <= 40)%nat
  /\ ((exists ast,
         parseFormula 40 ("=SUM(A1:B2)" ++ no_break_space ++ "*-2") = Ok ast)
      \/ (exists m,
            parseFormula 40 ("=SUM(A1:B2)" ++ no_break_space ++ "*-2") = Throw m))
  /\ parseFormula 40 ("=SUM(A1:B2)" ++ no_break_space ++ "*-2")
     = parseFormula
         (2 * String.length ("=SUM(A1:B2)" ++ no_break_space ++ "*-2") + 2)
         ("=SUM(A1:B2)" ++ no_break_space ++ "*-2").
Proof.
  assert (H : (2 * String.length ("=SUM(A1:B2)" ++ no_break_space ++ "*-2") + 2
               <= 40)%nat) by (cbn; lia).
  split; [exact H|].
  exact (parseFormula_terminates 40 ("=SUM(A1:B2)" ++ no_break_space ++ "*-2") H).
Defined.


Lemma well_formed_call name args :
  Forall well_formed args -> well_formed (FunctionCall name args).
Proof.
  induction 1 as [|arg args Ha _ IH]; simpl; [exact I | now split].
Qed.

Lemma toCellAddress_accepts s a : toCellAddress s = Ok a -> toCellAddress a = Ok a.
Proof. intros H. pose proof (toCellAddress_ok s a H). now subst. Qed.

(** The five functions of the descent build well-formed trees. *)
Lemma descent_well_formed fuel :
  (forall m p ast p', parseExpression fuel m p = Ok (ast, p') -> well_formed ast)
  /\ (forall m left p ast p',
        well_formed left ->
        expression_loop fuel m left p = Ok (ast, p') -> well_formed ast)
  /\ (forall p ast p', parsePrimary fuel p = Ok (ast, p') -> well_formed ast)
  /\ (forall name p ast p',
        parseFunction fuel name p = Ok (ast, p') -> well_formed ast)
  /\ (forall args p args' p',
        Forall well_formed args ->
        arguments_loop fuel args p = Ok (args', p') -> Forall well_formed args').
Proof.
  induction fuel as [|fuel (IHe & IHl & IHp & IHf & IHa)];
    [repeat split; intros; discriminate|].
  split; [|split; [|split; [|split]]].
  - intros m p ast p' H. rewrite parseExpression_S in H.
    apply bind_outcome_ok in H as ([left p1] & H1 & H). simpl in H.
    apply IHl in H; [assumption|]. now apply IHp in H1.
  - intros m left p ast p' Hl H. rewrite expression_loop_S in H.
    destruct (TokenType_eqb (type (current p)) OPERATOR);
      [|injection H as <- _; assumption].
    cbv zeta in H. destruct (PRECEDENCE (value (current p))) as [prec|] eqn:Hop;
      [|injection H as <- _; assumption].
    destruct ((prec =? 0) || (prec <? m)); [injection H as <- _; assumption|].
    apply bind_outcome_ok in H as (p1 & _ & H).
    apply bind_outcome_ok in H as ([rhs p2] & H2 & H). simpl in H.
    apply IHl in H; [assumption|]. cbn [well_formed].
    split; [congruence|]. split; [assumption|]. now apply IHe in H2.
  - intros p ast p' H. rewrite parsePrimary_S in H.
    destruct (type (current p)) eqn:Hty; try discriminate.
    + apply bind_outcome_ok in H as (p1 & _ & H). injection H as <- _. exact I.
    + apply bind_outcome_ok in H as (p1 & _ & H). injection H as <- _. exact I.
    + apply bind_outcome_ok in H as (p1 & _ & H).
      destruct (TokenType_eqb (type (current p1)) COLON).
      * apply bind_outcome_ok in H as (p2 & _ & H).
        destruct (negb (TokenType_eqb (type (current p2)) CELL_REF));
          [discriminate|].
        apply bind_outcome_ok in H as (p3 & _ & H).
        apply bind_outcome_ok in H as (start & Hs & H).
        apply bind_outcome_ok in H as (finish & Hf & H).
        injection H as <- _. cbn [well_formed].
        split; eapply toCellAddress_accepts; eassumption.
      * apply bind_outcome_ok in H as (address & Ha & H).
        injection H as <- _. cbn [well_formed].
        eapply toCellAddress_accepts; eassumption.
    + apply bind_outcome_ok in H as (p1 & _ & H). now apply IHf in H.
    + cbv zeta in H.
      destruct (String.eqb (value (current p)) "-") eqn:Em;
        [|destruct (String.eqb (value (current p)) "+") eqn:Ep];
        cbn [orb] in H; try discriminate.
      * apply String.eqb_eq in Em.
        apply bind_outcome_ok in H as (p1 & _ & H).
        apply bind_outcome_ok in H as ([operand p2] & H2 & H).
        injection H as <- _. cbn [well_formed fst].
        split; [now left | now apply IHp in H2].
      * apply String.eqb_eq in Ep.
        apply bind_outcome_ok in H as (p1 & _ & H).
        apply bind_outcome_ok in H as ([operand p2] & H2 & H).
        injection H as <- _. cbn [well_formed fst].
        split; [now right | now apply IHp in H2].
    + apply bind_outcome_ok in H as (p1 & _ & H).
      apply bind_outcome_ok in H as ([e p2] & H2 & H).
      apply bind_outcome_ok in H as (p3 & _ & H).
      injection H as <- _. simpl. now apply IHe in H2.
  - intros name p ast p' H. rewrite parseFunction_S in H.
    apply bind_outcome_ok in H as (p1 & _ & H).
    apply bind_outcome_ok in H as ([args p2] & H2 & H).
    apply bind_outcome_ok in H as (p3 & _ & H).
    injection H as <- _. simpl (fst _). apply well_formed_call.
    destruct (negb (TokenType_eqb (type (current p1)) RPAREN)).
    + apply bind_outcome_ok in H2 as ([arg p4] & H4 & H2). simpl in H2.
      apply IHa in H2; [assumption|].
      constructor; [now apply IHe in H4 | constructor].
    + injection H2 as <- _. constructor.
  - intros args p args' p' Hargs H. rewrite arguments_loop_S in H.
    destruct (TokenType_eqb (type (current p)) COMMA);
      [|injection H as <- _; assumption].
    apply bind_outcome_ok in H as (p1 & _ & H).
    apply bind_outcome_ok in H as ([arg p2] & H2 & H). simpl in H.
    apply IHa in H; [assumption|].
    apply Forall_app. split; [assumption|].
    constructor; [now apply IHe in H2 | constructor].
Qed.

(** X16. Every tree that [parseFormula] returns, on a text of one-byte
    characters (code units 0 to 255), is well formed: it
    holds no boolean literal, every address in it is one that
    [toCellAddress] accepts, every binary operator is in the precedence
    table and every unary operator is a sign. *)
Theorem parseFormula_well_formed (fuel : nat) (input : string) (ast : FormulaAst) :
  parseFormula fuel input = Ok ast -> well_formed ast.
Proof.
  intros H. unfold parseFormula, parse in H.
  apply bind_outcome_ok in H as (parser & _ & H).
  apply bind_outcome_ok in H as ([e p1] & He & H). simpl in H.
  destruct (negb (TokenType_eqb (type (current p1)) EOF)); [discriminate|].
  injection H as <-.
  now apply (proj1 (descent_well_formed fuel)) in He.
Qed.

Lemma parseFormula_well_formed_witness :
  parseFormula 12 ("=IF(A1>=2," ++ no_break_space ++ "SUM(B1:B3), -C$4)")
  = Ok (FunctionCall "IF"
          [BinaryOp ">=" (CellRef "A1" false false) (NumberLiteral 2);
           FunctionCall "SUM" [RangeRef "B1" "B3"];
           UnaryOp "-" (CellRef "C$4" true true)])
  /\ well_formed
       (FunctionCall "IF"
          [BinaryOp ">=" (CellRef "A1" false false) (NumberLiteral 2);
           FunctionCall "SUM" [RangeRef "B1" "B3"];
           UnaryOp "-" (CellRef "C$4" true true)]).
Proof.
  assert (H : parseFormula 12 ("=IF(A1>=2," ++ no_break_space ++ "SUM(B1:B3), -C$4)")
    = Ok (FunctionCall "IF"
          [BinaryOp ">=" (CellRef "A1" false false) (NumberLiteral 2);
           FunctionCall "SUM" [RangeRef "B1" "B3"];
           UnaryOp "-" (CellRef "C$4" true true)])) by reflexivity.
  split; [exact H|].
  exact (parseFormula_well_formed 12 _ _ H).
Defined.

End DescentFacts.


(** *** The order that [getEvaluationOrder] returns *)

Module OrderFacts.
Import Js JsFacts DependencyGraph GraphFacts.

Lemma occurrences_cons b x l :
  occurrences b (x :: l) = (if String.eqb b x then 1 else 0) + occurrences b l.
Proof.
  unfold occurrences. simpl. destruct (string_dec x b) as [->|Hne].
  - rewrite String.eqb_refl. lia.
  - destruct (String.eqb_spec b x); [congruence | lia].
Qed.

Lemma occurrences_nonneg b l : 0 <= occurrences b l.
Proof. unfold occurrences. lia. Qed.

Lemma occurrences_app b l1 l2 :
  occurrences b (l1 ++ l2) = occurrences b l1 + occurrences b l2.
Proof. unfold occurrences. rewrite count_occ_app. lia. Qed.

Lemma occurrences_pos g a b :
  depends_on g a b = true <-> 0 < occurrences b (getDependencies a g).
Proof.
  rewrite <- getDependencies_has, set_has_In. unfold occurrences.
  rewrite (count_occ_In string_dec). lia.
Qed.

Lemma reads_app g b l1 l2 : reads g b (l1 ++ l2) = reads g b l1 + reads g b l2.
Proof. induction l1 as [|a l1 IH]; simpl; [reflexivity | rewrite IH; lia]. Qed.

Lemma reads_nonneg g b l : 0 <= reads g b l.
Proof.
  induction l as [|a l IH]; simpl; [lia|].
  pose proof (occurrences_nonneg b (getDependencies a g)). lia.
Qed.

(** Distinct cells taken among [cells] read [b] no more often than [cells]
    do. *)
Lemma reads_incl g b l : forall cells,
  NoDup l -> incl l cells -> reads g b l <= reads g b cells.
Proof.
  induction l as [|x l IH]; intros cells Hnd Hin; simpl.
  - apply reads_nonneg.
  - inversion Hnd as [|? ? Hx Hl]; subst.
    destruct (in_split x cells (Hin x (or_introl eq_refl))) as (c1 & c2 & ->).
    rewrite reads_app. simpl.
    assert (Hsub : incl l (c1 ++ c2)).
    { intros y Hy. specialize (Hin y (or_intror Hy)).
      apply in_app_or in Hin as [H|[->|H]]; try contradiction;
        apply in_or_app; auto. }
    specialize (IH (c1 ++ c2) Hl Hsub). rewrite reads_app in IH. lia.
Qed.

Lemma map_get_bump delta m dep b :
  map_get b (bump delta m dep)
  = match map_get b m with
    | Some d => Some (d + (if String.eqb b dep then delta else 0))
    | None => None
    end.
Proof.
  unfold bump. destruct (map_get dep m) as [d'|] eqn:E.
  - rewrite map_get_set. destruct (String.eqb_spec b dep) as [->|].
    + now rewrite E.
    + destruct (map_get b m); [f_equal; lia | reflexivity].
  - destruct (String.eqb_spec b dep) as [->|].
    + now rewrite E.
    + destruct (map_get b m); [f_equal; lia | reflexivity].
Qed.

Lemma map_get_bump_all delta deps : forall m b,
  map_get b (fold_left (bump delta) deps m)
  = match map_get b m with
    | Some d => Some (d + delta * occurrences b deps)
    | None => None
    end.
Proof.
  induction deps as [|dep deps IH]; intros m b; simpl.
  - destruct (map_get b m); [f_equal; unfold occurrences; simpl; lia | reflexivity].
  - rewrite IH, map_get_bump, occurrences_cons.
    destruct (map_get b m); [|reflexivity].
    f_equal. destruct (String.eqb b dep); lia.
Qed.

Lemma map_get_release_all deps m b :
  map_get b (fold_left (bump (-1)) deps m)
  = match map_get b m with
    | Some d => Some (d - occurrences b deps)
    | None => None
    end.
Proof.
  rewrite map_get_bump_all. destruct (map_get b m); [f_equal; lia | reflexivity].
Qed.

Lemma fst_release st dep : fst (release st dep) = bump (-1) (fst st) dep.
Proof.
  destruct st as [m q]. unfold release, bump. simpl.
  destruct (map_get dep m); reflexivity.
Qed.

Lemma fst_release_all deps : forall st,
  fst (fold_left release deps st) = fold_left (bump (-1)) deps (fst st).
Proof.
  induction deps as [|dep deps IH]; intros st; simpl; [reflexivity|].
  now rewrite IH, fst_release.
Qed.

Lemma keys_map_set {V} k (v : V) m :
  List.map fst (map_set k v m)
  = if map_has k m then List.map fst m else List.map fst m ++ [k].
Proof.
  unfold map_has. induction m as [|[k' v'] m IH]; simpl; [reflexivity|].
  destruct (String.eqb_spec k k') as [->|Hne]; simpl; [reflexivity|].
  rewrite IH. now destruct (map_get k m).
Qed.

Lemma map_has_In {V} k (m : map V) :
  map_has k m = true <-> In k (List.map fst m).
Proof.
  unfold map_has. induction m as [|[k' v'] m IH]; simpl.
  - split; [discriminate | intros []].
  - destruct (String.eqb_spec k k') as [->|Hne].
    + split; auto.
    + rewrite IH. split; [auto | intros [H|H]; [congruence | assumption]].
Qed.

Lemma NoDup_snoc {A} (l : list A) x : NoDup l -> ~ In x l -> NoDup (l ++ [x]).
Proof.
  intros Hl Hx. induction Hl as [|y l Hy Hl IH]; simpl.
  - constructor; [intros [] | constructor].
  - constructor.
    + rewrite in_app_iff. simpl. intros [H|[H|[]]]; [contradiction|].
      subst. apply Hx. now left.
    + apply IH. intros H. apply Hx. now right.
Qed.

Lemma keys_NoDup_set {V} k (v : V) m :
  NoDup (List.map fst m) -> NoDup (List.map fst (map_set k v m)).
Proof.
  intros H. rewrite keys_map_set. destruct (map_has k m) eqn:E; [assumption|].
  apply NoDup_snoc; [assumption|]. rewrite <- map_has_In. congruence.
Qed.

Lemma keys_bump delta m dep : List.map fst (bump delta m dep) = List.map fst m.
Proof.
  unfold bump. destruct (map_get dep m) eqn:E; [|reflexivity].
  rewrite keys_map_set. unfold map_has. now rewrite E.
Qed.

Lemma map_get_In_NoDup {V} k (v : V) m :
  NoDup (List.map fst m) -> In (k, v) m -> map_get k m = Some v.
Proof.
  induction m as [|[k' v'] m IH]; simpl; [intros _ []|].
  intros Hnd [[= -> ->]|Hin].
  - now rewrite String.eqb_refl.
  - inversion Hnd as [|? ? Hk Hm]; subst.
    destruct (String.eqb_spec k k') as [->|_]; [|now apply IH].
    exfalso. apply Hk. apply in_map_iff. now exists (k', v).
Qed.

(** The in-degrees that [getEvaluationOrder] starts from: every cell of the
    set has the number of times the cells of the set read it. *)
Lemma initial_degrees_spec cells g :
  NoDup (List.map fst (initial_degrees cells g))
  /\ forall b,
       map_get b (initial_degrees cells g)
       = if set_has b cells then Some (reads g b cells) else None.
Proof.
  unfold initial_degrees.
  set (seed := fold_left (fun m cell => map_set cell 0 m) cells []).
  assert (Hseed : NoDup (List.map fst seed)
                  /\ forall b, map_get b seed
                               = if set_has b cells then Some 0 else None).
  { unfold seed.
    assert (H : forall (m : map Z),
      NoDup (List.map fst m) ->
      NoDup (List.map fst (fold_left (fun m cell => map_set cell 0 m) cells m))
      /\ forall b,
           map_get b (fold_left (fun m cell => map_set cell 0 m) cells m)
           = if set_has b cells then Some 0 else map_get b m).
    { induction cells as [|c cells IH]; intros m Hm; simpl; [now split|].
      destruct (IH (map_set c 0 m) (keys_NoDup_set c 0 m Hm)) as [H1 H2].
      split; [assumption|]. intros b. rewrite H2, map_get_set.
      change (set_has b (c :: cells))
        with (String.eqb b c || set_has b cells)%bool.
      destruct (set_has b cells), (String.eqb b c); reflexivity. }
    destruct (H [] (NoDup_nil _)) as [H1 H2]. split; [assumption|].
    intros b. rewrite H2. now destruct (set_has b cells). }
  destruct Hseed as [Hnd Hget]. clearbody seed.
  assert (H : forall readers (m : map Z),
    NoDup (List.map fst m) ->
    NoDup (List.map fst
             (fold_left
                (fun m cell =>
                   match map_get cell (dependencies g) with
                   | Some deps => fold_left (bump 1) deps m
                   | None => m
                   end) readers m))
    /\ forall b,
         map_get b
           (fold_left
              (fun m cell =>
                 match map_get cell (dependencies g) with
                 | Some deps => fold_left (bump 1) deps m
                 | None => m
                 end) readers m)
         = match map_get b m with
           | Some d => Some (d + reads g b readers)
           | None => None
           end).
  { induction readers as [|a readers IH]; intros m Hm; simpl.
    - split; [assumption|]. intros b.
      destruct (map_get b m); [f_equal; lia | reflexivity].
    - assert (E : match map_get a (dependencies g) with
                  | Some deps => fold_left (bump 1) deps m
                  | None => m
                  end = fold_left (bump 1) (getDependencies a g) m).
      { unfold getDependencies. now destruct (map_get a (dependencies g)). }
      rewrite E.
      assert (Hk : List.map fst (fold_left (bump 1) (getDependencies a g) m)
                   = List.map fst m).
      { generalize (getDependencies a g) m. clear.
        induction l as [|d l IHl]; intros m; simpl; [reflexivity|].
        now rewrite IHl, keys_bump. }
      destruct (IH (fold_left (bump 1) (getDependencies a g) m)) as [H1 H2];
        [now rewrite Hk|].
      split; [assumption|]. intros b. rewrite H2, map_get_bump_all.
      destruct (map_get b m); [f_equal; lia | reflexivity]. }
  destruct (H cells seed Hnd) as [H1 H2]. split; [assumption|].
  intros b. rewrite H2, Hget. destruct (set_has b cells); reflexivity.
Qed.

Lemma release_settled cells res dep m q :
  settled cells m q res ->
  settled cells (fst (release (m, q) dep)) (snd (release (m, q) dep)) res.
Proof.
  intros (S1 & S2 & S3). unfold release.
  destruct (map_get dep m) as [d|] eqn:E; simpl; [|now repeat split].
  assert (Hget : forall b,
            map_get b (map_set dep (d - 1) m)
            = if String.eqb b dep then Some (d - 1) else map_get b m)
    by (intros b; apply map_get_set).
  assert (Hold : forall b, In b (res ++ q) ->
            exists d', map_get b (map_set dep (d - 1) m) = Some d' /\ d' <= 0).
  { intros b Hb. destruct (S2 b Hb) as (db & Eb & Hdb). rewrite Hget.
    destruct (String.eqb_spec b dep) as [->|_]; [|now exists db].
    exists (d - 1). split; [reflexivity|]. rewrite E in Eb. injection Eb as ->. lia. }
  assert (Hkeys : forall b d', map_get b (map_set dep (d - 1) m) = Some d' ->
            In b cells).
  { intros b d'. rewrite Hget.
    destruct (String.eqb_spec b dep) as [->|_]; [intros _; now apply (S3 dep d)|].
    apply S3. }
  destruct (Z.eqb_spec (d - 1) 0) as [H0|H0]; [|now repeat split].
  assert (Hnew : ~ In dep (res ++ q)).
  { intros Hin. destruct (S2 dep Hin) as (d' & Ed & Hd).
    rewrite E in Ed. injection Ed as <-. lia. }
  repeat split; try assumption.
  - rewrite app_assoc. now apply NoDup_snoc.
  - intros b Hb. rewrite app_assoc in Hb.
    apply in_app_or in Hb as [Hb|[<-|[]]]; [now apply Hold|].
    exists (d - 1). rewrite Hget, String.eqb_refl. split; [reflexivity | lia].
Qed.

Lemma release_all_settled cells res deps : forall m q,
  settled cells m q res ->
  settled cells (fst (fold_left release deps (m, q)))
    (snd (fold_left release deps (m, q))) res.
Proof.
  induction deps as [|dep deps IH]; intros m q H; cbn [fold_left]; [assumption|].
  pose proof (release_settled cells res dep m q H) as H1.
  destruct (release (m, q) dep) as [m' q']. now apply IH.
Qed.

Lemma snoc_split {A} (l : list A) c pre b post :
  l ++ [c] = pre ++ b :: post ->
  (post = [] /\ pre = l /\ b = c)
  \/ exists post', post = post' ++ [c] /\ l = pre ++ b :: post'.
Proof.
  revert pre. induction l as [|x l IH]; intros pre E.
  - destruct pre as [|y pre]; simpl in E.
    + injection E as <- <-. now left.
    + injection E as _ E. destruct pre; discriminate.
  - destruct pre as [|y pre]; simpl in E.
    + injection E as <- <-. right. now exists l.
    + injection E as <- E. destruct (IH pre E) as [(-> & -> & ->)|(post' & -> & ->)].
      * now left.
      * right. now exists post'.
Qed.

(** The loop returns an order in which the readers come first. *)
Lemma order_loop_readers_first g cells fuel : forall m q res order,
  settled cells m q res ->
  (forall b d, map_get b m = Some d -> d = reads g b cells - reads g b res) ->
  readers_first g cells res ->
  order_loop fuel g m q res = Some order ->
  readers_first g cells order.
Proof.
  induction fuel as [|fuel IH]; intros m [|current q] res order Hs Hd Hr;
    simpl; try discriminate; try (now intros [= <-]).
  assert (E : match map_get current (dependencies g) with
              | Some deps => fold_left release deps (m, q)
              | None => (m, q)
              end = fold_left release (getDependencies current g) (m, q)).
  { unfold getDependencies. now destruct (map_get current (dependencies g)). }
  rewrite E. clear E.
  assert (Hs' : settled cells m q (res ++ [current])).
  { destruct Hs as (S1 & S2 & S3). unfold settled.
    rewrite <- app_assoc. simpl. now repeat split. }
  pose proof (release_all_settled cells (res ++ [current])
                (getDependencies current g) m q Hs') as Hs''.
  pose proof (fst_release_all (getDependencies current g) (m, q)) as Hm.
  destruct (fold_left release (getDependencies current g) (m, q)) as [m' q'].
  simpl in Hs'', Hm. apply IH; try assumption.
  - intros b d. rewrite Hm, map_get_release_all.
    destruct (map_get b m) as [d0|] eqn:Eb; [|discriminate].
    intros [= <-]. rewrite (Hd b d0 Eb), reads_app. cbn [reads fold_right]. lia.
  - intros pre b post a Eq Ha Hab.
    apply snoc_split in Eq as [(-> & -> & ->)|(post' & -> & ->)];
      [|now apply (Hr pre b post' a)].
    destruct (in_dec string_dec a res) as [Hin|Hout]; [assumption|exfalso].
    destruct Hs as (S1 & S2 & S3).
    destruct (S2 current) as (d & Ec & Hle);
      [apply in_or_app; right; now left|].
    pose proof (Hd current d Ec) as Hdc.
    assert (Hnd : NoDup (a :: res)).
    { constructor; [assumption|]. now apply NoDup_app_remove_r in S1. }
    assert (Hincl : incl (a :: res) cells).
    { intros x [<-|Hx]; [assumption|].
      destruct (S2 x) as (dx & Ex & _); [apply in_or_app; now left|].
      now apply (S3 x dx). }
    pose proof (reads_incl g current (a :: res) cells Hnd Hincl) as Hsum.
    simpl in Hsum. apply occurrences_pos in Hab. lia.
Qed.

Lemma NoDup_map_filter {A B} (f : A -> B) (p : A -> bool) l :
  NoDup (List.map f l) -> NoDup (List.map f (filter p l)).
Proof.
  induction l as [|x l IH]; simpl; intros H; [constructor|].
  inversion H as [|? ? Hx Hl]; subst.
  destruct (p x); simpl; [|now apply IH].
  constructor; [|now apply IH].
  intros Hin. apply Hx. apply in_map_iff in Hin as (y & Ey & Hy).
  apply filter_In in Hy as [Hy _]. apply in_map_iff. now exists y.
Qed.

(** In the order that [getEvaluationOrder] returns, every address comes
    after all the cells of the set that read it: the cells are ordered from
    the readers to what they read. *)
Lemma getEvaluationOrder_readers_first g cells order :
  getEvaluationOrder cells g = Some order -> readers_first g cells order.
Proof.
  unfold getEvaluationOrder.
  destruct (initial_degrees_spec cells g) as [Hnd Hget].
  apply order_loop_readers_first.
  - repeat split.
    + simpl. now apply NoDup_map_filter.
    + simpl. intros b Hb. apply in_map_iff in Hb as ([k d] & <- & Hin).
      apply filter_In in Hin as [Hin Hz]. simpl in *.
      apply Z.eqb_eq in Hz. subst d. exists 0.
      split; [now apply map_get_In_NoDup | lia].
    + intros b d. rewrite Hget. destruct (set_has b cells) eqn:E; [|discriminate].
      intros _. now apply set_has_In.
  - intros b d. rewrite Hget. destruct (set_has b cells); [|discriminate].
    intros [= <-]. simpl. lia.
  - intros [|x pre] b post a E; discriminate.
Qed.

(** C3 (the code departs from it). [getEvaluationOrder] always returns, and
    in the order it returns every address comes after all the cells of the
    set that read it, so that a cell comes before the cells it depends on:
    the in-degree counted for a cell is the number of cells that read it,
    and the cells nothing reads are queued first.  For the chain in which A3
    reads A2 and A2 reads A1 the order is A3, A2, A1, whatever the order of
    the cells given. *)
Theorem evaluation_order_is_backwards :
  (forall g cells, exists order, getEvaluationOrder cells g = Some order)
  /\ (forall g cells order,
        getEvaluationOrder cells g = Some order ->
        forall pre b post a,
          order = pre ++ b :: post ->
          In a cells -> depends_on g a b = true -> In a pre)
  /\ getEvaluationOrder ["A1"; "A2"; "A3"] Examples.chain = Some ["A3"; "A2"; "A1"]
  /\ getEvaluationOrder ["A3"; "A2"; "A1"] Examples.chain = Some ["A3"; "A2"; "A1"]
  /\ depends_on Examples.chain "A3" "A2" = true
  /\ depends_on Examples.chain "A2" "A1" = true.
Proof.
  split; [intros g cells; apply getEvaluationOrder_returns|].
  split; [intros g cells order H;
          exact (getEvaluationOrder_readers_first g cells order H)|].
  repeat split; reflexivity.
Qed.

End OrderFacts.

(** *** More of the dependency graph *)

Module GraphMore.
Import Js DependencyGraph JsFacts GraphFacts OrderFacts.

Lemma map_set_same {V} k (v : V) m : map_get k m = Some v -> map_set k v m = m.
Proof.
  induction m as [|[k' v'] m IH]; simpl; [discriminate|].
  destruct (String.eqb_spec k k') as [->|]; intros H.
  - now injection H as ->.
  - now rewrite IH.
Qed.

Lemma set_add_same x s : set_has x s = true -> set_add x s = s.
Proof. unfold set_add. now intros ->. Qed.

Lemma add_to_twice k x m :
  map_get k m <> None -> add_to k x (add_to k x m) = add_to k x m.
Proof.
  intros H. unfold add_to at 2 3.
  destruct (map_get k m) as [s|] eqn:E; [|contradiction].
  unfold add_to. rewrite map_get_set, String.eqb_refl.
  rewrite set_add_same by (rewrite set_has_add, String.eqb_refl; reflexivity).
  apply map_set_same. now rewrite map_get_set, String.eqb_refl.
Qed.

Lemma ensure_add_to k x m :
  map_get k m <> None -> ensure k (add_to k x m) = add_to k x m.
Proof.
  intros H. unfold ensure, map_has, add_to.
  destruct (map_get k m) as [s|] eqn:E; [|contradiction].
  now rewrite map_get_set, String.eqb_refl.
Qed.

(** X17. Adding a dependency that is there changes nothing:
    [addDependency] records the edge in both maps, and a second call with
    the same two addresses leaves the graph as the first one left it. *)
Theorem addDependency_idempotent (from to : string) (g : t) :
  addDependency from to (addDependency from to g) = addDependency from to g
  /\ In to (getDependencies from (addDependency from to g))
  /\ In from (getDependents to (addDependency from to g)).
Proof.
  split; [|split].
  - unfold addDependency. cbn [dependencies dependents].
    rewrite !ensure_add_to by apply map_get_ensure.
    now rewrite !add_to_twice by apply map_get_ensure.
  - apply set_has_In. rewrite getDependencies_has, depends_on_add.
    now rewrite !String.eqb_refl.
  - apply set_has_In. rewrite getDependents_has, dependent_of_add.
    now rewrite !String.eqb_refl.
Qed.

Lemma removeDependencies_edges cell g :
  consistent g ->
  forall a b,
    depends_on (removeDependencies cell g) a b
    = (negb (String.eqb cell a) && negb (String.eqb cell b)
       && depends_on g a b)%bool.
Proof.
  intros H a b. rewrite removeDependencies_unlink.
  pose proof (unlink_inverse cell (dependencies g) (dependents g) H) as H1.
  destruct (unlink cell (dependencies g) (dependents g)) as [deps1 dpts1].
  simpl in H1.
  assert (H2 : forall a b, member dpts1 a b = member deps1 b a)
    by (intros x y; symmetry; apply H1).
  pose proof (unlink_inverse cell dpts1 deps1 H2) as H3.
  destruct (unlink cell dpts1 deps1) as [dpts2 deps2]. simpl in H3.
  rewrite !depends_on_member. cbn [dependencies].
  destruct (H3 b a) as [E1 E2]. rewrite <- E1, E2.
  destruct (H1 a b) as [E3 E4]. rewrite <- E3, E4.
  destruct (String.eqb cell a), (String.eqb cell b); reflexivity.
Qed.

(** X18. On a graph built by calls of [addDependency] and
    [removeDependencies], [removeDependencies(cell)] removes every edge that
    leaves [cell] and every edge that enters it, and no other edge: the
    cells that read [cell] lose it from their dependencies. *)
Theorem removeDependencies_cuts (cs : list call) (cell a b : string) :
  depends_on (removeDependencies cell (run cs)) a b
  = (negb (String.eqb cell a) && negb (String.eqb cell b)
     && depends_on (run cs) a b)%bool
  /\ getDependencies cell (removeDependencies cell (run cs)) = []
  /\ getDependents cell (removeDependencies cell (run cs)) = [].
Proof.
  assert (Hc : consistent (run cs)).
  { apply run_consistent_from. intros x y. reflexivity. }
  pose proof (removeDependencies_consistent cell _ Hc) as Hc'.
  pose proof (removeDependencies_edges cell _ Hc) as He.
  split; [apply He|].
  assert (Hnil : forall s : set, (forall x, set_has x s = false) -> s = []).
  { intros [|y s] Hs; [reflexivity|]. specialize (Hs y). simpl in Hs.
    now rewrite String.eqb_refl in Hs. }
  split; apply Hnil; intros x.
  - rewrite getDependencies_has, He, String.eqb_refl. reflexivity.
  - rewrite getDependents_has, <- Hc', He, String.eqb_refl.
    now rewrite andb_false_r.
Qed.


Lemma reaches_trans g a b c : reaches g a b -> reaches g b c -> reaches g a c.
Proof.
  induction 1 as [|a b' b Hab _ IH]; [auto|].
  intros H. apply (reaches_step g a b'); auto.
Qed.

Lemma hasCycle_false_unreachable g from to :
  hasCycle from to g = Some false -> ~ reaches g to from.
Proof.
  intros H Hr.
  destruct (hasCycle_loop_false g from (S (edge_count g)) [] [to])
    as (closed & C1 & C2 & C3);
    [intros v [] | intros v d [] | exact H |].
  apply (C1 from); [|reflexivity].
  apply (closed_reaches g closed to from C2 Hr). apply C3. right. now left.
Qed.

Lemma hasCycle_true_reachable g from to :
  hasCycle from to g = Some true -> reaches g to from.
Proof. apply hasCycle_loop_true. intros x [<-|[]]. apply reaches_here. Qed.

(** A path of the graph with one more edge either is a path of the graph,
    or runs to the source of the new edge and on from its target. *)
Lemma reaches_added g from to x y :
  reaches (addDependency from to g) x y ->
  reaches g x y \/ (reaches g x from /\ reaches g to y).
Proof.
  induction 1 as [a|a b c Hab _ IH]; [left; apply reaches_here|].
  rewrite depends_on_add in Hab.
  apply orb_prop in Hab as [Hnew|Hold].
  - apply andb_prop in Hnew as [Ea Eb].
    apply String.eqb_eq in Ea, Eb. subst a b. right.
    split; [apply reaches_here|].
    destruct IH as [IH|[_ IH]]; exact IH.
  - destruct IH as [IH|[IH1 IH2]].
    + left. now apply (reaches_step g a b).
    + right. split; [now apply (reaches_step g a b) | exact IH2].
Qed.

Lemma reaches_kept g from to x y :
  reaches g x y -> reaches (addDependency from to g) x y.
Proof.
  induction 1 as [|a b c Hab _ IH]; [apply reaches_here|].
  apply (reaches_step _ a b); [|exact IH].
  rewrite depends_on_add, Hab. apply orb_true_r.
Qed.

(** X19. The check before an edge is added does its work: when
    [hasCycle(from, to)] answers false on a graph without cycles, the graph
    is still without cycles after [addDependency(from, to)]; when it answers
    true, the graph has a cycle through [from] after the edge is added. *)
Theorem hasCycle_guards_addDependency (g : t) (from to : string) :
  (acyclic g -> hasCycle from to g = Some false ->
   acyclic (addDependency from to g))
  /\ (hasCycle from to g = Some true ->
      depends_on (addDependency from to g) from to = true
      /\ reaches (addDependency from to g) to from).
Proof.
  split.
  - intros Hg Hf a b Hab Hba.
    apply hasCycle_false_unreachable in Hf.
    apply reaches_added in Hba.
    rewrite depends_on_add in Hab. apply orb_prop in Hab as [Hnew|Hold].
    + apply andb_prop in Hnew as [Ea Eb].
      apply String.eqb_eq in Ea, Eb. subst a b.
      destruct Hba as [H|[_ H]]; exact (Hf H).
    + destruct Hba as [H|[H1 H2]]; [exact (Hg a b Hold H)|].
      apply Hf. apply (reaches_trans g to a from H2).
      now apply (reaches_step g a b).
  - intros Ht. apply hasCycle_true_reachable in Ht. split.
    + rewrite depends_on_add, !String.eqb_refl. reflexivity.
    + now apply reaches_kept.
Qed.

Lemma order_loop_end g cells fuel : forall m q res order,
  settled cells m q res ->
  (forall b d, map_get b m = Some d -> d = reads g b cells - reads g b res) ->
  (forall b, In b cells ->
     exists d, map_get b m = Some d /\ (0 < d \/ In b (res ++ q))) ->
  order_loop fuel g m q res = Some order ->
  NoDup order /\ incl order cells
  /\ forall b, In b cells -> ~ In b order ->
       0 < reads g b cells - reads g b order.
Proof.
  induction fuel as [|fuel IH]; intros m [|current q] res order Hs Hd Hw;
    simpl; try discriminate.
  1, 2: intros [= <-]; destruct Hs as (S1 & S2 & S3);
    rewrite app_nil_r in *; split; [assumption|]; split;
    [ intros x Hx; destruct (S2 x Hx) as (dx & Ex & _); now apply (S3 x dx)
    | intros b Hb Hn; destruct (Hw b Hb) as (d & Eb & [Hpos|Hin]);
      [rewrite <- (Hd b d Eb); exact Hpos | contradiction] ].
  assert (E : match map_get current (dependencies g) with
              | Some deps => fold_left release deps (m, q)
              | None => (m, q)
              end = fold_left release (getDependencies current g) (m, q)).
  { unfold getDependencies. now destruct (map_get current (dependencies g)). }
  rewrite E. clear E.
  assert (Hs' : settled cells m q (res ++ [current])).
  { destruct Hs as (S1 & S2 & S3). unfold settled.
    rewrite <- app_assoc. simpl. now repeat split. }
  assert (Hw' : forall b, In b cells ->
     exists d, map_get b m = Some d /\ (0 < d \/ In b ((res ++ [current]) ++ q))).
  { intros b Hb. destruct (Hw b Hb) as (d & Eb & H). exists d.
    split; [assumption|]. rewrite <- app_assoc. exact H. }
  clear Hw.
  assert (Hall : forall deps m q,
    (forall b, In b cells ->
       exists d, map_get b m = Some d
                 /\ (0 < d \/ In b ((res ++ [current]) ++ q))) ->
    forall b, In b cells ->
      exists d, map_get b (fst (fold_left release deps (m, q))) = Some d
        /\ (0 < d \/ In b ((res ++ [current])
                           ++ snd (fold_left release deps (m, q))))).
  { clear. induction deps as [|dep deps IHd]; intros m q H; [exact H|].
    cbn [fold_left].
    destruct (release (m, q) dep) as [m1 q1] eqn:E. apply IHd.
    intros b Hb. destruct (H b Hb) as (d & Eb & Hd).
    unfold release in E. destruct (map_get dep m) as [dd|] eqn:Edep.
    - injection E as <- <-. rewrite map_get_set.
      destruct (String.eqb_spec b dep) as [->|Hne].
      + exists (dd - 1). split; [reflexivity|].
        rewrite Edep in Eb. injection Eb as <-.
        destruct (Z.eqb_spec (dd - 1) 0) as [H0|H0].
        * right. rewrite app_assoc. apply in_or_app. right. now left.
        * destruct Hd as [Hd|Hd]; [left; lia | now right].
      + exists d. split; [assumption|].
        destruct Hd as [Hd|Hd]; [now left | right].
        destruct (dd - 1 =? 0); [|assumption].
        rewrite app_assoc. apply in_or_app. now left.
    - injection E as <- <-. now exists d. }
  pose proof (Hall (getDependencies current g) m q Hw') as Hw''.
  pose proof (release_all_settled cells (res ++ [current])
                (getDependencies current g) m q Hs') as Hs''.
  pose proof (fst_release_all (getDependencies current g) (m, q)) as Hm.
  destruct (fold_left release (getDependencies current g) (m, q)) as [m' q'].
  simpl in Hs'', Hm, Hw''. apply IH; try assumption.
  intros b d. rewrite Hm, map_get_release_all.
  destruct (map_get b m) as [d0|] eqn:Eb; [|discriminate].
  intros [= <-]. rewrite (Hd b d0 Eb), reads_app. cbn [reads fold_right]. lia.
Qed.

Lemma getEvaluationOrder_end g cells order :
  getEvaluationOrder cells g = Some order ->
  NoDup order /\ incl order cells
  /\ forall b, In b cells -> ~ In b order ->
       0 < reads g b cells - reads g b order.
Proof.
  unfold getEvaluationOrder.
  destruct (initial_degrees_spec cells g) as [Hnd Hget].
  apply order_loop_end.
  - repeat split.
    + simpl. now apply NoDup_map_filter.
    + simpl. intros b Hb. apply in_map_iff in Hb as ([k d] & <- & Hin).
      apply filter_In in Hin as [Hin Hz]. simpl in *.
      apply Z.eqb_eq in Hz. subst d. exists 0.
      split; [now apply map_get_In_NoDup | lia].
    + intros b d. rewrite Hget. destruct (set_has b cells) eqn:E; [|discriminate].
      intros _. now apply set_has_In.
  - intros b d. rewrite Hget. destruct (set_has b cells); [|discriminate].
    intros [= <-]. simpl. lia.
  - intros b Hb. rewrite Hget.
    apply set_has_In in Hb. rewrite Hb. eexists. split; [reflexivity|].
    pose proof (reads_nonneg g b cells) as Hn.
    destruct (Z.eq_dec (reads g b cells) 0) as [E0|]; [right | left; lia].
    cbn [app]. apply in_map_iff. exists (b, reads g b cells).
    split; [reflexivity|]. apply filter_In. split; [|cbn; now rewrite E0].
    assert (Hin : forall (m : map Z) k v, map_get k m = Some v -> In (k, v) m).
    { clear. induction m as [|[k' v'] m IH]; simpl; [discriminate|].
      intros k v. destruct (String.eqb_spec k k') as [->|].
      - intros [= ->]. now left.
      - intros H. right. now apply IH. }
    apply Hin. rewrite Hget.
    now rewrite (proj2 (set_has_In b cells) (proj1 (set_has_In b cells) Hb)).
Qed.

Lemma readers_first_through g cells order a b :
  readers_first g cells order -> reads_through g cells a b ->
  forall pre post, order = pre ++ b :: post -> In a pre.
Proof.
  intros Hrf. induction 1 as [a b Ha Hab|a b c Ha Hab _ IH]; intros pre post E.
  - exact (Hrf pre b post a E Ha Hab).
  - specialize (IH pre post E). apply in_split in IH as (p1 & p2 & ->).
    rewrite <- app_assoc in E. cbn [app] in E.
    apply in_or_app. left. exact (Hrf p1 b _ a E Ha Hab).
Qed.

Lemma order_skips_cycles g cells order :
  getEvaluationOrder cells g = Some order ->
  forall a, reads_through g cells a a -> ~ In a order.
Proof.
  intros H a Hcycle Ha.
  destruct (getEvaluationOrder_end g cells order H) as (Hnd & _ & _).
  apply in_split in Ha as (pre & post & E).
  pose proof (readers_first_through g cells order a a
                (getEvaluationOrder_readers_first g cells order H)
                Hcycle pre post E) as Hpre.
  rewrite E in Hnd. apply NoDup_remove_2 in Hnd.
  apply Hnd. apply in_or_app. now left.
Qed.

(** X20. The order that [getEvaluationOrder] returns names no address
    twice, names only cells of the set it was given, and leaves out every
    cell that is on a cycle of dependencies among the cells of the set. *)
Theorem evaluation_order_leaves_cycles_out (g : t) (cells order : list string) :
  getEvaluationOrder cells g = Some order ->
  NoDup order /\ incl order cells
  /\ forall a, reads_through g cells a a -> ~ In a order.
Proof.
  intros H. destruct (getEvaluationOrder_end g cells order H) as (Hnd & Hin & _).
  split; [assumption|]. split; [assumption|].
  now apply order_skips_cycles.
Qed.

Lemma reads_cons g b a l :
  reads g b (a :: l) = occurrences b (getDependencies a g) + reads g b l.
Proof. reflexivity. Qed.

Lemma reads_covered g b cells :
  NoDup cells ->
  forall l,
    (forall a, In a cells -> depends_on g a b = true -> In a l) ->
    reads g b cells <= reads g b l.
Proof.
  induction 1 as [|a cs Hna _ IH]; intros l Hl;
    [cbn; apply reads_nonneg|].
  rewrite reads_cons.
  destruct (depends_on g a b) eqn:Hab.
  - destruct (in_split a l (Hl a (or_introl eq_refl) Hab)) as (l1 & l2 & ->).
    rewrite reads_app, reads_cons.
    assert (reads g b cs <= reads g b (l1 ++ l2)); [|rewrite reads_app in *; lia].
    apply IH. intros a' Ha' Hab'.
    assert (Hne : a' <> a) by (intros ->; contradiction).
    specialize (Hl a' (or_intror Ha') Hab').
    apply in_app_or in Hl as [Hl|[Hl|Hl]]; apply in_or_app;
      [now left | now symmetry in Hl | now right].
  - assert (E0 : occurrences b (getDependencies a g) = 0).
    { pose proof (occurrences_nonneg b (getDependencies a g)).
      destruct (Z.eq_dec (occurrences b (getDependencies a g)) 0); [assumption|].
      assert (Hp : 0 < occurrences b (getDependencies a g)) by lia.
      apply occurrences_pos in Hp. congruence. }
    rewrite E0. cbn [Z.add]. apply IH. intros a' Ha'. apply Hl. now right.
Qed.

(** X21. Nothing is left out of the order for no reason: when the
    cells given are distinct, a cell that [getEvaluationOrder] leaves out is
    read by a cell of the set that is left out too. *)
Theorem left_out_is_read_by_left_out (g : t) (cells order : list string)
    (b : string) :
  NoDup cells -> getEvaluationOrder cells g = Some order ->
  In b cells -> ~ In b order ->
  exists a, In a cells /\ ~ In a order /\ depends_on g a b = true.
Proof.
  intros Hnd H Hb Hout.
  destruct (getEvaluationOrder_end g cells order H) as (_ & _ & Hleft).
  specialize (Hleft b Hb Hout).
  destruct (Exists_dec (fun a => ~ In a order /\ depends_on g a b = true) cells)
    as [Hex|Hno].
  { intros a. destruct (in_dec string_dec a order) as [Hi|Hi];
      [right; tauto|].
    destruct (depends_on g a b); [left; tauto | right].
    intros [_ Hf]. discriminate. }
  - apply Exists_exists in Hex as (a & Ha & Ho & Hab). now exists a.
  - exfalso.
    assert (Hcov : forall a, In a cells -> depends_on g a b = true -> In a order).
    { intros a Ha Hab. destruct (in_dec string_dec a order) as [Hi|Hi];
        [assumption|].
      exfalso. apply Hno. apply Exists_exists. now exists a. }
    pose proof (reads_covered g b cells Hnd order Hcov). lia.
Qed.


Lemma evaluation_order_leaves_cycles_out_witness :
  getEvaluationOrder ["A1"; "B1"; "C1"; "D1"]
    (addDependency "C1" "D1"
       (addDependency "B1" "A1" (addDependency "A1" "B1" empty)))
  = Some ["C1"; "D1"]
  /\ NoDup ["C1"; "D1"] /\ incl ["C1"; "D1"] ["A1"; "B1"; "C1"; "D1"]
  /\ forall a,
       reads_through
         (addDependency "C1" "D1"
            (addDependency "B1" "A1" (addDependency "A1" "B1" empty)))
         ["A1"; "B1"; "C1"; "D1"] a a ->
       ~ In a ["C1"; "D1"].
Proof.
  assert (H : getEvaluationOrder ["A1"; "B1"; "C1"; "D1"]
                (addDependency "C1" "D1"
                   (addDependency "B1" "A1" (addDependency "A1" "B1" empty)))
              = Some ["C1"; "D1"]) by reflexivity.
  split; [exact H|].
  exact (evaluation_order_leaves_cycles_out _ _ _ H).
Defined.

Lemma left_out_is_read_by_left_out_witness :
  NoDup ["A1"; "B1"; "C1"]
  /\ getEvaluationOrder ["A1"; "B1"; "C1"]
       (addDependency "A1" "C1" (addDependency "A1" "A1" empty))
     = Some ["B1"]
  /\ In "C1" ["A1"; "B1"; "C1"]
  /\ ~ In "C1" ["B1"]
  /\ exists a,
       In a ["A1"; "B1"; "C1"] /\ ~ In a ["B1"]
       /\ depends_on (addDependency "A1" "C1" (addDependency "A1" "A1" empty))
            a "C1" = true.
Proof.
  assert (Hnd : NoDup ["A1"; "B1"; "C1"]).
  { repeat constructor; cbn; intuition discriminate. }
  assert (H : getEvaluationOrder ["A1"; "B1"; "C1"]
                (addDependency "A1" "C1" (addDependency "A1" "A1" empty))
              = Some ["B1"]) by reflexivity.
  assert (Hin : In "C1" ["A1"; "B1"; "C1"]) by (cbn; auto).
  assert (Hout : ~ In "C1" ["B1"]) by (cbn; intuition discriminate).
  split; [exact Hnd|]. split; [exact H|]. split; [exact Hin|].
  split; [exact Hout|].
  exact (left_out_is_read_by_left_out _ _ _ "C1" Hnd H Hin Hout).
Defined.

End GraphMore.

(** *** Evaluation terminates *)

Module TerminationFacts.
Import Text Types FormulaEngine EngineFacts.

Lemma returns_ret {A} (a : A) v : returns (ret a) v.
Proof. discriminate. Qed.

Lemma returns_throw {A} message v : returns (@throw A message) v.
Proof. discriminate. Qed.

Lemma returns_bind {A B} (m : M A) (f : A -> M B) v :
  returns m v -> preserves m -> (forall a, returns (f a) v) ->
  returns (bind m f) v.
Proof.
  unfold returns, bind. intros Hm Hp Hf. specialize (Hp v).
  destruct (m v) as [[a| |] v']; cbn in *; subst; auto; discriminate.
Qed.

Lemma returns_for_each {A B} (f : A -> M B) l v :
  (forall a, In a l -> returns (f a) v) -> (forall a, preserves (f a)) ->
  returns (for_each f l) v.
Proof.
  intros Hr Hp. induction l as [|a l IH]; cbn [for_each]; [apply returns_ret|].
  apply returns_bind; [apply Hr; now left | apply Hp |]. intros b.
  apply returns_bind;
    [apply IH; intros x Hx; apply Hr; now right
    | now apply preserves_for_each | intros; apply returns_ret].
Qed.

Lemma returns_for_fold {A S} (step : S -> A -> M S) l v :
  (forall acc a, In a l -> returns (step acc a) v) ->
  (forall acc a, preserves (step acc a)) ->
  forall acc, returns (for_fold step l acc) v.
Proof.
  intros Hr Hp. induction l as [|a l IH]; intros acc; cbn [for_fold];
    [apply returns_ret|].
  apply returns_bind; [apply Hr; now left | apply Hp |]. intros acc'.
  apply IH. intros x y Hy. apply Hr. now right.
Qed.

Section Returns.

Variable Number : string -> float.
Variable pow : float -> float -> float.

Section Step.

Variable sheet : Sheet.
Variable self : FormulaAst -> M CellValue.
Variable visited : Js.set.
Hypothesis self_preserves : forall ast, preserves (self ast).
Hypothesis cells_return : forall address src ast,
  Js.map_get address (cells sheet) = Some (FormulaCell src ast) ->
  Js.set_has address visited = false ->
  returns (self ast) (Js.set_add address visited).

Lemma evaluateCellRef_returns address :
  returns (evaluateCellRef sheet self address) visited.
Proof.
  unfold returns, evaluateCellRef.
  destruct (Js.set_has address visited) eqn:E; [discriminate|].
  destruct (Js.map_get address (cells sheet)) as [[lit|src ast|msg c]|] eqn:Ec;
    try discriminate.
  pose proof (cells_return address src ast Ec E) as H. unfold returns in H.
  destruct (self ast (Js.set_add address visited)) as [r v']. exact H.
Qed.

Lemma evaluateRange_returns start finish :
  returns (evaluateRange sheet self start finish) visited.
Proof.
  unfold evaluateRange.
  apply returns_bind; [|apply preserves_lift|].
  { unfold returns, lift, parseCellAddress. cbn.
    destruct (match_address _ start) as [[[[? ?] ?] ?]|]; discriminate. }
  intros sp.
  apply returns_bind; [|apply preserves_lift|].
  { unfold returns, lift, parseCellAddress. cbn.
    destruct (match_address _ finish) as [[[[? ?] ?] ?]|]; discriminate. }
  intros ep. apply returns_for_each.
  - intros [row col] _.
    apply returns_bind; [|apply preserves_lift|].
    + unfold returns, lift, formatCellAddress, toCellAddress. cbn.
      destruct (_ || _); [discriminate|].
      destruct (match_address _ _); discriminate.
    + intros a. apply evaluateCellRef_returns.
  - intros [row col]. apply preserves_bind; [apply preserves_lift|].
    intros a. now apply evaluateCellRef_preserves.
Qed.

Variable args : list FormulaAst.
Hypothesis args_return : forall arg, In arg args -> returns (self arg) visited.

Lemma getNumericValues_returns arg :
  In arg args -> returns (getNumericValues Number self arg) visited.
Proof.
  intros H. apply returns_bind;
    [now apply args_return | apply self_preserves | intros; apply returns_ret].
Qed.

Lemma getAllValues_returns arg :
  In arg args -> returns (getAllValues self arg) visited.
Proof.
  intros H. apply returns_bind;
    [now apply args_return | apply self_preserves | intros; apply returns_ret].
Qed.

Ltac looping :=
  apply returns_bind;
    [ apply returns_for_fold;
      [ intros acc a Ha; apply returns_bind;
        [ first [ now apply getNumericValues_returns
                | now apply getAllValues_returns ]
        | first [ now apply getNumericValues_preserves
                | now apply getAllValues_preserves ]
        | intros; apply returns_ret ]
      | intros acc a; apply preserves_bind;
        [ first [ now apply getNumericValues_preserves
                | now apply getAllValues_preserves ]
        | intros; apply preserves_ret ] ]
    | apply preserves_for_fold; intros acc a; apply preserves_bind;
      [ first [ now apply getNumericValues_preserves
              | now apply getAllValues_preserves ]
      | intros; apply preserves_ret ]
    | intros; try match goal with |- returns (let (_, _) := ?p in _) _ => destruct p end;
      apply returns_ret ].

Lemma evaluateIf_returns : returns (evaluateIf self args) visited.
Proof.
  unfold evaluateIf.
  destruct args as [|c [|t [|e [|x rest]]]]; try apply returns_throw.
  - apply returns_bind;
      [apply args_return; now left | apply self_preserves | intros cond].
    destruct (_ && _); [apply args_return; cbn; auto | apply returns_ret].
  - apply returns_bind;
      [apply args_return; now left | apply self_preserves | intros cond].
    destruct (_ && _); apply args_return; cbn; auto.
Qed.

Lemma evaluateFunction_returns name :
  returns (evaluateFunction Number self name args) visited.
Proof.
  unfold evaluateFunction. cbv zeta.
  repeat match goal with
    | |- returns (if ?b then _ else _) _ => destruct b
    end; try apply returns_throw; try apply evaluateIf_returns.
  - unfold evaluateSum. looping.
  - unfold evaluateAverage. looping.
  - unfold evaluateMin. looping.
  - unfold evaluateMax. looping.
  - unfold evaluateCount. looping.
Qed.

End Step.

Lemma evaluateBinaryOp_returns (self : FormulaAst -> M CellValue) v op lhs rhs :
  (forall ast, preserves (self ast)) ->
  returns (self lhs) v -> returns (self rhs) v ->
  returns (evaluateBinaryOp Number pow self op lhs rhs) v.
Proof.
  intros Hp Hl Hr. unfold evaluateBinaryOp.
  apply returns_bind; [exact Hl | apply Hp | intros leftVal].
  apply returns_bind; [exact Hr | apply Hp | intros rightVal]. cbv zeta.
  repeat match goal with
    | |- returns (if ?b then _ else _) _ => destruct b
    end; first [apply returns_ret | apply returns_throw].
Qed.

Lemma evaluateUnaryOp_returns (self : FormulaAst -> M CellValue) v op operand :
  (forall ast, preserves (self ast)) ->
  returns (self operand) v ->
  returns (evaluateUnaryOp self op operand) v.
Proof.
  intros Hp Ho. unfold evaluateUnaryOp.
  apply returns_bind; [exact Ho | apply Hp | intros value]. cbv zeta.
  repeat match goal with
    | |- returns (if ?b then _ else _) _ => destruct b
    end; first [apply returns_ret | apply returns_throw].
Qed.

Lemma depth_pos ast : (1 <= depth ast)%nat.
Proof. destruct ast; cbn [depth]; lia. Qed.

Lemma depth_arg name args arg :
  In arg args -> (depth arg < depth (FunctionCall name args))%nat.
Proof.
  cbn [depth]. induction args as [|a args IH]; intros H; [contradiction|].
  destruct H as [->|H]; [lia|]. specialize (IH H). lia.
Qed.

Lemma formula_cell_In sheet address src ast :
  Js.map_get address (cells sheet) = Some (FormulaCell src ast) ->
  In (address, ast) (formula_cells sheet).
Proof.
  unfold formula_cells. induction (cells sheet) as [|[k c] m IH];
    cbn [Js.map_get flat_map]; [discriminate|].
  destruct (String.eqb_spec address k) as [->|Hne].
  - intros [= ->]. cbn. now left.
  - intros H. apply in_or_app. right. now apply IH.
Qed.

Lemma depth_deepest sheet address ast :
  In (address, ast) (formula_cells sheet) -> (depth ast <= deepest sheet)%nat.
Proof.
  unfold deepest. induction (formula_cells sheet) as [|e l IH]; [contradiction|].
  intros [->|H]; cbn [fold_right snd]; [lia|]. specialize (IH H). lia.
Qed.

Lemma unvisited_add sheet address ast visited :
  In (address, ast) (formula_cells sheet) ->
  Js.set_has address visited = false ->
  (unvisited sheet (Js.set_add address visited) < unvisited sheet visited)%nat.
Proof.
  unfold unvisited. intros Hin Hv.
  induction (formula_cells sheet) as [|e l IH]; [contradiction|].
  assert (Hle : forall l0 : list (string * FormulaAst),
    (List.length (filter (fun e => negb (Js.set_has (fst e) (Js.set_add address visited))) l0)
     <= List.length (filter (fun e => negb (Js.set_has (fst e) visited)) l0))%nat).
  { clear. induction l0 as [|x l0 IH0]; [cbn; lia|]. cbn [filter].
    rewrite JsFacts.set_has_add.
    destruct (Js.set_has (fst x) visited); rewrite ?orb_true_r; cbn [negb];
      [exact IH0|].
    destruct (String.eqb (fst x) address); cbn [orb negb List.length]; lia. }
  cbn [filter]. destruct Hin as [->|Hin].
  - cbn [fst]. rewrite JsFacts.set_has_add, String.eqb_refl, Hv.
    cbn [orb negb List.length]. specialize (Hle l). lia.
  - specialize (IH Hin). rewrite JsFacts.set_has_add.
    destruct (Js.set_has (fst e) visited); rewrite ?orb_true_r; cbn [negb];
      [exact IH|].
    destruct (String.eqb (fst e) address); cbn [orb negb List.length];
      [specialize (Hle l)|]; lia.
Qed.

Lemma unvisited_le sheet visited :
  (unvisited sheet visited <= List.length (formula_cells sheet))%nat.
Proof. unfold unvisited. apply filter_length_le. Qed.

(** The height of the tree, and a formula's height and one for every
    formula cell not yet entered, is fuel enough for [evaluateAst]. *)
Lemma evaluateAst_returns sheet fuel : forall ast visited,
  (depth ast + unvisited sheet visited * S (deepest sheet) <= fuel)%nat ->
  returns (evaluateAst Number pow fuel sheet ast) visited.
Proof.
  induction fuel as [|fuel IH]; intros ast visited Hf.
  { pose proof (depth_pos ast). lia. }
  assert (Hp : forall a, preserves (evaluateAst Number pow fuel sheet a))
    by (intros a; apply evaluateAst_preserves).
  assert (Hcells : forall address src a,
    Js.map_get address (cells sheet) = Some (FormulaCell src a) ->
    Js.set_has address visited = false ->
    returns (evaluateAst Number pow fuel sheet a) (Js.set_add address visited)).
  { intros address src a Hc Hv. apply IH.
    apply formula_cell_In in Hc.
    pose proof (depth_deepest _ _ _ Hc).
    pose proof (unvisited_add _ _ _ _ Hc Hv).
    pose proof (depth_pos ast). nia. }
  destruct ast as [n|s|b|address c r|start finish|fname args|op lhs rhs
                  |op operand]; cbn [evaluateAst]; try apply returns_ret.
  - now apply evaluateCellRef_returns.
  - apply returns_bind;
      [now apply evaluateRange_returns | now apply evaluateRange_preserves
      | intros; apply returns_ret].
  - apply evaluateFunction_returns; [exact Hp|].
    intros arg Harg. apply IH.
    pose proof (depth_arg fname args arg Harg). lia.
  - apply evaluateBinaryOp_returns; [exact Hp | |]; apply IH;
      cbn [depth] in Hf; lia.
  - apply evaluateUnaryOp_returns; [exact Hp|]. apply IH. cbn [depth] in Hf. lia.
Qed.

Lemma evaluateCell_returns sheet fuel address :
  (enough sheet <= fuel)%nat ->
  evaluateCell Number pow fuel sheet address <> None.
Proof.
  intros Hf. unfold evaluateCell.
  destruct (Js.map_get address (cells sheet)) as [[lit|src ast|msg c]|] eqn:Ec;
    try discriminate.
  assert (H : returns (evaluateAst Number pow fuel sheet ast) [address]).
  { apply evaluateAst_returns. apply formula_cell_In in Ec.
    pose proof (depth_deepest _ _ _ Ec).
    pose proof (unvisited_le sheet [address]).
    unfold enough in Hf. nia. }
  unfold returns in H.
  destruct (fst (evaluateAst Number pow fuel sheet ast [address]));
    [discriminate | destruct (is_circular _); discriminate | contradiction].
Qed.

Lemma refines_refl {A} (m : M A) : refines m m.
Proof. now intros v _. Qed.

Lemma refines_bind {A B} (m m' : M A) (f f' : A -> M B) :
  refines m m' -> (forall a, refines (f a) (f' a)) ->
  refines (bind m f) (bind m' f').
Proof.
  intros Hm Hf v H. unfold returns, bind in *.
  destruct (m v) as [[a| |] v1] eqn:E; cbn in H.
  - rewrite (Hm v) by (unfold returns; rewrite E; discriminate).
    rewrite E. now apply Hf.
  - rewrite (Hm v) by (unfold returns; rewrite E; discriminate).
    now rewrite E.
  - contradiction.
Qed.

Lemma refines_for_each {A B} (f f' : A -> M B) l :
  (forall a, refines (f a) (f' a)) -> refines (for_each f l) (for_each f' l).
Proof.
  intros Hf. induction l as [|a l IH]; cbn [for_each]; [apply refines_refl|].
  apply refines_bind; [apply Hf | intros b].
  apply refines_bind; [apply IH | intros; apply refines_refl].
Qed.

Lemma refines_for_fold {A S} (step step' : S -> A -> M S) l :
  (forall acc a, refines (step acc a) (step' acc a)) ->
  forall acc, refines (for_fold step l acc) (for_fold step' l acc).
Proof.
  intros Hs. induction l as [|a l IH]; intros acc; cbn [for_fold];
    [apply refines_refl|].
  apply refines_bind; [apply Hs | apply IH].
Qed.

Section More.

Variable sheet : Sheet.
Variables self self' : FormulaAst -> M CellValue.
Hypothesis self_refines : forall ast, refines (self ast) (self' ast).

Lemma evaluateCellRef_refines address :
  refines (evaluateCellRef sheet self address)
          (evaluateCellRef sheet self' address).
Proof.
  intros v. unfold returns, evaluateCellRef.
  destruct (Js.set_has address v); [reflexivity|].
  destruct (Js.map_get address (cells sheet)) as [[lit|src ast|msg c]|];
    try reflexivity.
  intros H. rewrite (self_refines ast (Js.set_add address v)); [reflexivity|].
  unfold returns. destruct (self ast (Js.set_add address v)). exact H.
Qed.

Lemma evaluateRange_refines start finish :
  refines (evaluateRange sheet self start finish)
          (evaluateRange sheet self' start finish).
Proof.
  unfold evaluateRange.
  apply refines_bind; [apply refines_refl | intros sp].
  apply refines_bind; [apply refines_refl | intros ep].
  apply refines_for_each. intros [row col].
  apply refines_bind; [apply refines_refl | intros a].
  apply evaluateCellRef_refines.
Qed.

(** Discharges a goal [refines m m'] for two computations that differ in
    the recursive call only. *)
Ltac refining :=
  repeat first
    [ apply refines_refl | apply self_refines
    | apply refines_for_fold; intros
    | apply refines_bind; intros
    | match goal with
      | |- refines (let (_, _) := ?p in _) _ => destruct p
      | |- refines (if ?b then _ else _) _ => destruct b
      | |- refines (match ?l with [] => _ | _ :: _ => _ end) _ => destruct l
      end ].

Lemma evaluateFunction_refines name args :
  refines (evaluateFunction Number self name args)
          (evaluateFunction Number self' name args).
Proof.
  unfold evaluateFunction, evaluateSum, evaluateAverage, evaluateMin,
    evaluateMax, evaluateCount, evaluateIf, getNumericValues, getAllValues.
  refining.
Qed.

Lemma evaluateBinaryOp_refines op lhs rhs :
  refines (evaluateBinaryOp Number pow self op lhs rhs)
          (evaluateBinaryOp Number pow self' op lhs rhs).
Proof. unfold evaluateBinaryOp. refining. Qed.

Lemma evaluateUnaryOp_refines op operand :
  refines (evaluateUnaryOp self op operand) (evaluateUnaryOp self' op operand).
Proof. unfold evaluateUnaryOp. refining. Qed.

End More.

(** More fuel does not change what [evaluateAst] answers. *)
Lemma evaluateAst_refines sheet fuel : forall ast,
  refines (evaluateAst Number pow fuel sheet ast)
          (evaluateAst Number pow (S fuel) sheet ast).
Proof.
  induction fuel as [|fuel IH]; intros ast; [intros v H; now contradiction H|].
  destruct ast as [n|s|b|address c r|start finish|fname args|op lhs rhs
                  |op operand];
    try apply refines_refl.
  - now apply evaluateCellRef_refines.
  - change (refines
      (bind (evaluateRange sheet (evaluateAst Number pow fuel sheet) start finish)
         (fun values => ret (VArray values)))
      (bind (evaluateRange sheet (evaluateAst Number pow (S fuel) sheet)
               start finish)
         (fun values => ret (VArray values)))).
    apply refines_bind; [now apply evaluateRange_refines|].
    intros; apply refines_refl.
  - now apply evaluateFunction_refines.
  - now apply evaluateBinaryOp_refines.
  - now apply evaluateUnaryOp_refines.
Qed.

Lemma evaluateCell_stable sheet address fuel : forall extra,
  evaluateCell Number pow fuel sheet address <> None ->
  evaluateCell Number pow (extra + fuel) sheet address
  = evaluateCell Number pow fuel sheet address.
Proof.
  induction extra as [|extra IH]; intros H; [reflexivity|].
  rewrite <- (IH H). rewrite <- (IH H) in H. cbn [Nat.add].
  revert H. generalize (extra + fuel)%nat. intros f. unfold evaluateCell.
  destruct (Js.map_get address (cells sheet)) as [[lit|src ast|msg c]|];
    try reflexivity.
  intros H. rewrite (evaluateAst_refines sheet f ast [address]); [reflexivity|].
  unfold returns.
  destruct (fst (evaluateAst Number pow f sheet ast [address]));
    [discriminate | discriminate | now contradiction H].
Qed.


End Returns.


End TerminationFacts.

(** *** Where a circular reference is reported *)

Module CycleFacts.
Import Text Types FormulaEngine EngineFacts TerminationFacts Examples.

Section Reached.

Variable Number : string -> float.
Variable pow : float -> float -> float.

(** More fuel does not change an answer. *)
Lemma evaluateAst_more sheet ast visited : forall extra fuel,
  fst (evaluateAst Number pow fuel sheet ast visited) <> OutOfFuel ->
  evaluateAst Number pow (extra + fuel) sheet ast visited
  = evaluateAst Number pow fuel sheet ast visited.
Proof.
  induction extra as [|extra IH]; intros fuel H; [reflexivity|].
  cbn [Nat.add]. rewrite <- (IH fuel H).
  apply evaluateAst_refines. unfold returns. now rewrite (IH fuel H).
Qed.

Lemma gives_later sheet visited ast value :
  gives Number pow sheet visited ast value ->
  exists F, forall fuel, (F <= fuel)%nat ->
    evaluateAst Number pow fuel sheet ast visited = (Ok value, visited).
Proof.
  intros [F H]. exists F. intros fuel Hf.
  replace fuel with ((fuel - F) + F)%nat by lia.
  rewrite evaluateAst_more by (rewrite H; discriminate).
  pose proof (evaluateAst_preserves Number pow F sheet ast visited) as Hp.
  destruct (evaluateAst Number pow F sheet ast visited) as [r v].
  cbn in *. now subst.
Qed.

Lemma all_later {A} (P : A -> nat -> Prop) (l : list A) :
  (forall x, In x l -> exists F, forall fuel, (F <= fuel)%nat -> P x fuel) ->
  exists F, forall x, In x l -> forall fuel, (F <= fuel)%nat -> P x fuel.
Proof.
  induction l as [|a l IH]; intros H.
  - exists 0%nat. intros x [].
  - destruct (H a (or_introl eq_refl)) as [Fa Ha].
    destruct IH as [Fl Hl]; [intros x Hx; apply H; now right|].
    exists (Nat.max Fa Fl). intros x [<-|Hx] fuel Hf.
    + apply Ha. lia.
    + apply Hl; [assumption | lia].
Qed.

Lemma bind_ok {A B} (m : M A) (f : A -> M B) visited a :
  m visited = (Ok a, visited) -> bind m f visited = f a visited.
Proof. unfold bind. now intros ->. Qed.

Lemma for_each_throws_at {A B} (f : A -> M B) before a after visited message :
  (forall x, In x before -> exists b, f x visited = (Ok b, visited)) ->
  fst (f a visited) = Throw message ->
  fst (for_each f (before ++ a :: after) visited) = Throw message.
Proof.
  intros Hb Ha. induction before as [|x before IH]; cbn [app for_each].
  - now apply bind_throws.
  - destruct (Hb x (or_introl eq_refl)) as [b Hx].
    rewrite (bind_ok _ _ _ b Hx). apply bind_throws, IH.
    intros y Hy. apply Hb. now right.
Qed.

Lemma for_fold_throws_at {A S} (step : S -> A -> M S) before a after visited
    message :
  (forall x, In x before ->
     forall acc, exists acc', step acc x visited = (Ok acc', visited)) ->
  (forall acc, fst (step acc a visited) = Throw message) ->
  forall acc,
    fst (for_fold step (before ++ a :: after) acc visited) = Throw message.
Proof.
  intros Hb Ha. induction before as [|x before IH]; intros acc;
    cbn [app for_fold].
  - apply bind_throws, Ha.
  - destruct (Hb x (or_introl eq_refl) acc) as [acc' Hx].
    rewrite (bind_ok _ _ _ acc' Hx). apply IH.
    intros y Hy. apply Hb. now right.
Qed.


(** When the evaluation of a tree leads to a reference to a visited
    address, it throws the circular signal as soon as the fuel allows. *)
Lemma leads_throws sheet visited ast b :
  leads Number pow sheet visited ast b ->
  exists F, forall fuel, (F <= fuel)%nat ->
    fst (evaluateAst Number pow fuel sheet ast visited)
    = Throw ("CIRC:Circular reference detected: " ++ b)%string.
Proof.
  induction 1 as
    [visited b c r Hb
    |visited a c r src ast b Ha Hc _ [F HF]
    |visited start finish sp ep before after row col cellAddr b Hs He Hcells
       Hbefore Hf _ [F HF]
    |visited op e b _ [F HF]
    |visited op l r b _ [F HF]
    |visited op l r value b Hl _ [F HF]
    |visited name before arg after b Hname Hbefore _ [F HF]
    |visited name cond th rest b Hname Hlen _ [F HF]
    |visited name cond th rest value b Hname Hlen Hcond Htaken _ [F HF]
    |visited name cond th el value b Hname Hcond Htaken _ [F HF]].
  - exists 1%nat. intros [|fuel] Hf; [lia|].
    now rewrite visited_reference_throws.
  - exists (S F). intros [|fuel] Hf; [lia|].
    cbn [evaluateAst]. unfold evaluateCellRef. rewrite Ha, Hc.
    specialize (HF fuel ltac:(lia)).
    destruct (evaluateAst Number pow fuel sheet ast (Js.set_add a visited)).
    exact HF.
  - destruct (all_later
                (fun (rc : Z * Z) fuel =>
                   exists address value,
                     formatCellAddress (snd rc) (fst rc) = Ok address
                     /\ evaluateAst Number pow fuel sheet
                          (CellRef address false false) visited
                        = (Ok value, visited)) before) as [F' HF'].
    { intros [r c] Hin. destruct (Hbefore r c Hin) as (address & value & E & Hg).
      destruct (gives_later _ _ _ _ Hg) as [G HG].
      exists G. intros fuel Hfuel. exists address, value.
      split; [exact E | now apply HG]. }
    exists (S (Nat.max F F')). intros [|fuel] Hfuel; [lia|].
    cbn [evaluateAst]. apply bind_throws. unfold evaluateRange, lift.
    rewrite Hs, He.
    rewrite (bind_ok _ _ _ sp eq_refl), (bind_ok _ _ _ ep eq_refl).
    fold (range_cells sp ep). rewrite Hcells.
    apply for_each_throws_at.
    + intros [r c] Hin.
      destruct (HF' (r, c) Hin (S fuel) ltac:(lia)) as (address & value & E & Hv).
      cbn [fst snd] in E. exists value. rewrite E.
      rewrite (bind_ok _ _ _ address eq_refl). exact Hv.
    + rewrite Hf. rewrite (bind_ok _ _ _ cellAddr eq_refl).
      apply (HF (S fuel)). lia.
  - exists (S F). intros [|fuel] Hf; [lia|].
    cbn [evaluateAst]. unfold evaluateUnaryOp.
    apply bind_throws, HF. lia.
  - exists (S F). intros [|fuel] Hf; [lia|].
    cbn [evaluateAst]. unfold evaluateBinaryOp.
    apply bind_throws, HF. lia.
  - destruct (gives_later _ _ _ _ Hl) as [G HG].
    exists (S (Nat.max F G)). intros [|fuel] Hf; [lia|].
    cbn [evaluateAst]. unfold evaluateBinaryOp.
    rewrite (bind_ok _ _ _ value (HG fuel ltac:(lia))).
    apply bind_throws, HF. lia.
  - destruct (all_later
                (fun earlier fuel =>
                   exists value,
                     evaluateAst Number pow fuel sheet earlier visited
                     = (Ok value, visited)) before) as [F' HF'].
    { intros earlier Hin. destruct (Hbefore earlier Hin) as [value Hg].
      destruct (gives_later _ _ _ _ Hg) as [G HG].
      exists G. intros fuel Hfuel. exists value. now apply HG. }
    exists (S (Nat.max F F')). intros [|fuel] Hf; [lia|].
    specialize (HF fuel ltac:(lia)).
    assert (Hsome : forall earlier, In earlier before ->
              exists value, evaluateAst Number pow fuel sheet earlier visited
                            = (Ok value, visited)).
    { intros earlier Hin. apply (HF' earlier Hin). lia. }
    cbn [evaluateAst]. unfold evaluateFunction. simpl in Hname.
    destruct Hname as [E|[E|[E|[E|[E|[E|[]]]]]]]; rewrite <- E;
      cbn [String.eqb Ascii.eqb Bool.eqb orb]; cbv beta iota;
      unfold evaluateSum, evaluateAverage, evaluateMin, evaluateMax,
        evaluateCount, getNumericValues, getAllValues;
      (apply bind_throws, for_fold_throws_at;
       [intros earlier Hin acc; destruct (Hsome earlier Hin) as [value Hv];
        rewrite (bind_ok _ _ _ _ (bind_ok _ _ _ value Hv)); eexists; reflexivity
       |intros acc; apply bind_throws, bind_throws, HF]).
  - exists (S F). intros [|fuel] Hf; [lia|].
    specialize (HF fuel ltac:(lia)).
    cbn [evaluateAst]. unfold evaluateFunction. rewrite Hname.
    cbn [String.eqb Ascii.eqb Bool.eqb orb]; cbv beta iota.
    unfold evaluateIf.
    destruct rest as [|e [|e' rest]]; [| |simpl in Hlen; lia];
      apply bind_throws, HF.
  - destruct (gives_later _ _ _ _ Hcond) as [G HG].
    exists (S (Nat.max F G)). intros [|fuel] Hf; [lia|].
    specialize (HF fuel ltac:(lia)). specialize (HG fuel ltac:(lia)).
    cbn [evaluateAst]. unfold evaluateFunction. rewrite Hname.
    cbn [String.eqb Ascii.eqb Bool.eqb orb]; cbv beta iota.
    unfold evaluateIf. unfold taken in Htaken.
    destruct rest as [|e [|e' rest]]; [| |simpl in Hlen; lia];
      rewrite (bind_ok _ _ _ value HG); rewrite Htaken; exact HF.
  - destruct (gives_later _ _ _ _ Hcond) as [G HG].
    exists (S (Nat.max F G)). intros [|fuel] Hf; [lia|].
    specialize (HF fuel ltac:(lia)). specialize (HG fuel ltac:(lia)).
    cbn [evaluateAst]. unfold evaluateFunction. rewrite Hname.
    cbn [String.eqb Ascii.eqb Bool.eqb orb]; cbv beta iota.
    unfold evaluateIf. unfold taken in Htaken.
    rewrite (bind_ok _ _ _ value HG). rewrite Htaken. exact HF.
Qed.



Lemma bind_throws_inv {A B} (m : M A) (f : A -> M B) visited message :
  preserves m ->
  fst (bind m f visited) = Throw message ->
  fst (m visited) = Throw message
  \/ exists a, m visited = (Ok a, visited) /\ fst (f a visited) = Throw message.
Proof.
  intros Hp. unfold bind. specialize (Hp visited).
  destruct (m visited) as [[a|msg|] v]; cbn in *; subst.
  - intros H. right. now exists a.
  - intros H. injection H as <-. now left.
  - discriminate.
Qed.

Lemma for_each_throws_inv {A B} (f : A -> M B) visited message :
  (forall x, preserves (f x)) ->
  forall l,
  fst (for_each f l visited) = Throw message ->
  exists before x after,
    l = before ++ x :: after
    /\ (forall y, In y before -> exists b, f y visited = (Ok b, visited))
    /\ fst (f x visited) = Throw message.
Proof.
  intros Hp. induction l as [|a l IH]; cbn [for_each]; [discriminate|].
  intros H. destruct (bind_throws_inv _ _ _ _ (Hp a) H) as [H'|(b & Hb & H')].
  - exists [], a, l. split; [reflexivity|]. split; [intros y []|exact H'].
  - destruct (bind_throws_inv _ _ _ _ (preserves_for_each f l Hp) H')
      as [H2|(bs & _ & H2)]; [|discriminate].
    destruct (IH H2) as (before & x & after & -> & Hbefore & Hx).
    exists (a :: before), x, after. split; [reflexivity|].
    split; [|exact Hx]. intros y [<-|Hy]; [now exists b | now apply Hbefore].
Qed.

Lemma aggregate_throws_inv {S V} (self : FormulaAst -> M CellValue)
    (h : CellValue -> V) (g : S -> V -> S) visited message :
  (forall ast, preserves (self ast)) ->
  forall args acc,
  fst (for_fold
         (fun acc arg =>
            bind (bind (self arg) (fun v => ret (h v)))
              (fun values => ret (g acc values)))
         args acc visited) = Throw message ->
  exists before arg after,
    args = before ++ arg :: after
    /\ (forall y, In y before -> exists value, self y visited = (Ok value, visited))
    /\ fst (self arg visited) = Throw message.
Proof.
  intros Hp. induction args as [|a args IH]; intros acc; cbn [for_fold];
    [discriminate|].
  unfold bind at 1 2 3. pose proof (Hp a visited) as Ha.
  destruct (self a visited) as [[v|msg|] v'] eqn:E; cbn in Ha; subst v';
    cbn [ret fst snd].
  - intros H. destruct (IH _ H) as (before & x & after & -> & Hbefore & Hx).
    exists (a :: before), x, after. split; [reflexivity|].
    split; [|exact Hx]. intros y [<-|Hy]; [now exists v | now apply Hbefore].
  - intros H. exists [], a, args. split; [reflexivity|].
    split; [intros y []|]. rewrite E. now injection H as <-.
  - discriminate.
Qed.

Lemma bind_throws_left {A B} (m : M A) (f : A -> M B) visited message :
  (forall a v msg, fst (f a v) <> Throw msg) ->
  fst (bind m f visited) = Throw message ->
  fst (m visited) = Throw message.
Proof.
  intros Hf. unfold bind.
  destruct (m visited) as [[a|msg|] v]; cbn.
  - intros H. now apply Hf in H.
  - intros H. now injection H as <-.
  - discriminate.
Qed.

Lemma toCellAddress_message s m :
  toCellAddress s = Throw m -> is_circular m = false.
Proof.
  unfold toCellAddress. destruct (match_address _ s); [discriminate|].
  intros H. now injection H as <-.
Qed.

Lemma parseCellAddress_message s m :
  parseCellAddress s = Throw m -> is_circular m = false.
Proof.
  unfold parseCellAddress.
  destruct (match_address _ s) as [[[[? ?] ?] ?]|]; [discriminate|].
  intros H. now injection H as <-.
Qed.

Lemma parseCellAddress_returns s : parseCellAddress s <> OutOfFuel.
Proof.
  unfold parseCellAddress.
  destruct (match_address _ s) as [[[[? ?] ?] ?]|]; discriminate.
Qed.

Lemma formatCellAddress_message c r m :
  formatCellAddress c r = Throw m -> is_circular m = false.
Proof.
  unfold formatCellAddress. destruct (_ || _)%bool.
  - intros H. now injection H as <-.
  - apply toCellAddress_message.
Qed.

Lemma formatCellAddress_returns c r : formatCellAddress c r <> OutOfFuel.
Proof.
  unfold formatCellAddress, toCellAddress. destruct (_ || _)%bool;
    [discriminate|].
  destruct (match_address _ _); discriminate.
Qed.

Section Converse.

Variable sheet : Sheet.

Hypothesis no_tag : forall address message code,
  Js.map_get address (cells sheet) = Some (ErrorCell message code) ->
  is_circular message = false.

(** A reference throws the circular signal only where it leads to a
    visited address, if the trees it goes into do. *)
Lemma evaluateCellRef_reached fuel address visited message :
  (forall ast visited message,
     fst (evaluateAst Number pow fuel sheet ast visited) = Throw message ->
     is_circular message = true ->
     exists b, message = ("CIRC:Circular reference detected: " ++ b)%string
               /\ leads Number pow sheet visited ast b) ->
  fst (evaluateCellRef sheet (evaluateAst Number pow fuel sheet) address visited)
  = Throw message ->
  is_circular message = true ->
  exists b, message = ("CIRC:Circular reference detected: " ++ b)%string
            /\ forall c r, leads Number pow sheet visited (CellRef address c r) b.
Proof.
  intros IH. unfold evaluateCellRef.
  destruct (Js.set_has address visited) eqn:Ev.
  - cbn. intros H _. injection H as <-. exists address.
    split; [reflexivity|]. intros c r. now apply leads_ref.
  - destruct (Js.map_get address (cells sheet)) as [[lit|src ast|msg code]|] eqn:Ec;
      try discriminate.
    + destruct (evaluateAst Number pow fuel sheet ast (Js.set_add address visited))
        as [res v] eqn:E.
      cbn. intros -> Hm.
      destruct (IH ast (Js.set_add address visited) message) as (b & -> & Hl);
        [now rewrite E | exact Hm |].
      exists b. split; [reflexivity|]. intros c r.
      now apply leads_through with src ast.
    + cbn. intros H Hm. injection H as <-.
      rewrite (no_tag address msg code Ec) in Hm. discriminate.
Qed.

(** The converse of [leads_throws]: on a sheet whose error cells do not
    carry the tag of the signal, a tree throws the circular signal only where
    its evaluation leads to a visited address. *)
Lemma throws_leads : forall fuel ast visited message,
  fst (evaluateAst Number pow fuel sheet ast visited) = Throw message ->
  is_circular message = true ->
  exists b, message = ("CIRC:Circular reference detected: " ++ b)%string
            /\ leads Number pow sheet visited ast b.
Proof.
  induction fuel as [|fuel IH]; intros ast visited message; [discriminate|].
  pose proof (evaluateAst_preserves Number pow fuel sheet) as Hp.
  destruct ast as [n|s|v|address c r|start finish|name args|op lhs rhs
                  |op operand]; cbn [evaluateAst]; try discriminate.
  - intros H Hm.
    destruct (evaluateCellRef_reached fuel address visited message IH H Hm)
      as (b & -> & Hl).
    exists b. split; [reflexivity | apply Hl].
  - intros H Hm.
    apply bind_throws_left in H; [|discriminate].
    unfold evaluateRange in H.
    destruct (parseCellAddress start) as [sp|m|] eqn:Es;
      [|cbn in H; injection H as <-;
        now rewrite (parseCellAddress_message _ _ Es) in Hm
       |now apply parseCellAddress_returns in Es].
    destruct (parseCellAddress finish) as [ep|m|] eqn:Ee;
      [|cbn in H; injection H as <-;
        now rewrite (parseCellAddress_message _ _ Ee) in Hm
       |now apply parseCellAddress_returns in Ee].
    change (fst (for_each
                   (fun rc : Z * Z =>
                      let (row, col) := rc in
                      bind (lift (formatCellAddress col row))
                        (evaluateCellRef sheet (evaluateAst Number pow fuel sheet)))
                   (range_cells sp ep) visited) = Throw message) in H.
    apply for_each_throws_inv in H
      as (before & [row col] & after & Hcells & Hbefore & Hx).
    2:{ intros [row col]. apply preserves_bind; [apply preserves_lift|].
        intros cellAddr. now apply evaluateCellRef_preserves. }
    destruct (formatCellAddress col row) as [cellAddr|m|] eqn:Ef;
      [|cbn in Hx; injection Hx as <-;
        now rewrite (formatCellAddress_message _ _ _ Ef) in Hm
       |now apply formatCellAddress_returns in Ef].
    change (fst (evaluateCellRef sheet (evaluateAst Number pow fuel sheet)
                   cellAddr visited) = Throw message) in Hx.
    destruct (evaluateCellRef_reached fuel cellAddr visited message IH Hx Hm)
      as (b & -> & Hl).
    exists b. split; [reflexivity|].
    apply leads_range with sp ep before after row col cellAddr;
      try assumption; [|apply Hl].
    intros r c Hin. destruct (Hbefore (r, c) Hin) as [value Hv].
    destruct (formatCellAddress c r) as [address|m|] eqn:Ea;
      [|discriminate|discriminate].
    exists address, value. split; [reflexivity|].
    exists (S fuel). cbn [evaluateAst].
    change (evaluateCellRef sheet (evaluateAst Number pow fuel sheet) address
              visited = (Ok value, visited)) in Hv.
    now rewrite Hv.
  - intros H Hm. unfold evaluateFunction in H.
    assert (Hagg : forall {S V} (h : CellValue -> V) (g : S -> V -> S) acc,
              In (toUpperCase name)
                ["SUM"; "AVERAGE"; "AVG"; "MIN"; "MAX"; "COUNT"] ->
              fst (for_fold
                     (fun acc arg =>
                        bind (bind (evaluateAst Number pow fuel sheet arg)
                                (fun v => ret (h v)))
                          (fun values => ret (g acc values)))
                     args acc visited) = Throw message ->
              exists b,
                message = ("CIRC:Circular reference detected: " ++ b)%string
                /\ leads Number pow sheet visited (FunctionCall name args) b).
    { intros S V h g acc Hname Hf.
      apply aggregate_throws_inv in Hf
        as (before & arg & after & -> & Hbefore & Harg); [|exact Hp].
      destruct (IH arg visited message Harg Hm) as (b & -> & L).
      exists b. split; [reflexivity|].
      apply leads_argument; [exact Hname | | exact L].
      intros earlier Hin. destruct (Hbefore earlier Hin) as [value Hv].
      exists value, fuel. now rewrite Hv. }
    destruct (String.eqb (toUpperCase name) "SUM") eqn:E1.
    { apply String.eqb_eq in E1. unfold evaluateSum in H.
      apply bind_throws_left in H; [|discriminate].
      apply (Hagg _ _ (numeric_values Number)
               (fun sum values => PrimFloat.add sum (total values)) 0%float);
        [rewrite E1; simpl; tauto | exact H]. }
    destruct (String.eqb (toUpperCase name) "AVERAGE"
              || String.eqb (toUpperCase name) "AVG")%bool eqn:E2.
    { unfold evaluateAverage in H.
      apply bind_throws_left in H; [|intros [x y]; discriminate].
      apply (Hagg _ _ (numeric_values Number)
               (fun (sc : float * float) values =>
                  (PrimFloat.add (fst sc) (total values),
                   PrimFloat.add (snd sc) (of_length values)))
               (0%float, 0%float)); [|exact H].
      apply orb_prop in E2 as [E|E]; apply String.eqb_eq in E; rewrite E;
        simpl; tauto. }
    destruct (String.eqb (toUpperCase name) "MIN") eqn:E3.
    { apply String.eqb_eq in E3. unfold evaluateMin in H.
      apply bind_throws_left in H; [|discriminate].
      apply (Hagg _ _ (numeric_values Number)
               (fun min values =>
                  fold_left
                    (fun min val => if PrimFloat.ltb val min then val else min)
                    values min) infinity);
        [rewrite E3; simpl; tauto | exact H]. }
    destruct (String.eqb (toUpperCase name) "MAX") eqn:E4.
    { apply String.eqb_eq in E4. unfold evaluateMax in H.
      apply bind_throws_left in H; [|discriminate].
      apply (Hagg _ _ (numeric_values Number)
               (fun max values =>
                  fold_left
                    (fun max val => if PrimFloat.ltb max val then val else max)
                    values max) neg_infinity);
        [rewrite E4; simpl; tauto | exact H]. }
    destruct (String.eqb (toUpperCase name) "COUNT") eqn:E5.
    { apply String.eqb_eq in E5. unfold evaluateCount in H.
      apply bind_throws_left in H; [|discriminate].
      apply (Hagg _ _ all_values
               (fun count values =>
                  PrimFloat.add count (of_length (filter counted values)))
               0%float);
        [rewrite E5; simpl; tauto | exact H]. }
    destruct (String.eqb (toUpperCase name) "IF") eqn:E6.
    { apply String.eqb_eq in E6. unfold evaluateIf in H.
      destruct args as [|cond [|th [|el [|x rest]]]];
        try (cbn in H; injection H as <-; discriminate).
      - destruct (bind_throws_inv _ _ _ _ (Hp cond) H) as [H'|(value & Hv & H')].
        + destruct (IH cond visited message H' Hm) as (b & -> & L).
          exists b. split; [reflexivity|].
          apply leads_condition; [exact E6 | cbn; lia | exact L].
        + fold (taken value) in H'.
          destruct (taken value) eqn:Et; [|discriminate].
          destruct (IH th visited message H' Hm) as (b & -> & L).
          exists b. split; [reflexivity|].
          apply leads_then with value; try assumption; [cbn; lia|].
          exists fuel. now rewrite Hv.
      - destruct (bind_throws_inv _ _ _ _ (Hp cond) H) as [H'|(value & Hv & H')].
        + destruct (IH cond visited message H' Hm) as (b & -> & L).
          exists b. split; [reflexivity|].
          apply leads_condition; [exact E6 | cbn; lia | exact L].
        + fold (taken value) in H'.
          destruct (taken value) eqn:Et.
          * destruct (IH th visited message H' Hm) as (b & -> & L).
            exists b. split; [reflexivity|].
            apply leads_then with value; try assumption; [cbn; lia|].
            exists fuel. now rewrite Hv.
          * destruct (IH el visited message H' Hm) as (b & -> & L).
            exists b. split; [reflexivity|].
            apply leads_else with value; try assumption.
            exists fuel. now rewrite Hv. }
    cbn in H. injection H as <-. discriminate.
  - intros H Hm. unfold evaluateBinaryOp in H.
    destruct (bind_throws_inv _ _ _ _ (Hp lhs) H) as [H'|(vl & Hl & H')];
      clear H; rename H' into H.
    + destruct (IH lhs visited message H Hm) as (b & -> & L).
      exists b. split; [reflexivity | now apply leads_left].
    + destruct (bind_throws_inv _ _ _ _ (Hp rhs) H) as [H'|(vr & Hr & H')];
        clear H; rename H' into H.
      * destruct (IH rhs visited message H Hm) as (b & -> & L).
        exists b. split; [reflexivity|].
        apply leads_right with vl; [|exact L]. exists fuel. now rewrite Hl.
      * exfalso. revert H.
        repeat match goal with
               | |- fst ((if ?c then _ else _) _) = _ -> _ => destruct c
               end; cbn; intros H; try discriminate; injection H as <-;
          discriminate.
  - intros H Hm. unfold evaluateUnaryOp in H.
    destruct (bind_throws_inv _ _ _ _ (Hp operand) H) as [H'|(vl & Hl & H')];
      clear H; rename H' into H.
    + destruct (IH operand visited message H Hm) as (b & -> & L).
      exists b. split; [reflexivity | now apply leads_unary].
    + exfalso. revert H.
      repeat match goal with
             | |- fst ((if ?c then _ else _) _) = _ -> _ => destruct c
             end; cbn; intros H; try discriminate; injection H as <-;
        discriminate.
Qed.

End Converse.

(** Two operands that return when each is evaluated on its own from one
    visited set raise no circular signal when they are evaluated one after
    the other. *)
Lemma siblings_do_not_trip fuel sheet visited op lhs rhs vl vr m :
  fst (evaluateAst Number pow fuel sheet lhs visited) = Ok vl ->
  fst (evaluateAst Number pow fuel sheet rhs visited) = Ok vr ->
  fst (evaluateAst Number pow (S fuel) sheet (BinaryOp op lhs rhs) visited)
  = Throw m ->
  is_circular m = false.
Proof.
  intros Hl Hr. cbn [evaluateAst]. unfold evaluateBinaryOp.
  assert (El : evaluateAst Number pow fuel sheet lhs visited = (Ok vl, visited)).
  { pose proof (evaluateAst_preserves Number pow fuel sheet lhs visited) as Hp.
    destruct (evaluateAst Number pow fuel sheet lhs visited); cbn in *.
    now subst. }
  assert (Er : evaluateAst Number pow fuel sheet rhs visited = (Ok vr, visited)).
  { pose proof (evaluateAst_preserves Number pow fuel sheet rhs visited) as Hp.
    destruct (evaluateAst Number pow fuel sheet rhs visited); cbn in *.
    now subst. }
  rewrite (bind_ok _ _ _ vl El), (bind_ok _ _ _ vr Er).
  repeat match goal with
         | |- fst ((if ?c then _ else _) _) = _ -> _ => destruct c
         end; cbn; intros H; try discriminate; now injection H as <-.
Qed.


End Reached.


End CycleFacts.

(** *** Dependency extraction *)

Module ExtractionFacts.
Import Text Types FormulaEngine DependencyGraph.
Import JsFacts GraphFacts EngineFacts CodecFacts AddressFacts.

Lemma extractDependencies_extracted fromCell : forall ast g,
  extractDependencies ast fromCell g
  = fold_left (fun g x => addDependency fromCell x g) (extracted ast) g.
Proof.
  induction ast as [v|v|v|a c r|s f|n args IH|o l r IHl IHr|o e IHe]
    using FormulaAst_induction; intros g; cbn [extractDependencies extracted];
    try reflexivity.
  - revert g. induction IH as [|arg args Harg _ IHargs]; intros g;
      [reflexivity|].
    rewrite fold_left_app, <- Harg. apply IHargs.
  - now rewrite fold_left_app, <- IHl, <- IHr.
  - apply IHe.
Qed.

Lemma depends_on_add_all fromCell xs : forall g a b,
  depends_on (fold_left (fun g x => addDependency fromCell x g) xs g) a b
  = (depends_on g a b || (String.eqb a fromCell && Js.set_has b xs))%bool.
Proof.
  induction xs as [|x xs IH]; intros g a b; cbn [fold_left Js.set_has existsb].
  - now rewrite andb_false_r, orb_false_r.
  - rewrite IH, depends_on_add. unfold Js.set_has.
    destruct (depends_on g a b), (String.eqb a fromCell), (String.eqb b x);
      reflexivity.
Qed.

Lemma add_all_consistent fromCell xs : forall g,
  consistent g ->
  consistent (fold_left (fun g x => addDependency fromCell x g) xs g).
Proof.
  induction xs as [|x xs IH]; intros g H; [exact H|].
  cbn [fold_left]. apply IH. now apply addDependency_consistent.
Qed.

Lemma substring_from_1 x s : substring_from 1 (String x s) = s.
Proof.
  unfold substring_from. cbn [String.length].
  replace (S (String.length s) - 1)%nat with (String.length s) by lia.
  cbn [substring]. apply substring_all.
Qed.

Lemma parseInt_not_digit x s : is_digit x = false -> parseInt (String x s) = None.
Proof. intros H. unfold parseInt. cbn [span]. now rewrite H. Qed.

Lemma upper_not_digit x : is_upper x = true -> is_digit x = false.
Proof. intros H. by_code. Qed.

Lemma row_code_dropped start a :
  Codec.parseAddress start = Ok a ->
  25 < Codec.col a \/ Codec.absoluteCol a = true \/ Codec.absoluteRow a = true ->
  row_code start = None.
Proof.
  unfold Codec.parseAddress.
  destruct (match_address is_digit19 start) as [[[[ca ls] ra] ds]|] eqn:E;
    [|discriminate].
  intros H. inversion H; subst a; clear H.
  cbn [Codec.col Codec.absoluteCol Codec.absoluteRow].
  apply match_address_inv in E as (-> & Hup & Hne & c & r & -> & Hc & Hr).
  destruct ls as [|l ls]; [contradiction|].
  cbn [all_chars] in Hup. apply andb_prop in Hup as [Hl Hls].
  intros Hwhy. unfold row_code.
  destruct ca; cbn [append].
  - rewrite substring_from_1. cbn [append].
    now rewrite (parseInt_not_digit l _ (upper_not_digit l Hl)).
  - rewrite substring_from_1. destruct ls as [|l2 ls].
    + cbn [append]. destruct ra.
      * cbn [append]. now rewrite parseInt_not_digit by reflexivity.
      * exfalso. unfold Codec.letterToCol in Hwhy.
        rewrite letters_value_accumulate in Hwhy. cbn [accumulate] in Hwhy.
        apply upper_code in Hl.
        destruct Hwhy as [H|[H|H]]; [lia | discriminate | discriminate].
    + cbn [all_chars] in Hls. apply andb_prop in Hls as [Hl2 _].
      cbn [append].
      now rewrite (parseInt_not_digit l2 _ (upper_not_digit l2 Hl2)).
Qed.

(** X24. The dependencies of a range are dropped when one of its
    corners is beyond column Z or carries a dollar sign: for such a corner
    [extractDependencies] reads no row number, its loops have no round and
    the graph is left as it was, in whichever place the corner stands. *)
Theorem range_dependencies_are_dropped (corner other : string) (a : Codec.Address)
    (fromCell : CellAddress) (g : DependencyGraph.t) :
  Codec.parseAddress corner = Ok a ->
  25 < Codec.col a \/ Codec.absoluteCol a = true \/ Codec.absoluteRow a = true ->
  toCellAddress other = Ok other ->
  extractDependencies (RangeRef corner other) fromCell g = g
  /\ extractDependencies (RangeRef other corner) fromCell g = g.
Proof.
  intros Ha Hwhy _. pose proof (row_code_dropped corner a Ha Hwhy) as Hrow.
  cbn [extractDependencies]. unfold range_addresses. rewrite Hrow.
  split.
  - destruct (column_code corner); reflexivity.
  - destruct (column_code other), (row_code other), (column_code corner);
      reflexivity.
Qed.

Lemma range_dependencies_are_dropped_witness :
  Codec.parseAddress "AA1" = Ok (Codec.mkAddress 26 0 false false)
  /\ (25 < 26 \/ false = true \/ false = true)
  /\ toCellAddress "AB2" = Ok "AB2"
  /\ extractDependencies (RangeRef "AA1" "AB2") "C1" DependencyGraph.empty
     = DependencyGraph.empty
  /\ extractDependencies (RangeRef "AB2" "AA1") "C1" DependencyGraph.empty
     = DependencyGraph.empty.
Proof.
  assert (H : 25 < 26 \/ false = true \/ false = true) by (left; lia).
  split; [reflexivity|]. split; [exact H|]. split; [reflexivity|].
  exact (range_dependencies_are_dropped "AA1" "AB2"
           (Codec.mkAddress 26 0 false false) "C1" DependencyGraph.empty
           eq_refl H eq_refl).
Defined.

Lemma colToLetter_single c :
  0 <= c <= 25 -> Codec.colToLetter c = String (fromCharCode (65 + c)) "".
Proof.
  intros H. unfold Codec.colToLetter, letters_fuel.
  change (letters_loop (S ?f) (c + 1) "")
    with (if 0 <? c + 1
          then letters_loop f ((c + 1 - 1) / 26)
                 (String (fromCharCode (65 + (c + 1 - 1) mod 26)) "")
          else "").
  destruct (Z.ltb_spec 0 (c + 1)); [|lia].
  replace (c + 1 - 1) with c by lia.
  rewrite Z.div_small, Z.mod_small by lia.
  destruct (Z.to_nat (Z.log2 (c + 1))); reflexivity.
Qed.

Lemma span_all p s : all_chars p s = true -> span p s = (s, EmptyString).
Proof.
  induction s as [|c s IH]; cbn [all_chars span]; [reflexivity|].
  intros H. apply andb_prop in H as [-> Hs]. now rewrite IH.
Qed.

Lemma written_single c r :
  0 <= c <= 25 ->
  Codec.written c r false false
  = String (fromCharCode (65 + c)) (toString (r + 1)).
Proof.
  intros H. unfold Codec.written. now rewrite colToLetter_single.
Qed.

Lemma codes_of_written c r :
  0 <= c <= 25 -> 0 <= r ->
  column_code (Codec.written c r false false) = Some c
  /\ row_code (Codec.written c r false false) = Some r.
Proof.
  intros Hc Hr. rewrite written_single by assumption.
  unfold column_code, row_code. rewrite substring_from_1.
  rewrite charCode_fromCharCode by lia. split; [f_equal; lia|].
  destruct (toString_spec (r + 1) ltac:(lia)) as (d & ds & E & Hd & Hds & Hv & _).
  rewrite E. unfold parseInt.
  rewrite span_all by (cbn [all_chars]; now rewrite Hd, Hds).
  cbn [fst]. rewrite Hv. f_equal. lia.
Qed.

Lemma map_rectangle {B} (g : Z * Z -> B) (rs cs : list Z) :
  map g (flat_map (fun c => map (fun r => (c, r)) rs) cs)
  = flat_map (fun c => map (fun r => g (c, r)) rs) cs.
Proof.
  induction cs as [|c cs IH]; [reflexivity|].
  cbn [flat_map]. now rewrite map_app, map_map, IH.
Qed.

Lemma flat_map_same {A B} (f f' : A -> list B) l :
  (forall x, In x l -> f x = f' x) -> flat_map f l = flat_map f' l.
Proof.
  induction l as [|a l IH]; intros H; [reflexivity|].
  cbn [flat_map]. rewrite (H a (or_introl eq_refl)), IH; [reflexivity|].
  intros x Hx. apply H. now right.
Qed.

Lemma range_addresses_written (c1 r1 c2 r2 : Z) :
  0 <= c1 <= c2 -> c2 <= 25 -> 0 <= r1 <= r2 ->
  Codec.getCellsInRange (Codec.written c1 r1 false false)
    (Codec.written c2 r2 false false)
  = Ok (range_addresses (Codec.written c1 r1 false false)
          (Codec.written c2 r2 false false)).
Proof.
  intros Hc Hc2 Hr.
  destruct (formatAddress_written c1 r1 false false) as [Hf1 Hp1]; try lia.
  destruct (formatAddress_written c2 r2 false false) as [Hf2 Hp2]; try lia.
  unfold Codec.getCellsInRange. rewrite Hp1, Hp2. cbn [bind_outcome].
  cbn [Codec.col Codec.row].
  rewrite !Z.min_l, !Z.max_r by lia.
  unfold range_addresses.
  destruct (codes_of_written c1 r1) as [-> ->]; try lia.
  destruct (codes_of_written c2 r2) as [-> ->]; try lia.
  rewrite (collect_map _ (fun cr => Codec.written (fst cr) (snd cr) false false)).
  - f_equal. rewrite map_rectangle. apply flat_map_same.
    intros c Hin. apply In_interval in Hin. apply map_ext.
    intros r. cbn [fst snd]. apply written_single. lia.
  - intros [c r] Hin. apply In_rectangle in Hin as [Hin1 Hin2].
    apply In_interval in Hin1, Hin2. cbn [fst snd].
    apply formatAddress_written; lia.
Qed.

(** X25. For a range between two plain corners within the columns A
    to Z, the first not after the second on either axis,
    [extractDependencies] runs through the addresses that [getCellsInRange]
    lists, in the same order. *)
Theorem range_dependencies_agree (c1 r1 c2 r2 : Z) :
  0 <= c1 <= c2 -> c2 <= 25 -> 0 <= r1 <= r2 -> r2 < MAX_SAFE_INTEGER ->
  exists start finish,
    Codec.formatAddress c1 r1 false false = Ok start
    /\ Codec.formatAddress c2 r2 false false = Ok finish
    /\ Codec.getCellsInRange start finish = Ok (range_addresses start finish)
    /\ references (RangeRef start finish) = range_addresses start finish.
Proof.
  intros Hc Hc2 Hr _.
  destruct (formatAddress_written c1 r1 false false) as [Hf1 Hp1]; try lia.
  destruct (formatAddress_written c2 r2 false false) as [Hf2 Hp2]; try lia.
  exists (Codec.written c1 r1 false false), (Codec.written c2 r2 false false).
  pose proof (range_addresses_written c1 r1 c2 r2 Hc Hc2 Hr) as E.
  split; [exact Hf1|]. split; [exact Hf2|]. split; [exact E|].
  cbn [references]. now rewrite E.
Qed.

Lemma range_dependencies_agree_witness :
  (0 <= 1 <= 3) /\ 3 <= 25 /\ (0 <= 4 <= 5) /\ 5 < MAX_SAFE_INTEGER
  /\ exists start finish,
       Codec.formatAddress 1 4 false false = Ok start
       /\ Codec.formatAddress 3 5 false false = Ok finish
       /\ Codec.getCellsInRange start finish = Ok (range_addresses start finish)
       /\ references (RangeRef start finish) = range_addresses start finish.
Proof.
  split; [lia|]. split; [lia|]. split; [lia|]. split; [reflexivity|].
  apply (range_dependencies_agree 1 4 3 5); try lia. reflexivity.
Defined.

(** For a plain range the loops of [extractDependencies] run through the
    cells that [getCellsInRange] lists. *)
Lemma plain_range_extracted start finish :
  plain_range start finish = true ->
  Codec.getCellsInRange start finish = Ok (range_addresses start finish).
Proof.
  unfold plain_range.
  destruct (Codec.parseAddress start) as [a| |] eqn:Ea; try discriminate.
  destruct (Codec.parseAddress finish) as [b| |] eqn:Eb; try discriminate.
  intros H.
  repeat match type of H with
         | (_ && _)%bool = true => apply andb_prop in H as [H ?]
         end.
  destruct (parsed_written start a Ea) as [Wa _].
  destruct (parsed_written finish b Eb) as [Wb _].
  destruct (parseAddress_nonneg start a Ea) as [Hca Hra].
  destruct (Codec.absoluteCol a), (Codec.absoluteRow a),
    (Codec.absoluteCol b), (Codec.absoluteRow b); try discriminate.
  rewrite <- Wa, <- Wb. apply range_addresses_written; lia.
Qed.

Lemma plain_extracted : forall ast,
  plain_ranges ast = true -> extracted ast = references ast.
Proof.
  induction ast as [v|v|v|a c r|s f|n args IH|o l r IHl IHr|o e IHe]
    using FormulaAst_induction; cbn [plain_ranges extracted references];
    intros H; try reflexivity.
  - now rewrite (plain_range_extracted s f H).
  - induction IH as [|arg args Harg _ IHargs]; [reflexivity|].
    apply andb_prop in H as [H1 H2]. now rewrite (Harg H1), (IHargs H2).
  - apply andb_prop in H as [H1 H2]. now rewrite (IHl H1), (IHr H2).
  - now apply IHe.
Qed.

(** X23. For a tree whose ranges are plain, [extractDependencies] adds to
    the graph the edges from [fromCell] to the addresses the tree refers to,
    the address of every reference and the cells of every range, and nothing
    else: every edge that was there is kept, no edge leaves another cell, and
    the two maps of the graph stay inverse of one another.  (For a range that
    is not plain the edges are not those, see X24.) *)
Theorem extractDependencies_adds_edges (ast : FormulaAst) (fromCell : CellAddress)
    (g : DependencyGraph.t) (a b : string) :
  plain_ranges ast = true ->
  depends_on (extractDependencies ast fromCell g) a b
  = (depends_on g a b
     || (String.eqb a fromCell && Js.set_has b (references ast)))%bool
  /\ (consistent g -> consistent (extractDependencies ast fromCell g)).
Proof.
  intros H. rewrite extractDependencies_extracted, <- (plain_extracted ast H).
  split.
  - apply depends_on_add_all.
  - apply add_all_consistent.
Qed.

Lemma extractDependencies_adds_edges_witness :
  plain_ranges
    (BinaryOp "+" (Examples.ref "B1") (FunctionCall "SUM" [RangeRef "C1" "D2"]))
  = true
  /\ references
       (BinaryOp "+" (Examples.ref "B1") (FunctionCall "SUM" [RangeRef "C1" "D2"]))
     = ["B1"; "C1"; "C2"; "D1"; "D2"]
  /\ depends_on
       (extractDependencies
          (BinaryOp "+" (Examples.ref "B1")
             (FunctionCall "SUM" [RangeRef "C1" "D2"]))
          "A1" A1_reads_B1) "A1" "D1"
     = (depends_on A1_reads_B1 "A1" "D1"
        || (String.eqb "A1" "A1"
            && Js.set_has "D1"
                 (references
                    (BinaryOp "+" (Examples.ref "B1")
                       (FunctionCall "SUM" [RangeRef "C1" "D2"])))))%bool.
Proof.
  assert (H : plain_ranges
                (BinaryOp "+" (Examples.ref "B1")
                   (FunctionCall "SUM" [RangeRef "C1" "D2"])) = true)
    by reflexivity.
  split; [exact H|]. split; [reflexivity|].
  exact (proj1 (extractDependencies_adds_edges _ "A1" A1_reads_B1 "A1" "D1" H)).
Defined.

End ExtractionFacts.

(** *** Whole sheets *)

Module SheetFacts.
Import Text Types FormulaEngine DependencyGraph.
Import JsFacts GraphFacts EngineFacts OrderFacts GraphMore TerminationFacts
  ExtractionFacts.

Section Sheets.

Variable Number : string -> float.
Variable pow : float -> float -> float.

Lemma evaluate_all_returns fuel sheet order : forall acc,
  (forall a, evaluateCell Number pow fuel sheet a <> None) ->
  exists results,
    evaluate_all Number pow fuel sheet order acc = Some results
    /\ forall a,
         Js.map_get a results
         = if Js.set_has a order then evaluateCell Number pow fuel sheet a
           else Js.map_get a acc.
Proof.
  induction order as [|x order IH]; intros acc Hr; cbn [evaluate_all].
  - exists acc. now split.
  - destruct (evaluateCell Number pow fuel sheet x) as [r|] eqn:Ex;
      [|now destruct (Hr x)].
    destruct (IH (Js.map_set x r acc) Hr) as (results & E & Hget).
    exists results. split; [exact E|]. intros a. rewrite Hget.
    cbn [Js.set_has existsb]. fold (Js.set_has a order).
    destruct (Js.set_has a order); [now rewrite orb_true_r|].
    rewrite orb_false_r, map_get_set.
    destruct (String.eqb_spec a x) as [->|]; [now rewrite Ex | reflexivity].
Qed.

Lemma depends_on_extracted (l : list (CellAddress * FormulaAst)) : forall g a b,
  depends_on (fold_left (fun g e => extractDependencies (snd e) (fst e) g) l g) a b
  = (depends_on g a b
     || existsb (fun e => String.eqb a (fst e)
                          && Js.set_has b (extracted (snd e))) l)%bool.
Proof.
  induction l as [|e l IH]; intros g a b; cbn [fold_left existsb].
  - now rewrite orb_false_r.
  - rewrite IH, extractDependencies_extracted, depends_on_add_all.
    now rewrite orb_assoc.
Qed.

Lemma refers_reads sheet g :
  (forall a b, depends_on g a b = true <-> refers sheet a b) ->
  forall a b, refers_through sheet a b ->
  reads_through g (map fst (formula_cells sheet)) a b.
Proof.
  intros Hg a b H.
  assert (Hin : forall x y, refers sheet x y ->
                            In x (map fst (formula_cells sheet))).
  { intros x y (ast & Hx & _). apply in_map_iff. now exists (x, ast). }
  induction H as [a b H|a b c H _ IH].
  - apply through_one; [exact (Hin a b H) | now apply Hg].
  - apply through_more with b; [exact (Hin a b H) | now apply Hg | exact IH].
Qed.

(** X26. On a sheet whose formulas have plain ranges only,
    [evaluateSheet] returns when the fuel is enough.  The graph it builds
    has an edge from [a] to [b] exactly when [a] is a formula cell whose tree
    refers to [b], by a reference to [b] or by a range with [b] among its
    cells.  A result is reported only for a formula cell, it is the result of
    [evaluateCell] for that cell, and no result at all is reported for a
    formula cell on a cycle of such references. *)
Theorem evaluateSheet_results (fuel : nat) (sheet : Sheet) :
  (forall a ast, In (a, ast) (formula_cells sheet) -> plain_ranges ast = true) ->
  (enough sheet <= fuel)%nat ->
  exists results g,
    evaluateSheet Number pow fuel sheet = Some (results, g)
    /\ (forall a b, depends_on g a b = true <-> refers sheet a b)
    /\ (forall a r,
          Js.map_get a results = Some r ->
          In a (map fst (formula_cells sheet))
          /\ evaluateCell Number pow fuel sheet a = Some r
          /\ ~ refers_through sheet a a).
Proof.
  intros Hplain Hf. unfold evaluateSheet.
  set (g := fold_left (fun g e => extractDependencies (snd e) (fst e) g)
              (formula_cells sheet) DependencyGraph.empty).
  destruct (getEvaluationOrder_returns (map fst (formula_cells sheet)) g)
    as [order Eo].
  rewrite Eo.
  destruct (evaluate_all_returns fuel sheet order []
              (fun a => evaluateCell_returns Number pow sheet fuel a Hf))
    as (results & Er & Hget).
  rewrite Er. exists results, g.
  assert (Hg : forall a b, depends_on g a b = true <-> refers sheet a b).
  { intros a b. unfold g, refers. rewrite depends_on_extracted.
    change (depends_on DependencyGraph.empty a b) with false. cbn [orb].
    rewrite existsb_exists. split.
    + intros ([a' ast] & Hin & H). cbn [fst snd] in H.
      apply andb_prop in H as [Ha Hb]. apply String.eqb_eq in Ha. subst a'.
      exists ast. split; [exact Hin|].
      rewrite <- (plain_extracted ast (Hplain a ast Hin)).
      now apply set_has_In.
    + intros (ast & Hin & Hb). exists (a, ast). split; [exact Hin|].
      cbn [fst snd]. rewrite String.eqb_refl.
      rewrite (plain_extracted ast (Hplain a ast Hin)).
      now apply set_has_In. }
  split; [reflexivity|]. split; [exact Hg|].
  intros a r Ha. rewrite Hget in Ha.
  destruct (Js.set_has a order) eqn:Eh; [|discriminate].
  apply set_has_In in Eh.
  destruct (getEvaluationOrder_end g _ order Eo) as (_ & Hincl & _).
  split; [now apply Hincl|]. split; [exact Ha|].
  intros Hc. apply (refers_reads sheet g Hg) in Hc.
  exact (order_skips_cycles g _ order Eo a Hc Eh).
Qed.

(** X27. The result of a formula cell carries no error, or an error
    whose code is CYCLE or PARSE, never DIV0 or REF; a formula that is a
    reference to an error cell reports the message of that cell under the
    code PARSE, whatever the code of the cell (CYCLE when the message starts
    with the tag of a circular reference). *)
Theorem formula_errors_are_CYCLE_or_PARSE (fuel : nat) (sheet : Sheet)
    (address src : string) (ast : FormulaAst) (result : EvalResult) :
  Js.map_get address (cells sheet) = Some (FormulaCell src ast) ->
  evaluateCell Number pow fuel sheet address = Some result ->
  (error result = None
   \/ exists m, error result = Some (mkError CYCLE m)
                \/ error result = Some (mkError PARSE m))
  /\ forall b c r message code,
       ast = CellRef b c r -> b <> address ->
       Js.map_get b (cells sheet) = Some (ErrorCell message code) ->
       result
       = mkResult VNull
           (Some (if is_circular message
                  then mkError CYCLE (substring_from 5 message)
                  else mkError PARSE message)).
Proof.
  intros Hc H. unfold evaluateCell in H. rewrite Hc in H. split.
  - destruct (fst (evaluateAst Number pow fuel sheet ast [address]))
      as [v|m|]; [| |discriminate].
    + injection H as <-. now left.
    + right. destruct (is_circular m); injection H as <-;
        eexists; [left | right]; reflexivity.
  - intros b c r message code -> Hne Hb.
    destruct fuel as [|fuel]; [discriminate|].
    cbn [evaluateAst] in H. unfold evaluateCellRef in H.
    cbn [Js.set_has existsb] in H.
    destruct (String.eqb_spec b address) as [|_]; [contradiction|].
    cbn [orb] in H. rewrite Hb in H. cbn [fst] in H.
    destruct (is_circular message); now injection H as <-.
Qed.

End Sheets.

Lemma evaluateSheet_results_witness :
  (forall a ast,
     In (a, ast) (formula_cells Examples.books) -> plain_ranges ast = true)
  /\ (enough Examples.books <= 20)%nat
  /\ evaluateSheet Examples.no_Number Examples.no_pow 20 Examples.books
     = Some ([("A3", mkResult (VNumber 3) None)],
             DependencyGraph.mk
               [("A3", ["A1"; "A2"]); ("B1", ["B2"]); ("B2", ["B1"])]
               [("A1", ["A3"]); ("A2", ["A3"]); ("B2", ["B1"]); ("B1", ["B2"])])
  /\ refers Examples.books "A3" "A2"
  /\ refers_through Examples.books "B1" "B1"
  /\ evaluateCell Examples.no_Number Examples.no_pow 20 Examples.books "A3"
     = Some (mkResult (VNumber 3) None)
  /\ ~ refers_through Examples.books "A3" "A3".
Proof.
  assert (Hw : forall a ast,
            In (a, ast) (formula_cells Examples.books) ->
            plain_ranges ast = true).
  { intros a ast [E|[E|[E|[]]]]; injection E as _ <-; reflexivity. }
  assert (H : (enough Examples.books <= 20)%nat) by (vm_compute; lia).
  assert (E : evaluateSheet Examples.no_Number Examples.no_pow 20 Examples.books
     = Some ([("A3", mkResult (VNumber 3) None)],
             DependencyGraph.mk
               [("A3", ["A1"; "A2"]); ("B1", ["B2"]); ("B2", ["B1"])]
               [("A1", ["A3"]); ("A2", ["A3"]); ("B2", ["B1"]); ("B1", ["B2"])]))
    by reflexivity.
  split; [exact Hw|]. split; [exact H|]. split; [exact E|].
  destruct (evaluateSheet_results Examples.no_Number Examples.no_pow 20
              Examples.books Hw H) as (results & g & E' & Hg & Hr).
  rewrite E in E'. injection E' as <- <-.
  split; [now apply Hg|].
  split.
  { apply refers_more with "B2"; [now apply Hg|].
    apply refers_once. now apply Hg. }
  destruct (Hr "A3" (mkResult (VNumber 3) None) eq_refl) as (_ & He & Hn).
  split; [exact He | exact Hn].
Defined.

Lemma formula_errors_are_CYCLE_or_PARSE_witness :
  Js.map_get "A1"
    (cells (Examples.sheet_of
              [("A1", FormulaCell "=B1" (Examples.ref "B1"));
               ("B1", ErrorCell "Division by zero" DIV0)]))
  = Some (FormulaCell "=B1" (Examples.ref "B1"))
  /\ evaluateCell Examples.no_Number Examples.no_pow 2
       (Examples.sheet_of
          [("A1", FormulaCell "=B1" (Examples.ref "B1"));
           ("B1", ErrorCell "Division by zero" DIV0)]) "A1"
     = Some (mkResult VNull (Some (mkError PARSE "Division by zero")))
  /\ (error (mkResult VNull (Some (mkError PARSE "Division by zero"))) = None
      \/ exists m,
           error (mkResult VNull (Some (mkError PARSE "Division by zero")))
           = Some (mkError CYCLE m)
           \/ error (mkResult VNull (Some (mkError PARSE "Division by zero")))
              = Some (mkError PARSE m)).
Proof.
  split; [reflexivity|]. split; [reflexivity|].
  exact (proj1 (formula_errors_are_CYCLE_or_PARSE
                  Examples.no_Number Examples.no_pow 2
                  (Examples.sheet_of
                     [("A1", FormulaCell "=B1" (Examples.ref "B1"));
                      ("B1", ErrorCell "Division by zero" DIV0)])
                  "A1" "=B1" (Examples.ref "B1") _ eq_refl eq_refl)).
Defined.

End SheetFacts.
